(** * Dues ledger and payment distribution of the treasury page

    A shallow embedding of the payment logic of [src/pages/Treasury.tsx]:
    the fiscal calendar ([getMonthYear], [getPaymentKey]), the ledger
    aggregates ([totalAdeudado], [accumulatedTotal]), the distribution
    preview ([distributionInfo]) and the three handlers
    ([handleSavePayment], [handleQuickPay], [handleAdvancePayment]).

    Modelling conventions.
    - An amount is a decimal with two places, given by its whole number
      of cents ([Z]). JavaScript computes on IEEE-754 doubles. Where a
      handler copies amounts, compares them or multiplies one by a count
      of months, the embedding computes on the cents. The allocation
      loops of [handleSavePayment] subtract amounts and test what remains
      against zero, and there rounding decides what is planned: they are
      embedded on the cents ([distribute], the loops in exact arithmetic)
      and on the doubles themselves ([distribute_double], what the page
      computes).
    - The ledger snapshot [payments : Record<string, Payment>] is a
      [gmap string Payment] keyed by the concatenated string the source
      builds.
    - [parseFloat] is left outside: a text field is given by its parsed
      value, [None] standing for [NaN].
    - A handler is a computation that logs the calls it makes (uploads,
      ledger calls, toasts, state setters) and may throw; what the outer
      world answers to a call is read from a [World]. A thrown error is
      kept as its [message]. *)

From Stdlib Require Import ZArith Lia Ascii Floats.
From stdpp Require Import gmap strings list fin_maps pretty.

Local Open Scope Z_scope.

(** ** Data model *)

(** [interface Payment]: one row of [monthly_payments]. *)
Record Payment : Type := mkPayment {
  pay_id : string;
  pay_member_id : string;
  pay_month : Z;
  pay_year : Z;
  pay_amount : Z;
  pay_paid_at : option string;
  pay_status : option string;
  pay_receipt_url : option string;
  pay_quick_pay_group_id : option string;
  pay_payment_type : option string;
  pay_notes : option string;
  pay_created_at : string
}.

(** [interface Member]. *)
Record Member : Type := mkMember {
  mem_id : string;
  mem_full_name : string;
  mem_degree : option string;
  mem_phone : option string
}.

(** The payment-type tags the page writes and tests. *)
Definition ty_regular : string := "regular".
Definition ty_pronto_pago : string := "pronto_pago".
Definition ty_pronto_pago_benefit : string := "pronto_pago_benefit".
Definition ty_adelantado : string := "adelantado".

(** [ex?.payment_type === 'pronto_pago_benefit'] *)
Definition is_benefit (ex : option Payment) : bool :=
  match ex with
  | Some p => bool_decide (pay_payment_type p = Some ty_pronto_pago_benefit)
  | None => false
  end.

(** [ex?.amount || 0] *)
Definition amount_or_0 (ex : option Payment) : Z :=
  match ex with
  | Some p => pay_amount p
  | None => 0
  end.

(** ** Fiscal calendar *)

Section Calendar.

(** [getFiscalYearInfo()] supplies the two calendar years the fiscal
    window spans. *)
Variables currentCalendarYear nextCalendarYear : Z.

(** [getMonthYear(monthIndex)] returns [{ month, year }]. *)
Definition getMonthYear (monthIndex : nat) : Z * Z :=
  let year := if (monthIndex <? 6)%nat then currentCalendarYear
              else nextCalendarYear in
  let month := if (monthIndex <? 6)%nat then Z.of_nat monthIndex + 7
               else Z.of_nat monthIndex - 5 in
  (month, year).

(** The template string [`${memberId}-${month}-${year}`]. *)
Definition slotKey (memberId : string) (month year : Z) : string :=
  memberId +:+ "-" +:+ pretty month +:+ "-" +:+ pretty year.

(** [getPaymentKey(memberId, monthIndex)] *)
Definition getPaymentKey (memberId : string) (monthIndex : nat) : string :=
  let year := if (monthIndex <? 6)%nat then currentCalendarYear
              else nextCalendarYear in
  let month := if (monthIndex <? 6)%nat then Z.of_nat monthIndex + 7
               else Z.of_nat monthIndex - 5 in
  slotKey memberId month year.

(** The 12 (month, year) pairs of the fiscal window, written out from
    the specification: months 7 to 12 of the current year, then months
    1 to 6 of the next. *)
Definition fiscal_window : list (Z * Z) :=
  [ (7, currentCalendarYear); (8, currentCalendarYear);
    (9, currentCalendarYear); (10, currentCalendarYear);
    (11, currentCalendarYear); (12, currentCalendarYear);
    (1, nextCalendarYear); (2, nextCalendarYear);
    (3, nextCalendarYear); (4, nextCalendarYear);
    (5, nextCalendarYear); (6, nextCalendarYear) ].

End Calendar.

(** ** Calls made by a handler, and what the outer world answers *)

(** A browser [File]; only its identity matters here. *)
Definition File : Type := string.

(** The argument of [toast({ title, description, variant })]. *)
Record Toast : Type := mkToast {
  toast_title : string;
  toast_description : option string;
  toast_variant : option string
}.

(** The object handed to [.update(...)]. The edit path sends
    [payment_type]; the top-up path of a distribution does not
    ([uf_payment_type = None]). *)
Record UpdateFields : Type := mkUpdateFields {
  uf_amount : Z;
  uf_paid_at : option string;
  uf_receipt_url : option string;
  uf_payment_type : option string;
  uf_notes : option string
}.

(** A row handed to [.insert(...)]. A single payment sends no
    [quick_pay_group_id]. *)
Record NewRow : Type := mkNewRow {
  nr_member_id : string;
  nr_month : Z;
  nr_year : Z;
  nr_amount : Z;
  nr_paid_at : option string;
  nr_receipt_url : option string;
  nr_quick_pay_group_id : option string;
  nr_payment_type : string;
  nr_notes : option string
}.

(** The receipt data a handler leaves pending. Of the object the source
    builds, the member name and the money fields are kept; the texts
    made with [MONTH_NAMES] and [toFixed] ([concept], [details]) and the
    member's phone and degree only concern the receipt composer. *)
Record ReceiptData : Type := mkReceiptData {
  rc_memberName : string;
  rc_totalAmount : Z;
  rc_amountPaid : Z;
  rc_paymentDate : string;
  rc_remaining : Z
}.

Inductive Call : Type :=
| CUpload (file : File) (folder : string)
    (* supabase.storage.from('receipts').upload *)
| CUpdate (id : string) (fields : UpdateFields)
    (* from('monthly_payments').update(fields).eq('id', id) *)
| CInsert (rows : list NewRow)
    (* from('monthly_payments').insert(rows) *)
| CCache (p : Payment)
    (* upsertCachedMonthlyPayment *)
| CToast (t : Toast)
| CSetPayments (m : gmap string Payment)
| CSetPendingReceipt (which : string) (r : ReceiptData)
| CSetFlag (which : string) (b : bool)
| CCloseAdvance
    (* setShowAdvancePayment(null) *)
| CLoadData.

(** A call on the dues ledger store. *)
Definition is_ledger_call (c : Call) : bool :=
  match c with
  | CUpdate _ _ | CInsert _ => true
  | _ => false
  end.

Definition ledger_calls (log : list Call) : list Call :=
  filter (λ c, is_ledger_call c = true) log.

(** The toasts shown, in order. *)
Definition toasts (log : list Call) : list Toast :=
  omap (λ c, match c with CToast t => Some t | _ => None end) log.

(** Answers of the outer world. A store answer is [inl message] for
    [{ error }] and [inr data] otherwise. [crypto.randomUUID()],
    [getSystemDateString()] and the table [MONTH_NAMES] of
    [@/lib/dateUtils] are read from it as well. *)
Record World : Type := mkWorld {
  w_upload : File → string → option string;
  w_update : string → UpdateFields → (string + option Payment)%type;
  w_insert1 : NewRow → (string + option Payment)%type;
  w_insert : list NewRow → (string + option (list Payment))%type;
  w_randomUUID : string;
  w_today : string;
  MONTH_NAMES : list string
}.

(** A handler computation: the calls made so far, and either a thrown
    error (its [message]) or a value. *)
Definition Eff (A : Type) : Type := (list Call * (string + A))%type.

Definition ret {A} (a : A) : Eff A := ([], inr a).

Definition throw {A} (message : string) : Eff A := ([], inl message).

Definition call (c : Call) : Eff unit := ([c], inr tt).

Definition bind {A B} (m : Eff A) (k : A → Eff B) : Eff B :=
  match m with
  | (l, inl e) => (l, inl e)
  | (l, inr a) => let '(l', r) := k a in (l ++ l', r)
  end.

Notation "'let*' x ':=' m 'in' k" := (bind m (λ x, k))
  (at level 10, x name, m at level 100, k at level 200, only parsing).
Notation "m >>> k" := (bind m (λ _, k))
  (at level 100, k at level 200, right associativity, only parsing).

(** [try { body } catch (error) { handler } finally { fin }] *)
Definition try_catch_finally (body : Eff unit) (handler : string → Eff unit)
    (fin : Eff unit) : Eff unit :=
  match body with
  | (l, inl e) => let '(l', r) := handler e in
                  let '(l'', r') := fin in
                  (l ++ l' ++ l'', match r with inl e' => inl e' | inr _ => r' end)
  | (l, inr _) => let '(l'', r') := fin in (l ++ l'', r')
  end.

(** [for (const x of xs) { ... }] threading a value. *)
Fixpoint for_of {A S} (xs : list A) (body : A → S → Eff S) (s : S) : Eff S :=
  match xs with
  | [] => ret s
  | x :: xs' => let* s' := body x s in for_of xs' body s'
  end.

(** [s || null] on an optional string: the empty string is falsy. *)
Definition or_null (s : option string) : option string :=
  match s with
  | Some "" => None
  | _ => s
  end.

(** [error.message || fallback] *)
Definition message_or (message fallback : string) : string :=
  if decide (message = "") then fallback else message.

(** [uploadReceipt(file, folder)]: throws when the storage reports an
    error, returns the public URL otherwise. *)
Definition uploadReceipt (w : World) (file : File) (folder : string)
    : Eff (option string) :=
  call (CUpload file folder) >>>
  match w_upload w file folder with
  | None => throw "Error al subir comprobante"
  | Some url => ret (Some url)
  end.

(** ** The page: state and derived values *)

(** The [selectedPayment] state. *)
Record SelectedPayment : Type := mkSelectedPayment {
  sp_memberId : string;
  sp_memberName : string;
  sp_monthIndex : nat;
  sp_month : Z;
  sp_year : Z;
  sp_payment : option Payment
}.

(** The [showQuickPay] state. *)
Record QuickPayTarget : Type := mkQuickPayTarget {
  qp_memberId : string;
  qp_memberName : string;
  qp_defaultAmount : Z
}.

(** The [showAdvancePayment] state. *)
Record AdvanceTarget : Type := mkAdvanceTarget {
  ap_memberId : string;
  ap_memberName : string;
  ap_memberMonthlyAmount : Z
}.

(** The argument [data] of [handleAdvancePayment]. *)
Record AdvanceData : Type := mkAdvanceData {
  ad_totalAmount : Z;
  ad_selectedMonths : list (Z * Z);
  ad_paymentDate : string;
  ad_receiptFile : option File
}.

(** What the component reads when a handler or a memo runs: the React
    state, the settings and the fiscal years. The two amount fields hold
    the parsed text of their inputs. *)
Record Page : Type := mkPage {
  currentCalendarYear : Z;
  nextCalendarYear : Z;
  monthly_fee_base : Z;
  members : list Member;
  payments : gmap string Payment;
  selectedPayment : option SelectedPayment;
  amount : option Z;
  paymentDate : string;
  receiptFile : option File;
  secondReceiptFile : option File;
  notes : string;
  showQuickPay : option QuickPayTarget;
  quickPayAmount : option Z;
  quickPayDate : string;
  quickPayReceipt : option File;
  showAdvancePayment : option AdvanceTarget
}.

(** [parseFloat(text) || 0] *)
Definition parsed_or_0 (text : option Z) : Z :=
  match text with
  | Some v => v
  | None => 0
  end.

(** A JavaScript string used as a condition: only [""] is falsy. *)
Definition truthy (s : string) : bool := negb (bool_decide (s = "")).

(** [s || null] on a string. *)
Definition str_or_null (s : string) : option string :=
  if truthy s then Some s else None.

(** [handleCellClick(member, monthIndex)]: the state it sets. *)
Definition handleCellClick (w : World) (pg : Page) (member : Member)
    (monthIndex : nat) : Page :=
  let key := getPaymentKey (currentCalendarYear pg) (nextCalendarYear pg)
               (mem_id member) monthIndex in
  let payment := payments pg !! key in
  let '(month, year) := getMonthYear (currentCalendarYear pg)
                          (nextCalendarYear pg) monthIndex in
  {| currentCalendarYear := currentCalendarYear pg;
     nextCalendarYear := nextCalendarYear pg;
     monthly_fee_base := monthly_fee_base pg;
     members := members pg;
     payments := payments pg;
     selectedPayment :=
       Some {| sp_memberId := mem_id member;
               sp_memberName := mem_full_name member;
               sp_monthIndex := monthIndex;
               sp_month := month;
               sp_year := year;
               sp_payment := payment |};
     amount :=
       match payment with
       | Some p => Some (pay_amount p)
       | None => Some (monthly_fee_base pg)
       end;
     paymentDate :=
       match payment with
       | Some p => match or_null (pay_paid_at p) with
                   | Some d => d
                   | None => w_today w
                   end
       | None => w_today w
       end;
     receiptFile := None;
     secondReceiptFile := None;
     notes :=
       match payment with
       | Some p => match pay_notes p with Some n => n | None => "" end
       | None => ""
       end;
     showQuickPay := showQuickPay pg;
     quickPayAmount := quickPayAmount pg;
     quickPayDate := quickPayDate pg;
     quickPayReceipt := quickPayReceipt pg;
     showAdvancePayment := showAdvancePayment pg |}.

(** [for (let i = lo; i < hi && cond; i++) body], counted by the
    iterations left before [i] reaches [hi]. *)
Fixpoint for_upto {S : Type} (todo : nat) (i : nat) (cond : S → bool)
    (body : nat → S → S) (s : S) : S :=
  match todo with
  | O => s
  | Datatypes.S todo' =>
      if cond s then for_upto todo' (Datatypes.S i) cond body (body i s)
      else s
  end.

Definition for_range {S : Type} (lo hi : nat) (cond : S → bool)
    (body : nat → S → S) (s : S) : S :=
  for_upto (hi - lo)%nat lo cond body s.

(** The same loop with a body that may throw (reading a field of
    [undefined]). *)
Fixpoint for_uptoM {S : Type} (todo : nat) (i : nat) (cond : S → bool)
    (body : nat → S → option S) (s : S) : option S :=
  match todo with
  | O => Some s
  | Datatypes.S todo' =>
      if cond s then
        match body i s with
        | Some s' => for_uptoM todo' (Datatypes.S i) cond body s'
        | None => None
        end
      else Some s
  end.

Definition for_rangeM {S : Type} (lo hi : nat) (cond : S → bool)
    (body : nat → S → option S) (s : S) : option S :=
  for_uptoM (hi - lo)%nat lo cond body s.

(** *** [totalAdeudado] and [accumulatedTotal] *)

(** The inner loop of [totalAdeudado] for one member. *)
Definition adeudado_step (pg : Page) (memberId : string) (i : nat)
    (adeudado : Z) : Z :=
  let memberFee := monthly_fee_base pg in
  let key := getPaymentKey (currentCalendarYear pg) (nextCalendarYear pg)
               memberId i in
  match payments pg !! key with
  | None => adeudado + memberFee
  | Some payment =>
      if negb (bool_decide (pay_payment_type payment
                            = Some ty_pronto_pago_benefit))
         && (pay_amount payment <? memberFee)
      then adeudado + (memberFee - pay_amount payment)
      else adeudado
  end.

Definition adeudado_of (pg : Page) (memberId : string) : Z :=
  for_range 0 12 (λ _, true) (adeudado_step pg memberId) 0.

(** [filteredMembers] is [members] narrowed by the search box; the memo
    below takes it as given. *)
Definition totalAdeudado (pg : Page) (filteredMembers : list Member)
    : gmap string Z :=
  foldl (λ result member,
           <[mem_id member := adeudado_of pg (mem_id member)]> result)
        ∅ filteredMembers.

(** [accumulatedTotal] of one table row: the entries of the snapshot
    whose key starts with the member id and that are no benefit month,
    summed. *)
Definition accumulatedTotal (pg : Page) (member : Member) : Z :=
  foldl (λ sum kp, sum + pay_amount kp.2) 0
    (filter (λ kp : string * Payment,
               String.prefix (mem_id member) kp.1 = true
               ∧ pay_payment_type kp.2 ≠ Some ty_pronto_pago_benefit)
            (map_to_list (payments pg))).

(** *** [distributionInfo]: the preview of the payment dialog *)






(** *** The distribution of [handleSavePayment] *)

(** An element of [allFM]. *)
Record FiscalMonth : Type := mkFiscalMonth {
  fm_monthIndex : nat;
  fm_month : Z;
  fm_year : Z;
  fm_key : string
}.

(** An element of [updates]: the plan of one slot. *)
Record Update : Type := mkUpdate {
  u_key : string;
  u_month : Z;
  u_year : Z;
  u_newAmt : Z;
  u_existing : option Payment
}.

(** [allFM], filled by a loop over the indices 0 to 11. *)
Definition allFM (pg : Page) (memberId : string) : list FiscalMonth :=
  (λ i, let '(month, year) := getMonthYear (currentCalendarYear pg)
                                (nextCalendarYear pg) i in
        {| fm_monthIndex := i; fm_month := month; fm_year := year;
           fm_key := slotKey memberId month year |}) <$> seq 0 12.

(** Body of loop 1 ("fill oldest incomplete months first") and of loop 3
    ("overflow to future months"); the two differ in the name of one
    local ([deficit], [space]) only. [None]: [allFM[i]] is [undefined]
    and reading its [key] throws. *)
Definition fill_step (pg : Page) (memberId : string) (i : nat)
    (st : Z * list Update) : option (Z * list Update) :=
  let '(rem, updates) := st in
  let memberFee := monthly_fee_base pg in
  match allFM pg memberId !! i with
  | None => None
  | Some fm =>
      let ex := payments pg !! fm_key fm in
      if is_benefit ex
         || match ex with
            | Some p => memberFee <=? pay_amount p
            | None => false
            end
      then Some (rem, updates)
      else
        let deficit := memberFee - amount_or_0 ex in
        if deficit <=? 0 then Some (rem, updates)
        else
          let apply := Z.min rem deficit in
          Some (rem - apply,
                updates ++ [ {| u_key := fm_key fm; u_month := fm_month fm;
                                u_year := fm_year fm;
                                u_newAmt := amount_or_0 ex + apply;
                                u_existing := ex |} ])
  end.

(** Step 2, the selected month. *)
Definition selected_step (pg : Page) (sp : SelectedPayment)
    (st : Z * list Update) : option (Z * list Update) :=
  let '(rem, updates) := st in
  let memberFee := monthly_fee_base pg in
  if 0 <? rem then
    let apply := Z.min rem memberFee in
    match allFM pg (sp_memberId sp) !! sp_monthIndex sp with
    | None => None
    | Some fm =>
        Some (rem - apply,
              updates ++ [ {| u_key := fm_key fm; u_month := sp_month sp;
                              u_year := sp_year sp; u_newAmt := apply;
                              u_existing := None |} ])
    end
  else Some (rem, updates).

(** The list [updates] of the new-payment branch, with the money left
    over; [None] when the computation throws. The arithmetic is that of
    the cents, exact: what the loops compute when no operation rounds. *)
Definition distribute (pg : Page) (sp : SelectedPayment) (parsedAmount : Z)
    : option (Z * list Update) :=
  let memberId := sp_memberId sp in
  let selIdx := sp_monthIndex sp in
  match for_rangeM 0 selIdx (λ st, 0 <? st.1) (fill_step pg memberId)
          (parsedAmount, []) with
  | None => None
  | Some st1 =>
      match selected_step pg sp st1 with
      | None => None
      | Some st2 =>
          for_rangeM (selIdx + 1) 12 (λ st, 0 <? st.1)
            (fill_step pg memberId) st2
      end
  end.

(** *** The distribution on doubles

    JavaScript's numbers are IEEE-754 doubles, and the loops of lines
    302-332 subtract them and test the remainder with [rem > 0]: a
    remainder that is zero in decimals can be a residue of rounding on
    doubles, and then the loops go on. The same lines are embedded here
    on the doubles themselves (the kernel's binary64 numbers). *)

(** The double of a whole number; exact below 2^53. *)
Fixpoint double_of_positive (p : positive) : float :=
  match p with
  | xH => 1
  | xO p => 2 * double_of_positive p
  | xI p => 2 * double_of_positive p + 1
  end%float.

Definition double_of_Z (z : Z) : float :=
  match z with
  | Z0 => 0%float
  | Zpos p => double_of_positive p
  | Zneg p => (- double_of_positive p)%float
  end.

(** The number the page holds for a decimal with two places, as
    [parseFloat] and the JSON of the store yield it: the double nearest
    to [cents / 100], which is the correctly rounded quotient of the two
    whole numbers. *)
Definition double_of_cents (cents : Z) : float :=
  (double_of_Z cents / 100)%float.

(** [Math.min(a, b)]: NaN if either is NaN, and -0 below +0. *)
Definition Math_min (a b : float) : float :=
  if is_nan a || is_nan b then nan
  else if (b <? a)%float then b
  else if (a <? b)%float then a
  else if get_sign a then a else b.

(** [x || 0] on a number: 0, -0 and NaN are falsy. *)
Definition number_or_0 (x : float) : float :=
  if is_zero x || is_nan x then 0%float else x.

(** [ex?.amount || 0] *)
Definition amount_or_0_double (ex : option Payment) : float :=
  match ex with
  | Some p => number_or_0 (double_of_cents (pay_amount p))
  | None => 0%float
  end.

(** An element of [updates], its [newAmt] a double. *)
Record Update_double : Type := mkUpdate_double {
  ud_key : string;
  ud_month : Z;
  ud_year : Z;
  ud_newAmt : float;
  ud_existing : option Payment
}.

(** Body of loop 1 and of loop 3. *)
Definition fill_step_double (pg : Page) (memberId : string) (i : nat)
    (st : float * list Update_double) : option (float * list Update_double) :=
  let '(rem, updates) := st in
  let memberFee := double_of_cents (monthly_fee_base pg) in
  match allFM pg memberId !! i with
  | None => None
  | Some fm =>
      let ex := payments pg !! fm_key fm in
      if is_benefit ex
         || match ex with
            | Some p => (memberFee <=? double_of_cents (pay_amount p))%float
            | None => false
            end
      then Some (rem, updates)
      else
        let deficit := (memberFee - amount_or_0_double ex)%float in
        if (deficit <=? 0)%float then Some (rem, updates)
        else
          let apply := Math_min rem deficit in
          Some ((rem - apply)%float,
                updates ++ [ {| ud_key := fm_key fm; ud_month := fm_month fm;
                                ud_year := fm_year fm;
                                ud_newAmt :=
                                  (amount_or_0_double ex + apply)%float;
                                ud_existing := ex |} ])
  end.

(** Step 2, the selected month. *)
Definition selected_step_double (pg : Page) (sp : SelectedPayment)
    (st : float * list Update_double) : option (float * list Update_double) :=
  let '(rem, updates) := st in
  let memberFee := double_of_cents (monthly_fee_base pg) in
  if (0 <? rem)%float then
    let apply := Math_min rem memberFee in
    match allFM pg (sp_memberId sp) !! sp_monthIndex sp with
    | None => None
    | Some fm =>
        Some ((rem - apply)%float,
              updates ++ [ {| ud_key := fm_key fm; ud_month := sp_month sp;
                              ud_year := sp_year sp; ud_newAmt := apply;
                              ud_existing := None |} ])
    end
  else Some (rem, updates).

(** The list [updates] of the new-payment branch as the page computes
    it, for the double [parsedAmount], with the money left over; [None]
    when the computation throws. *)
Definition distribute_double (pg : Page) (sp : SelectedPayment)
    (parsedAmount : float) : option (float * list Update_double) :=
  let memberId := sp_memberId sp in
  let selIdx := sp_monthIndex sp in
  match for_rangeM 0 selIdx (λ st, (0 <? st.1)%float)
          (fill_step_double pg memberId) (parsedAmount, []) with
  | None => None
  | Some st1 =>
      match selected_step_double pg sp st1 with
      | None => None
      | Some st2 =>
          for_rangeM (selIdx + 1) 12 (λ st, (0 <? st.1)%float)
            (fill_step_double pg memberId) st2
      end
  end.

(** ** The handlers *)

Definition destructive : option string := Some "destructive".

(** [`${MONTH_NAMES[month - 1]}`] *)
Definition month_name (w : World) (month : Z) : string :=
  if month - 1 <? 0 then "undefined"
  else match MONTH_NAMES w !! Z.to_nat (month - 1) with
       | Some name => name
       | None => "undefined"
       end.

(** The object stored under [newPayments[key]] by the edit branch:
    [{ ...selectedPayment.payment, ...paymentData, member_id, month, year }]. *)
Definition edited_payment (sp : SelectedPayment) (old : Payment)
    (paymentData : UpdateFields) : Payment :=
  {| pay_id := pay_id old;
     pay_member_id := sp_memberId sp;
     pay_month := sp_month sp;
     pay_year := sp_year sp;
     pay_amount := uf_amount paymentData;
     pay_paid_at := uf_paid_at paymentData;
     pay_status := pay_status old;
     pay_receipt_url := uf_receipt_url paymentData;
     pay_quick_pay_group_id := pay_quick_pay_group_id old;
     pay_payment_type := uf_payment_type paymentData;
     pay_notes := uf_notes paymentData;
     pay_created_at := pay_created_at old |}.

(** The edit branch of [handleSavePayment] ("EDITING existing payment -
    simple update, no distribution"). *)
Definition save_edit (w : World) (pg : Page) (sp : SelectedPayment)
    (old : Payment) (receiptUrl : option string) : Eff unit :=
  let parsedAmount := parsed_or_0 (amount pg) in
  let memberFee := monthly_fee_base pg in
  let memberId := sp_memberId sp in
  let date := str_or_null (paymentDate pg) in
  let paymentData :=
    {| uf_amount := parsedAmount; uf_paid_at := date;
       uf_receipt_url := receiptUrl; uf_payment_type := Some ty_regular;
       uf_notes := str_or_null (notes pg) |} in
  let key := slotKey memberId (sp_month sp) (sp_year sp) in
  let newPayments :=
    <[key := edited_payment sp old paymentData]> (payments pg) in
  call (CSetPayments newPayments) >>>
  call (CUpdate (pay_id old) paymentData) >>>
  match w_update w (pay_id old) paymentData with
  | inl error => throw error
  | inr _ =>
      let remaining :=
        if parsedAmount <? memberFee then memberFee - parsedAmount else 0 in
      call (CSetPendingReceipt "single"
              {| rc_memberName := sp_memberName sp;
                 rc_totalAmount := memberFee;
                 rc_amountPaid := parsedAmount;
                 rc_paymentDate := match date with
                                   | Some d => d
                                   | None => w_today w
                                   end;
                 rc_remaining := remaining |}) >>>
      call (CToast {| toast_title := "Pago actualizado correctamente";
                      toast_description := None;
                      toast_variant := None |})
  end.

(** Body of [for (const u of updates)]: one ledger call per planned
    slot, threading [newPayments]. *)
Definition apply_update (w : World) (pg : Page) (sp : SelectedPayment)
    (receiptUrl secondUrl : option string) (u : Update)
    (newPayments : gmap string Payment) : Eff (gmap string Payment) :=
  let memberId := sp_memberId sp in
  let date := str_or_null (paymentDate pg) in
  let isSel := bool_decide (u_month u = sp_month sp)
               && bool_decide (u_year u = sp_year sp) in
  let pd :=
    {| nr_member_id := memberId; nr_month := u_month u; nr_year := u_year u;
       nr_amount := u_newAmt u; nr_paid_at := date;
       nr_receipt_url :=
         if isSel then receiptUrl
         else match or_null secondUrl with
              | Some s => Some s
              | None => receiptUrl
              end;
       nr_quick_pay_group_id := None;
       nr_payment_type := ty_regular;
       nr_notes := if isSel then str_or_null (notes pg) else None |} in
  match u_existing u with
  | Some existing =>
      let fields :=
        {| uf_amount := u_newAmt u; uf_paid_at := date;
           uf_receipt_url := nr_receipt_url pd; uf_payment_type := None;
           uf_notes := nr_notes pd |} in
      call (CUpdate (pay_id existing) fields) >>>
      match w_update w (pay_id existing) fields with
      | inl error => throw error
      | inr (Some upd) =>
          call (CCache upd) >>> ret (<[u_key u := upd]> newPayments)
      | inr None => ret newPayments
      end
  | None =>
      call (CInsert [pd]) >>>
      match w_insert1 w pd with
      | inl error => throw error
      | inr (Some data) =>
          call (CCache data) >>> ret (<[u_key u := data]> newPayments)
      | inr None => ret newPayments
      end
  end.

(** The new-payment branch of [handleSavePayment] ("NEW payment - apply
    distribution logic"). *)
Definition save_new (w : World) (pg : Page) (sp : SelectedPayment)
    (receiptUrl : option string) : Eff unit :=
  let parsedAmount := parsed_or_0 (amount pg) in
  let date := str_or_null (paymentDate pg) in
  match distribute pg sp parsedAmount with
  | None => throw "Cannot read properties of undefined (reading 'key')"
  | Some (_, updates) =>
      let* secondUrl :=
        match secondReceiptFile pg with
        | Some file =>
            if (1 <? length updates)%nat then uploadReceipt w file "monthly"
            else ret None
        | None => ret None
        end in
      let* newPayments :=
        for_of updates (apply_update w pg sp receiptUrl secondUrl)
          (payments pg) in
      call (CSetPayments newPayments) >>>
      call (CSetPendingReceipt "single"
              {| rc_memberName := sp_memberName sp;
                 rc_totalAmount := parsedAmount;
                 rc_amountPaid := parsedAmount;
                 rc_paymentDate := match date with
                                   | Some d => d
                                   | None => w_today w
                                   end;
                 rc_remaining := 0 |}) >>>
      call (CToast
              (if (1 <? length updates)%nat then
                 {| toast_title := "Pago distribuido correctamente";
                    toast_description :=
                      Some ("Se distribuyó en " +:+ pretty (length updates)
                            +:+ " meses");
                    toast_variant := None |}
               else
                 {| toast_title := "Pago guardado correctamente";
                    toast_description := None;
                    toast_variant := None |}))
  end.

(** [handleSavePayment] *)
Definition handleSavePayment (w : World) (pg : Page) : Eff unit :=
  match selectedPayment pg with
  | None => ret tt
  | Some sp =>
      call (CSetFlag "uploading" true) >>>
      try_catch_finally
        (let* receiptUrl :=
           match receiptFile pg with
           | Some file => uploadReceipt w file "monthly"
           | None =>
               ret (match sp_payment sp with
                    | Some p => or_null (pay_receipt_url p)
                    | None => None
                    end)
           end in
         match sp_payment sp with
         | Some old => save_edit w pg sp old receiptUrl
         | None => save_new w pg sp receiptUrl
         end)
        (λ error,
           call CLoadData >>>
           call (CToast {| toast_title := "Error";
                           toast_description :=
                             Some (message_or error
                                     "No se pudo guardar el pago");
                           toast_variant := destructive |}))
        (call (CSetFlag "uploading" false))
  end.

(** An element of [currentYearPending]. *)
Record PendingMonth : Type := mkPendingMonth {
  pm_month : Z;
  pm_year : Z;
  pm_monthIndex : nat
}.

(** The loop of [handleQuickPay] that collects the months of the fiscal
    year without an entry. *)
Definition pending_step (pg : Page) (memberId : string) (monthIndex : nat)
    (currentYearPending : list PendingMonth) : list PendingMonth :=
  let '(month, year) := getMonthYear (currentCalendarYear pg)
                          (nextCalendarYear pg) monthIndex in
  let key := slotKey memberId month year in
  match payments pg !! key with
  | None => currentYearPending
              ++ [ {| pm_month := month; pm_year := year;
                      pm_monthIndex := monthIndex |} ]
  | Some _ => currentYearPending
  end.

Definition currentYearPending (pg : Page) (memberId : string)
    : list PendingMonth :=
  for_range 0 12 (λ _, true) (pending_step pg memberId) [].

(** [currentYearPending.slice(0, Math.min(currentYearPending.length, 11))] *)
Definition monthsToPay (pending : list PendingMonth) : list PendingMonth :=
  take (Nat.min (length pending) 11) pending.

(** [currentYearPending.length >= 12 ? currentYearPending[11] : null] *)
Definition freeMonth (pending : list PendingMonth) : option PendingMonth :=
  if (12 <=? length pending)%nat then pending !! 11%nat else None.

Definition quick_pay_note : string := "Pago registrado mediante Pronto Pago.".

(** [paymentsToInsert] of [handleQuickPay]. *)
Definition quick_pay_rows (memberId : string) (parsedAmount : Z)
    (quickPayDate : string) (receiptUrl : option string)
    (quickPayGroupId : string) (pending : list PendingMonth) : list NewRow :=
  ((λ mp, {| nr_member_id := memberId;
             nr_month := pm_month mp; nr_year := pm_year mp;
             nr_amount := parsedAmount;
             nr_paid_at := Some quickPayDate;
             nr_receipt_url := receiptUrl;
             nr_quick_pay_group_id := Some quickPayGroupId;
             nr_payment_type := ty_pronto_pago;
             nr_notes := Some quick_pay_note |}) <$> monthsToPay pending)
  ++ match freeMonth pending with
     | Some fm => [ {| nr_member_id := memberId;
                       nr_month := pm_month fm; nr_year := pm_year fm;
                       nr_amount := 0;
                       nr_paid_at := Some quickPayDate;
                       nr_receipt_url := receiptUrl;
                       nr_quick_pay_group_id := Some quickPayGroupId;
                       nr_payment_type := ty_pronto_pago_benefit;
                       nr_notes := Some quick_pay_note |} ]
     | None => []
     end.

(** The [try] block of [handleQuickPay]. *)
Definition quick_pay_body (w : World) (pg : Page) (qp : QuickPayTarget)
    (parsedAmount : Z) : Eff unit :=
  let* receiptUrl :=
    match quickPayReceipt pg with
    | Some file => uploadReceipt w file "quick-pay"
    | None => ret None
    end in
  let quickPayGroupId := w_randomUUID w in
  let pending := currentYearPending pg (qp_memberId qp) in
  if (length pending =? 0)%nat then
    call (CToast {| toast_title := "Atencion";
                    toast_description :=
                      Some "Este miembro ya tiene todos los pagos del ano logial actual registrados";
                    toast_variant := destructive |}) >>>
    call (CSetFlag "processingQuickPay" false)
  else
    let paymentsToInsert :=
      quick_pay_rows (qp_memberId qp) parsedAmount (quickPayDate pg)
        receiptUrl quickPayGroupId pending in
    call (CInsert paymentsToInsert) >>>
    match w_insert w paymentsToInsert with
    | inl error => throw error
    | inr insertedPayments =>
        for_of (match insertedPayments with Some l => l | None => [] end)
          (λ p _, call (CCache p)) tt >>>
        let n := length (monthsToPay pending) in
        let totalPaid := parsedAmount * Z.of_nat n in
        call (CSetPendingReceipt "quickPay"
                {| rc_memberName := qp_memberName qp;
                   rc_totalAmount := totalPaid;
                   rc_amountPaid := totalPaid;
                   rc_paymentDate := quickPayDate pg;
                   rc_remaining := 0 |}) >>>
        call (CToast
                {| toast_title := "Pronto Pago Registrado";
                   toast_description :=
                     Some (match freeMonth pending with
                           | Some fm =>
                               "Se pagaron " +:+ pretty n +:+ " meses + "
                               +:+ month_name w (pm_month fm) +:+ " "
                               +:+ pretty (pm_year fm) +:+ " gratuito para "
                               +:+ qp_memberName qp
                           | None =>
                               "Se pagaron " +:+ pretty n +:+ " meses para "
                               +:+ qp_memberName qp
                           end);
                   toast_variant := None |}) >>>
        call CLoadData
    end.

(** [handleQuickPay] *)
Definition handleQuickPay (w : World) (pg : Page) : Eff unit :=
  match showQuickPay pg with
  | None => ret tt
  | Some qp =>
      match quickPayAmount pg with
      | None =>
          call (CToast {| toast_title := "Error";
                          toast_description :=
                            Some "El monto debe ser mayor a 0";
                          toast_variant := destructive |})
      | Some parsedAmount =>
          if bool_decide (parsedAmount = 0) || (parsedAmount <=? 0) then
            call (CToast {| toast_title := "Error";
                            toast_description :=
                              Some "El monto debe ser mayor a 0";
                            toast_variant := destructive |})
          else if negb (truthy (quickPayDate pg)) then
            call (CToast {| toast_title := "Error";
                            toast_description :=
                              Some "Debe seleccionar una fecha de pago";
                            toast_variant := destructive |})
          else
            call (CSetFlag "processingQuickPay" true) >>>
            try_catch_finally
              (quick_pay_body w pg qp parsedAmount)
              (λ error,
                 call (CToast {| toast_title := "Error";
                                 toast_description :=
                                   Some (message_or error
                                     "No se pudo procesar el pronto pago");
                                 toast_variant := destructive |}))
              (call (CSetFlag "processingQuickPay" false))
      end
  end.

(** [paymentsToInsert] of [handleAdvancePayment]. *)
Definition advance_rows (ap : AdvanceTarget) (data : AdvanceData)
    (receiptUrl : option string) (advancePayGroupId : string) : list NewRow :=
  let monthlyAmount := ap_memberMonthlyAmount ap in
  let noteText := "Pago registrado mediante Pago por Adelantado ("
                  +:+ pretty (length (ad_selectedMonths data))
                  +:+ " meses)." in
  (λ my : Z * Z,
     {| nr_member_id := ap_memberId ap;
        nr_month := my.1; nr_year := my.2;
        nr_amount := monthlyAmount;
        nr_paid_at := Some (ad_paymentDate data);
        nr_receipt_url := receiptUrl;
        nr_quick_pay_group_id := Some advancePayGroupId;
        nr_payment_type := ty_adelantado;
        nr_notes := Some noteText |}) <$> ad_selectedMonths data.

(** [handleAdvancePayment(data)] *)
Definition handleAdvancePayment (w : World) (pg : Page) (data : AdvanceData)
    : Eff unit :=
  match showAdvancePayment pg with
  | None => ret tt
  | Some ap =>
      call (CSetFlag "processingAdvancePayment" true) >>>
      try_catch_finally
        (let* receiptUrl :=
           match ad_receiptFile data with
           | Some file => uploadReceipt w file "advance-pay"
           | None => ret None
           end in
         let advancePayGroupId := w_randomUUID w in
         let paymentsToInsert :=
           advance_rows ap data receiptUrl advancePayGroupId in
         call (CInsert paymentsToInsert) >>>
         match w_insert w paymentsToInsert with
         | inl error => throw error
         | inr insertedPayments =>
             for_of (match insertedPayments with Some l => l | None => [] end)
               (λ p _, call (CCache p)) tt >>>
             call (CSetPendingReceipt "advance"
                     {| rc_memberName := ap_memberName ap;
                        rc_totalAmount := ad_totalAmount data;
                        rc_amountPaid := ad_totalAmount data;
                        rc_paymentDate := ad_paymentDate data;
                        rc_remaining := 0 |}) >>>
             call (CToast
                     {| toast_title := "Pago por Adelantado Registrado";
                        toast_description :=
                          Some ("Se registraron "
                                +:+ pretty (length paymentsToInsert)
                                +:+ " pagos para " +:+ ap_memberName ap);
                        toast_variant := None |}) >>>
             call CCloseAdvance >>>
             call CLoadData
         end)
        (λ error,
           call (CToast {| toast_title := "Error";
                           toast_description :=
                             Some (message_or error
                               "No se pudo procesar el pago por adelantado");
                           toast_variant := destructive |}))
        (call (CSetFlag "processingAdvancePayment" false))
  end.

(** [openAdvancePayment(member)]: the state it sets. *)
Definition openAdvancePayment (pg : Page) (member : Member) : AdvanceTarget :=
  {| ap_memberId := mem_id member;
     ap_memberName := mem_full_name member;
     ap_memberMonthlyAmount := monthly_fee_base pg |}.

(** Modelled from the spec: the component [AdvancePaymentDialog]
    ([@/components/treasury/AdvancePaymentDialog]) is not among the
    sources; it builds the argument of [handleAdvancePayment]. Section
    4.5: the caller supplies the set of (month, year) pairs, the payment
    date and an optional receipt, and "Total charged = monthlyFee x
    count(selectedMonths)". *)
Definition AdvancePaymentDialog_submit (memberMonthlyAmount : Z)
    (selectedMonths : list (Z * Z)) (paymentDate : string)
    (receiptFile : option File) : AdvanceData :=
  {| ad_totalAmount := memberMonthlyAmount * Z.of_nat (length selectedMonths);
     ad_selectedMonths := selectedMonths;
     ad_paymentDate := paymentDate;
     ad_receiptFile := receiptFile |}.

(** ** The allocation as the specification words it *)

(** The functions of this part follow sections 4.2 to 4.4 of the
    specification, not the source; the theorems below compare the two. *)

Section Specification.

Variable pg : Page.
Variable memberId : string.

Let monthlyFee : Z := monthly_fee_base pg.

(** [lookup(memberId, month, year)] at the slot of a fiscal index. *)
Definition slot_entry (i : nat) : option Payment :=
  payments pg !! getPaymentKey (currentCalendarYear pg) (nextCalendarYear pg)
                   memberId i.

(** "existingAmount (0 if absent)" *)
Definition existingAmount (e : option Payment) : Z :=
  match e with
  | Some p => pay_amount p
  | None => 0
  end.

(** "skip if it is a quick_pay_benefit entry or already has
    amount >= monthlyFee (fully paid)", the amount of a slot being its
    [existingAmount]. *)
Definition fully_paid (e : option Payment) : bool :=
  is_benefit e || (monthlyFee <=? existingAmount e).

(** A slot mutation of the plan: "the slot's (month, year), its
    resulting amount", and the pre-existing entry if any. *)
Definition slot_mutation (i : nat) (applied : Z) : Update :=
  let my := getMonthYear (currentCalendarYear pg) (nextCalendarYear pg) i in
  {| u_key := getPaymentKey (currentCalendarYear pg) (nextCalendarYear pg)
                memberId i;
     u_month := my.1;
     u_year := my.2;
     u_newAmt := existingAmount (slot_entry i) + applied;
     u_existing := slot_entry i |}.

(** One scanning pass (steps 2 and 4) over the fiscal months [months],
    in the order given: returns what remains and the mutations. *)
Fixpoint scan_pass (months : list nat) (remaining : Z) : Z * list Update :=
  match months with
  | [] => (remaining, [])
  | i :: later =>
      if remaining =? 0 then (remaining, [])
      else if fully_paid (slot_entry i) then scan_pass later remaining
      else
        let deficit := monthlyFee - existingAmount (slot_entry i) in
        let applied := Z.min remaining deficit in
        let '(rest, plan) := scan_pass later (remaining - applied) in
        (rest, slot_mutation i applied :: plan)
  end.

(** Steps 1 to 4 for the target month of fiscal index [target]. *)
Definition allocation_plan (target : nat) (lumpSum : Z) : Z * list Update :=
  let '(r1, backfill) := scan_pass (seq 0 target) lumpSum in
  let '(r2, at_target) :=
    if 0 <? r1 then
      let applied := Z.min r1 monthlyFee in
      (r1 - applied, [slot_mutation target applied])
    else (r1, []) in
  let '(r3, overflow) :=
    if 0 <? r2 then scan_pass (seq (target + 1) (12 - (target + 1))) r2
    else (r2, []) in
  (r3, backfill ++ at_target ++ overflow).

(** The deficit of a slot: a benefit month and a month with
    amount >= monthlyFee owe nothing. *)
Definition slot_deficit (i : nat) : Z :=
  if fully_paid (slot_entry i) then 0
  else monthlyFee - existingAmount (slot_entry i).

Definition totalDeficitAcross12Months : Z :=
  foldr Z.add 0 (slot_deficit <$> seq 0 12).

(** [outstandingBalance]: "sum over the 12 fiscal-year slots of
    max(0, monthlyFee - existingAmount), treating an absent slot as zero
    paid and a quick_pay_benefit slot as fully satisfied". *)
Definition slot_outstanding (i : nat) : Z :=
  if is_benefit (slot_entry i) then 0
  else Z.max 0 (monthlyFee - existingAmount (slot_entry i)).

Definition outstandingBalance : Z :=
  foldr Z.add 0 (slot_outstanding <$> seq 0 12).

(** The fiscal indices whose slot is absent, in fiscal-month order. *)
Definition empty_slots : list nat :=
  filter (λ i, slot_entry i = None) (seq 0 12).

End Specification.

(** The money a planned slot receives: its resulting amount less what
    it held. *)
Definition delta (u : Update) : Z := u_newAmt u - amount_or_0 (u_existing u).

Definition sum_deltas (plan : list Update) : Z := foldr Z.add 0 (delta <$> plan).


(** The row quick-pay writes for the slot of a fiscal index. *)
Definition quick_pay_entry (pg : Page) (memberId : string) (amount : Z)
    (type : string) (date : string) (receipt : option string)
    (group : string) (i : nat) : NewRow :=
  let my := getMonthYear (currentCalendarYear pg) (nextCalendarYear pg) i in
  {| nr_member_id := memberId; nr_month := my.1; nr_year := my.2;
     nr_amount := amount; nr_paid_at := Some date;
     nr_receipt_url := receipt; nr_quick_pay_group_id := Some group;
     nr_payment_type := type; nr_notes := Some quick_pay_note |}.

(** The receipt reference of a bulk payment: the URL of the uploaded
    file, if one was attached. *)
Definition bulk_receipt (w : World) (file : option File) (folder : string)
    : option string :=
  match file with
  | Some f => w_upload w f folder
  | None => None
  end.

(** The storage accepts the attached file, if there is one. *)
Definition upload_accepted (w : World) (file : option File) (folder : string)
    : Prop :=
  ∀ f, file = Some f → is_Some (w_upload w f folder).

(** The page with another ledger snapshot. *)
Definition with_payments (pg : Page) (m : gmap string Payment) : Page :=
  {| currentCalendarYear := currentCalendarYear pg;
     nextCalendarYear := nextCalendarYear pg;
     monthly_fee_base := monthly_fee_base pg;
     members := members pg;
     payments := m;
     selectedPayment := selectedPayment pg;
     amount := amount pg;
     paymentDate := paymentDate pg;
     receiptFile := receiptFile pg;
     secondReceiptFile := secondReceiptFile pg;
     notes := notes pg;
     showQuickPay := showQuickPay pg;
     quickPayAmount := quickPayAmount pg;
     quickPayDate := quickPayDate pg;
     quickPayReceipt := quickPayReceipt pg;
     showAdvancePayment := showAdvancePayment pg |}.

(** The selection is the one a click on the cell of [sp_monthIndex]
    leaves: a fiscal index, with the month and year of that index and
    the entry the snapshot holds there. *)
Definition well_selected (pg : Page) (sp : SelectedPayment) : Prop :=
  (sp_monthIndex sp < 12)%nat
  ∧ (sp_month sp, sp_year sp)
    = getMonthYear (currentCalendarYear pg) (nextCalendarYear pg)
        (sp_monthIndex sp)
  ∧ sp_payment sp = slot_entry pg (sp_memberId sp) (sp_monthIndex sp).




(** The storage call of a handler for an optional attached file. *)
Definition upload_calls (file : option File) (folder : string) : list Call :=
  match file with
  | Some f => [CUpload f folder]
  | None => []
  end.

(** The messages of [handleQuickPay] by what they report. *)
Definition toast_amount_required : Toast :=
  {| toast_title := "Error";
     toast_description := Some "El monto debe ser mayor a 0";
     toast_variant := destructive |}.

Definition toast_date_required : Toast :=
  {| toast_title := "Error";
     toast_description := Some "Debe seleccionar una fecha de pago";
     toast_variant := destructive |}.

Definition toast_nothing_pending : Toast :=
  {| toast_title := "Atencion";
     toast_description :=
       Some "Este miembro ya tiene todos los pagos del ano logial actual registrados";
     toast_variant := destructive |}.

Definition toast_upload_failed (fallback : string) : Toast :=
  {| toast_title := "Error";
     toast_description :=
       Some (message_or "Error al subir comprobante" fallback);
     toast_variant := destructive |}.

(** The snapshots handed to [setPayments], and the receipts left
    pending, in order. *)
Definition snapshots (log : list Call) : list (gmap string Payment) :=
  omap (λ c, match c with CSetPayments m => Some m | _ => None end) log.

Definition pending_receipts (log : list Call) : list ReceiptData :=
  omap (λ c, match c with CSetPendingReceipt _ r => Some r | _ => None end)
       log.

(** The receipt reference an edit ends with: the URL of the file
    attached to the dialog, else the one the entry has. *)
Definition edit_receipt (w : World) (pg : Page) (old : Payment)
    : option string :=
  match receiptFile pg with
  | Some f => w_upload w f "monthly"
  | None => or_null (pay_receipt_url old)
  end.

(** The fields an edit may change, read off the dialog. *)
Definition edit_fields (w : World) (pg : Page) (old : Payment) : UpdateFields :=
  {| uf_amount := parsed_or_0 (amount pg);
     uf_paid_at := str_or_null (paymentDate pg);
     uf_receipt_url := edit_receipt w pg old;
     uf_payment_type := Some ty_regular;
     uf_notes := str_or_null (notes pg) |}.

(** Two entries that differ at most in amount, payment date, note and
    receipt reference. *)
Definition same_but_four_fields (old new : Payment) : Prop :=
  pay_id new = pay_id old
  ∧ pay_member_id new = pay_member_id old
  ∧ pay_month new = pay_month old
  ∧ pay_year new = pay_year old
  ∧ pay_status new = pay_status old
  ∧ pay_quick_pay_group_id new = pay_quick_pay_group_id old
  ∧ pay_payment_type new = pay_payment_type old
  ∧ pay_created_at new = pay_created_at old.

(** The editing policy as section 4.3 states it: saving on a slot that
    has an entry changes nothing but amount, date, note and receipt
    reference of that entry, in the snapshot the page keeps and in the
    call on the store. *)
Definition edit_is_four_field_update (w : World) (pg : Page) : Prop :=
  ∀ sp old,
    selectedPayment pg = Some sp →
    sp_payment sp = Some old →
    (∀ m, m ∈ snapshots (handleSavePayment w pg).1 →
       (∀ k, k ≠ slotKey (sp_memberId sp) (sp_month sp) (sp_year sp) →
             m !! k = payments pg !! k)
       ∧ ∃ new, m !! slotKey (sp_memberId sp) (sp_month sp) (sp_year sp)
                = Some new
                ∧ same_but_four_fields old new)
    ∧ (∀ c, c ∈ ledger_calls (handleSavePayment w pg).1 →
         ∃ fields, c = CUpdate (pay_id old) fields
                   ∧ uf_payment_type fields = None).



(** ** The rest of the page *)

(** The key [loadData] files a row under:
    [`${payment.member_id}-${payment.month}-${payment.year}`]. *)
Definition row_key (payment : Payment) : string :=
  slotKey (pay_member_id payment) (pay_month payment) (pay_year payment).

(** [paymentsMap] of [loadData]: the rows of [monthly_payments] in the
    order received, each assigned under its key. *)
Definition paymentsMap (data : list Payment) : gmap string Payment :=
  foldl (λ m payment, <[row_key payment := payment]> m) ∅ data.

(** [loadData] as a change of the page, given the [data] of the two
    query results ([None]: the query gave no data and its state is
    left alone). *)
Definition loadData (pg : Page) (membersData : option (list Member))
    (paymentsData : option (list Payment)) : Page :=
  {| currentCalendarYear := currentCalendarYear pg;
     nextCalendarYear := nextCalendarYear pg;
     monthly_fee_base := monthly_fee_base pg;
     members := match membersData with
                | Some data => data
                | None => members pg
                end;
     payments := match paymentsData with
                 | Some data => paymentsMap data
                 | None => payments pg
                 end;
     selectedPayment := selectedPayment pg;
     amount := amount pg;
     paymentDate := paymentDate pg;
     receiptFile := receiptFile pg;
     secondReceiptFile := secondReceiptFile pg;
     notes := notes pg;
     showQuickPay := showQuickPay pg;
     quickPayAmount := quickPayAmount pg;
     quickPayDate := quickPayDate pg;
     quickPayReceipt := quickPayReceipt pg;
     showAdvancePayment := showAdvancePayment pg |}.

(** What a cell of the table derives from the snapshot before it is
    drawn. *)
Record CellView : Type := mkCellView {
  isPaid : bool;
  isPPBenefit : bool;
  isPartial : bool;
  pendingAmount : Z
}.

(** The locals of the cell of [member.id] and [monthIndex]. *)
Definition cell_view (pg : Page) (memberId : string) (monthIndex : nat)
    : CellView :=
  let memberFee := monthly_fee_base pg in
  let key := getPaymentKey (currentCalendarYear pg) (nextCalendarYear pg)
               memberId monthIndex in
  let payment := payments pg !! key in
  let isPaid := match payment with Some _ => true | None => false end in
  let isPPBenefit := is_benefit payment in
  let isPartial :=
    isPaid && negb isPPBenefit
    && match payment with
       | Some p => pay_amount p <? memberFee
       | None => false
       end in
  let pendingAmount :=
    if isPartial then memberFee - amount_or_0 payment else 0 in
  {| isPaid := isPaid; isPPBenefit := isPPBenefit; isPartial := isPartial;
     pendingAmount := pendingAmount |}.

(** [`${month}-${year}`], an element of the set of
    [getExistingPaymentsForMember]. *)
Definition month_year_label (month year : Z) : string :=
  pretty month +:+ "-" +:+ pretty year.

Definition existing_step (pg : Page) (memberId : string) (i : nat)
    (existing : gset string) : gset string :=
  let year := if (i <? 6)%nat then currentCalendarYear pg
              else nextCalendarYear pg in
  let month := if (i <? 6)%nat then Z.of_nat i + 7 else Z.of_nat i - 5 in
  let key := slotKey memberId month year in
  match payments pg !! key with
  | Some _ => existing ∪ {[ month_year_label month year ]}
  | None => existing
  end.

(** [getExistingPaymentsForMember(memberId)] *)
Definition getExistingPaymentsForMember (pg : Page) (memberId : string)
    : gset string :=
  for_range 0 12 (λ _, true) (existing_step pg memberId) ∅.

(** Loop 1 of the distribution on doubles alone: what the months before
    the clicked one leave of the payment, and their slots. *)
Definition backfill_double (pg : Page) (sp : SelectedPayment)
    (parsedAmount : float) : option (float * list Update_double) :=
  for_rangeM 0 (sp_monthIndex sp) (λ st, (0 <? st.1)%float)
    (fill_step_double pg (sp_memberId sp)) (parsedAmount, []).

(** A slot planned by loop 1 or 3 for the fiscal index [i]: it has the
    key, month and year of [i] and carries the entry the ledger holds
    there, which is no benefit month and holds less than the fee. *)
Definition planned_slot_double (pg : Page) (memberId : string) (i : nat)
    (u : Update_double) : Prop :=
  ud_key u = getPaymentKey (currentCalendarYear pg) (nextCalendarYear pg)
               memberId i
  ∧ (ud_month u, ud_year u)
    = getMonthYear (currentCalendarYear pg) (nextCalendarYear pg) i
  ∧ ud_existing u = slot_entry pg memberId i
  ∧ is_benefit (slot_entry pg memberId i) = false
  ∧ ∀ p, slot_entry pg memberId i = Some p →
         (double_of_cents (monthly_fee_base pg)
          <=? double_of_cents (pay_amount p))%float = false.

(** The slot step 2 plans for the clicked month when [rem] is left. *)
Definition clicked_slot_double (pg : Page) (sp : SelectedPayment)
    (rem : float) : Update_double :=
  {| ud_key := getPaymentKey (currentCalendarYear pg) (nextCalendarYear pg)
                 (sp_memberId sp) (sp_monthIndex sp);
     ud_month := sp_month sp;
     ud_year := sp_year sp;
     ud_newAmt := Math_min rem (double_of_cents (monthly_fee_base pg));
     ud_existing := None |}.

(** The value of a finite double, as a whole number of units of 2^-1074
    (the spacing of the smallest doubles, of which every finite double
    is a multiple); [None] for an infinity and for NaN. *)
Definition exact (x : float) : option Z :=
  match Prim2SF x with
  | S754_zero _ => Some 0
  | S754_finite s m e => Some ((if s then -1 else 1) * Z.pos m * 2 ^ (e + 1074))
  | _ => None
  end.



(** The page with another monthly fee. *)
Definition with_fee (pg : Page) (fee : Z) : Page :=
  {| currentCalendarYear := currentCalendarYear pg;
     nextCalendarYear := nextCalendarYear pg;
     monthly_fee_base := fee;
     members := members pg;
     payments := payments pg;
     selectedPayment := selectedPayment pg;
     amount := amount pg;
     paymentDate := paymentDate pg;
     receiptFile := receiptFile pg;
     secondReceiptFile := secondReceiptFile pg;
     notes := notes pg;
     showQuickPay := showQuickPay pg;
     quickPayAmount := quickPayAmount pg;
     quickPayDate := quickPayDate pg;
     quickPayReceipt := quickPayReceipt pg;
     showAdvancePayment := showAdvancePayment pg |}.


(** The message shown when the save operation of the payment dialog
    fails. *)
Definition toast_save_failed (message : string) : Toast :=
  {| toast_title := "Error";
     toast_description := Some (message_or message "No se pudo guardar el pago");
     toast_variant := destructive |}.


(** The message shown when quick-pay fails past its validations. *)
Definition toast_quick_pay_failed (message : string) : Toast :=
  {| toast_title := "Error";
     toast_description :=
       Some (message_or message "No se pudo procesar el pronto pago");
     toast_variant := destructive |}.

(** The receipt quick-pay leaves pending, for a total. *)
Definition quick_pay_receipt (pg : Page) (qp : QuickPayTarget) (total : Z)
    : ReceiptData :=
  {| rc_memberName := qp_memberName qp;
     rc_totalAmount := total;
     rc_amountPaid := total;
     rc_paymentDate := quickPayDate pg;
     rc_remaining := 0 |}.

(** The slot a new row is written to. *)
Definition row_slot (r : NewRow) : Z * Z := (nr_month r, nr_year r).

(** What an entry filed under [key] adds to [accumulatedTotal] of a
    table row. *)
Definition counted (member : Member) (key : string) (entry : option Payment)
    : Z :=
  match entry with
  | Some p =>
      if String.prefix (mem_id member) key
         && bool_decide (pay_payment_type p ≠ Some ty_pronto_pago_benefit)
      then pay_amount p
      else 0
  | None => 0
  end.

(** [openQuickPay(member)]: the state it sets. *)
Definition openQuickPay (w : World) (pg : Page) (member : Member) : Page :=
  {| currentCalendarYear := currentCalendarYear pg;
     nextCalendarYear := nextCalendarYear pg;
     monthly_fee_base := monthly_fee_base pg;
     members := members pg;
     payments := payments pg;
     selectedPayment := selectedPayment pg;
     amount := amount pg;
     paymentDate := paymentDate pg;
     receiptFile := receiptFile pg;
     secondReceiptFile := secondReceiptFile pg;
     notes := notes pg;
     showQuickPay :=
       Some {| qp_memberId := mem_id member;
               qp_memberName := mem_full_name member;
               qp_defaultAmount := monthly_fee_base pg |};
     quickPayAmount := Some (monthly_fee_base pg);
     quickPayDate := w_today w;
     quickPayReceipt := None;
     showAdvancePayment := showAdvancePayment pg |}.

(** ** The amount in words on a receipt *)

(** The receipt generator prints [numberToWords(data.amountPaid)]. An
    amount is a number of cents here, so that [n === 0] reads
    [cents = 0], [Math.floor(n)] reads [cents / 100] and
    [Math.round((n - intPart) * 100)] reads [cents mod 100]; the number
    [thousands] it calls itself with is [thousands * 100] cents.

    This reading is that of the code for amounts from 0 to below 2^52
    cents. There the double [n] is within 2^-8 of the decimal, so that
    [Math.floor] gives the whole part and the rounding of
    [(n - intPart) * 100], off by less than a half, gives the cents; the
    whole numbers that follow are exact. From 2^52 cents on the doubles
    give other cents, and the embedding says nothing of the code. *)

Definition units : list string :=
  [""; "uno"; "dos"; "tres"; "cuatro"; "cinco"; "seis"; "siete"; "ocho";
   "nueve"].

Definition teens : list string :=
  ["diez"; "once"; "doce"; "trece"; "catorce"; "quince"; "dieciséis";
   "diecisiete"; "dieciocho"; "diecinueve"].

Definition tens : list string :=
  [""; ""; "veinte"; "treinta"; "cuarenta"; "cincuenta"; "sesenta";
   "setenta"; "ochenta"; "noventa"].

Definition hundreds : list string :=
  [""; "ciento"; "doscientos"; "trescientos"; "cuatrocientos"; "quinientos";
   "seiscientos"; "setecientos"; "ochocientos"; "novecientos"].

(** [table[i]] in a concatenation: outside the table it prints
    "undefined". *)
Definition word (table : list string) (i : Z) : string :=
  if i <? 0 then "undefined"
  else match table !! Z.to_nat i with
       | Some s => s
       | None => "undefined"
       end.

(** [s.trim()], on the white space of ASCII. *)
Fixpoint trimStart (s : string) : string :=
  match s with
  | String a s' => if Ascii.is_space a then trimStart s' else s
  | EmptyString => EmptyString
  end.

Fixpoint trimEnd (s : string) : string :=
  match s with
  | EmptyString => EmptyString
  | String a s' =>
      match trimEnd s' with
      | EmptyString =>
          if Ascii.is_space a then EmptyString else String a EmptyString
      | t => String a t
      end
  end.

Definition trim (s : string) : string := trimEnd (trimStart s).

(** [c.toUpperCase()] on a letter of ASCII; the strings built here start
    with no other letter. *)
Definition toUpperCase (a : Ascii.ascii) : Ascii.ascii :=
  let n := Ascii.N_of_ascii a in
  if ((97 <=? n) && (n <=? 122))%N then Ascii.ascii_of_N (n - 32) else a.

(** [result.charAt(0).toUpperCase() + result.slice(1)] *)
Definition capitalize (result : string) : string :=
  match result with
  | String a rest => String (toUpperCase a) rest
  | EmptyString => EmptyString
  end.

(** The statements of [numberToWords] after the thousands: hundreds,
    tens and units appended to [result], the trim, the cents and the
    capital letter. *)
Definition words_below_thousand (result : string) (intPart decPart : Z)
    : string :=
  let remainder := Z.rem intPart 1000 in
  let result :=
    if 100 <=? remainder
    then result +:+ (word hundreds (remainder / 100) +:+ " ")
    else result in
  let lastTwo := Z.rem remainder 100 in
  let result :=
    if (10 <=? lastTwo) && (lastTwo <=? 19)
    then result +:+ word teens (lastTwo - 10)
    else if 20 <=? lastTwo then
      let result := result +:+ word tens (lastTwo / 10) in
      if negb (bool_decide (Z.rem lastTwo 10 = 0))
      then result +:+ (" y " +:+ word units (Z.rem lastTwo 10))
      else result
    else if 0 <? lastTwo then result +:+ word units lastTwo
    else result in
  let result := trim result in
  let result :=
    if 0 <? decPart then result +:+ (" con " +:+ pretty decPart +:+ "/100")
    else result +:+ " con 00/100" in
  capitalize result.

(** [numberToWords(n)] for [n] of [cents] cents, with calls nested at
    most [depth] deep. *)
Fixpoint numberToWords_upto (depth : nat) (cents : Z) : option string :=
  match depth with
  | O => None
  | S depth =>
      if bool_decide (cents = 0) then Some "cero"
      else if bool_decide (cents = 10000) then Some "cien"
      else
        let intPart := cents / 100 in
        let decPart := cents mod 100 in
        let thousands := intPart / 1000 in
        match (if 1000 <=? intPart then
                 if bool_decide (thousands = 1) then Some "mil "
                 else match numberToWords_upto depth (thousands * 100) with
                      | Some inner => Some (inner +:+ " mil ")
                      | None => None
                      end
               else Some "") with
        | Some result => Some (words_below_thousand result intPart decPart)
        | None => None
        end
  end.

(** [numberToWords(n)] for an amount from 0 to below 2^52 cents: every
    nested call divides the number by 1000, so the binary length of
    [cents] bounds the depth. *)
Definition numberToWords (cents : Z) : option string :=
  numberToWords_upto (S (Z.to_nat (Z.log2 cents))) cents.

(** The cents as [numberToWords] prints them. *)
Definition cents_in_words (cents : Z) : string :=
  " con " +:+ (if 0 <? cents mod 100 then pretty (cents mod 100) else "00")
  +:+ "/100".

(** ** A sample lodge *)

Definition ex_world : World :=
  {| w_upload := λ file folder, Some ("https://files/" +:+ folder +:+ "/" +:+ file);
     w_update := λ _ _, inr None;
     w_insert1 := λ _, inr None;
     w_insert := λ _, inr None;
     w_randomUUID := "7c1e";
     w_today := "2025-08-15";
     MONTH_NAMES := ["Enero"; "Febrero"; "Marzo"; "Abril"; "Mayo"; "Junio";
                     "Julio"; "Agosto"; "Septiembre"; "Octubre"; "Noviembre";
                     "Diciembre"] |}.

Definition ex_member : Member :=
  {| mem_id := "m1"; mem_full_name := "Ana"; mem_degree := Some "maestro";
     mem_phone := None |}.

(** An entry of member m1. *)
Definition ex_entry (id : string) (month year amount : Z) (type : string)
    : Payment :=
  {| pay_id := id; pay_member_id := "m1"; pay_month := month;
     pay_year := year; pay_amount := amount;
     pay_paid_at := Some "2025-07-10"; pay_status := None;
     pay_receipt_url := None; pay_quick_pay_group_id := None;
     pay_payment_type := Some type; pay_notes := None;
     pay_created_at := "2025-07-10T10:00:00Z" |}.

(** July 2025 paid in part (30 of 50). *)
Definition ex_ledger_partial : gmap string Payment :=
  {[ "m1-7-2025" := ex_entry "p1" 7 2025 30 ty_regular ]}.

(** July, August and September 2025 paid. *)
Definition ex_ledger_three : gmap string Payment :=
  {[ "m1-7-2025" := ex_entry "p1" 7 2025 40 ty_pronto_pago;
     "m1-8-2025" := ex_entry "p2" 8 2025 40 ty_pronto_pago;
     "m1-9-2025" := ex_entry "p3" 9 2025 40 ty_pronto_pago ]}.

(** Every month of the fiscal year 2025-2026 has an entry: eleven paid
    by quick-pay and the benefit month. *)
Definition ex_ledger_full : gmap string Payment :=
  list_to_map
    [ ("m1-7-2025", ex_entry "q1" 7 2025 40 ty_pronto_pago);
      ("m1-8-2025", ex_entry "q2" 8 2025 40 ty_pronto_pago);
      ("m1-9-2025", ex_entry "q3" 9 2025 40 ty_pronto_pago);
      ("m1-10-2025", ex_entry "q4" 10 2025 40 ty_pronto_pago);
      ("m1-11-2025", ex_entry "q5" 11 2025 40 ty_pronto_pago);
      ("m1-12-2025", ex_entry "q6" 12 2025 40 ty_pronto_pago);
      ("m1-1-2026", ex_entry "q7" 1 2026 40 ty_pronto_pago);
      ("m1-2-2026", ex_entry "q8" 2 2026 40 ty_pronto_pago);
      ("m1-3-2026", ex_entry "q9" 3 2026 40 ty_pronto_pago);
      ("m1-4-2026", ex_entry "q10" 4 2026 40 ty_pronto_pago);
      ("m1-5-2026", ex_entry "q11" 5 2026 40 ty_pronto_pago);
      ("m1-6-2026", ex_entry "q12" 6 2026 0 ty_pronto_pago_benefit) ].

(** The page of the sample lodge: fee 50, fiscal year 2025-2026. *)
Definition ex_page (ledger : gmap string Payment)
    (selected : option SelectedPayment) (amountText : option Z)
    (quickAmountText : option Z) : Page :=
  {| currentCalendarYear := 2025;
     nextCalendarYear := 2026;
     monthly_fee_base := 50;
     members := [ex_member];
     payments := ledger;
     selectedPayment := selected;
     amount := amountText;
     paymentDate := "2025-08-15";
     receiptFile := None;
     secondReceiptFile := None;
     notes := "";
     showQuickPay :=
       Some {| qp_memberId := "m1"; qp_memberName := "Ana";
               qp_defaultAmount := 50 |};
     quickPayAmount := quickAmountText;
     quickPayDate := "2025-08-15";
     quickPayReceipt := None;
     showAdvancePayment :=
       Some {| ap_memberId := "m1"; ap_memberName := "Ana";
               ap_memberMonthlyAmount := 50 |} |}.

(** The selection a click on a cell of member m1 leaves. *)
Definition ex_selected (ledger : gmap string Payment) (monthIndex : nat)
    : SelectedPayment :=
  {| sp_memberId := "m1"; sp_memberName := "Ana";
     sp_monthIndex := monthIndex;
     sp_month := (getMonthYear 2025 2026 monthIndex).1;
     sp_year := (getMonthYear 2025 2026 monthIndex).2;
     sp_payment := ledger !! getPaymentKey 2025 2026 "m1" monthIndex |}.

(** July 2025 holds 4.23. *)
Definition ex_ledger_423 : gmap string Payment :=
  {[ "m1-7-2025" := ex_entry "p1" 7 2025 423 ty_regular ]}.

(** The page of the sample lodge with a fee given in cents and a click
    on the cell of a fiscal index. *)
Definition ex_page_cents (fee : Z) (ledger : gmap string Payment)
    (monthIndex : nat) : Page :=
  with_fee (ex_page ledger (Some (ex_selected ledger monthIndex)) None None)
    fee.

(** * Properties *)

(** ** Fiscal calendar *)

Lemma getPaymentKey_slotKey cur next memberId i :
  getPaymentKey cur next memberId i
  = slotKey memberId (getMonthYear cur next i).1 (getMonthYear cur next i).2.
Proof. reflexivity. Qed.

Lemma getMonthYear_month_range cur next i :
  (i < 12)%nat → 1 ≤ (getMonthYear cur next i).1 ≤ 12.
Proof.
  intros Hi. unfold getMonthYear. simpl.
  destruct (Nat.ltb_spec i 6); lia.
Qed.

Lemma getMonthYear_index cur next i :
  (i < 12)%nat →
  i = if (getMonthYear cur next i).1 <? 7
      then Z.to_nat ((getMonthYear cur next i).1 + 5)
      else Z.to_nat ((getMonthYear cur next i).1 - 7).
Proof.
  intros Hi. unfold getMonthYear. simpl.
  destruct (Nat.ltb_spec i 6).
  - destruct (Z.ltb_spec (Z.of_nat i + 7) 7); lia.
  - destruct (Z.ltb_spec (Z.of_nat i - 5) 7); lia.
Qed.

Lemma getMonthYear_inj cur next i j :
  (i < 12)%nat → (j < 12)%nat →
  (getMonthYear cur next i).1 = (getMonthYear cur next j).1 → i = j.
Proof.
  intros Hi Hj Heq.
  rewrite (getMonthYear_index cur next i Hi), (getMonthYear_index cur next j Hj).
  by rewrite Heq.
Qed.

(** Two keys of one member agree only on the same month and year. *)
Lemma slotKey_inj memberId m1 y1 m2 y2 :
  1 ≤ m1 ≤ 12 → 1 ≤ m2 ≤ 12 →
  slotKey memberId m1 y1 = slotKey memberId m2 y2 → m1 = m2.
Proof.
  intros H1 H2 Heq. unfold slotKey in Heq.
  apply (inj (String.app memberId)) in Heq.
  assert (Hc : ∀ m, 1 ≤ m ≤ 12 →
            m = 1 ∨ m = 2 ∨ m = 3 ∨ m = 4 ∨ m = 5 ∨ m = 6 ∨ m = 7 ∨ m = 8
            ∨ m = 9 ∨ m = 10 ∨ m = 11 ∨ m = 12) by (intros; lia).
  destruct (Hc m1 H1) as [->|[->|[->|[->|[->|[->|[->|[->|[->|[->|[->| ->]]]]]]]]]]];
  destruct (Hc m2 H2) as [->|[->|[->|[->|[->|[->|[->|[->|[->|[->|[->| ->]]]]]]]]]]];
  try reflexivity; exfalso; vm_compute in Heq; discriminate Heq.
Qed.

(** C6. For a fiscal index [i] in 0..11, [getMonthYear] returns
    (i + 7, current year) when [i] is in 0..5 and (i - 5, next year)
    when [i] is in 6..11. Over 0..11 it enumerates the 12 pairs of the
    fiscal window, each once: every pair of the window is reached, no two
    indices share a pair, and neither do the keys [getPaymentKey] builds
    from them. Index 0 is (7, current year), index 11 is (6, next year). *)
Theorem getMonthYear_bijection cur next :
  (∀ i, (i < 6)%nat → getMonthYear cur next i = (Z.of_nat i + 7, cur))
  ∧ (∀ i, (6 ≤ i < 12)%nat → getMonthYear cur next i = (Z.of_nat i - 5, next))
  ∧ getMonthYear cur next <$> seq 0 12 = fiscal_window cur next
  ∧ (∀ p, p ∈ fiscal_window cur next →
          ∃ i, (i < 12)%nat ∧ getMonthYear cur next i = p)
  ∧ (∀ i j, (i < 12)%nat → (j < 12)%nat →
            getMonthYear cur next i = getMonthYear cur next j → i = j)
  ∧ (∀ memberId i j, (i < 12)%nat → (j < 12)%nat →
            getPaymentKey cur next memberId i
            = getPaymentKey cur next memberId j → i = j)
  ∧ getMonthYear cur next 0 = (7, cur)
  ∧ getMonthYear cur next 11 = (6, next).
Proof.
  split_and!.
  - intros i Hi. unfold getMonthYear.
    destruct (Nat.ltb_spec i 6); [done | lia].
  - intros i Hi. unfold getMonthYear.
    destruct (Nat.ltb_spec i 6); [lia | done].
  - reflexivity.
  - intros p Hp.
    change (fiscal_window cur next) with (getMonthYear cur next <$> seq 0 12)
      in Hp.
    apply list_elem_of_fmap in Hp as (i & -> & Hi).
    exists i. split; [| done].
    apply elem_of_seq in Hi. lia.
  - intros i j Hi Hj Heq.
    apply (getMonthYear_inj cur next); [done | done | by rewrite Heq].
  - intros memberId i j Hi Hj Heq.
    rewrite !getPaymentKey_slotKey in Heq.
    apply slotKey_inj in Heq; auto using getMonthYear_month_range.
    by apply (getMonthYear_inj cur next).
  - reflexivity.
  - reflexivity.
Qed.

(** The fiscal window July 2025 to June 2026: index 3 is October 2025,
    and only index 3 is. *)
Lemma getMonthYear_bijection_witness :
  getMonthYear 2025 2026 3 = (10, 2025)
  ∧ (∀ j, (j < 12)%nat →
          getMonthYear 2025 2026 3 = getMonthYear 2025 2026 j → 3%nat = j).
Proof.
  destruct (getMonthYear_bijection 2025 2026)
    as (Hlo & _ & _ & _ & Hinj & _).
  split.
  - apply (Hlo 3%nat). lia.
  - intros j Hj. apply Hinj; [lia | done].
Defined.

(** ** Loops and sums *)

Lemma for_upto_always {S : Type} (body : nat → S → S) n i s :
  for_upto n i (λ _, true) body s = foldl (λ s j, body j s) s (seq i n).
Proof.
  revert i s. induction n as [|n IH]; intros i s; simpl; [done |].
  apply IH.
Qed.

Lemma zsum_app (l k : list Z) :
  foldr Z.add 0 (l ++ k) = foldr Z.add 0 l + foldr Z.add 0 k.
Proof. induction l as [|x l IH]; simpl; lia. Qed.

Lemma zsum_permutation (l k : list Z) :
  l ≡ₚ k → foldr Z.add 0 l = foldr Z.add 0 k.
Proof. induction 1; simpl; lia. Qed.

Lemma foldl_add_zsum {A : Type} (f : A → Z) (l : list A) (acc : Z) :
  foldl (λ sum x, sum + f x) acc l = acc + foldr Z.add 0 (f <$> l).
Proof.
  revert acc. induction l as [|x l IH]; intros acc; csimpl; [lia |].
  rewrite IH. lia.
Qed.

(** ** Ledger aggregates *)

Lemma adeudado_step_outstanding pg memberId i adeudado :
  0 ≤ monthly_fee_base pg →
  adeudado_step pg memberId i adeudado
  = adeudado + slot_outstanding pg memberId i.
Proof.
  intros Hfee. unfold adeudado_step, slot_outstanding, slot_entry.
  destruct (payments pg !! _) as [p|]; simpl.
  - destruct (bool_decide _); simpl; [lia |].
    destruct (Z.ltb_spec (pay_amount p) (monthly_fee_base pg)); lia.
  - lia.
Qed.

Lemma adeudado_of_outstanding pg memberId :
  0 ≤ monthly_fee_base pg →
  adeudado_of pg memberId = outstandingBalance pg memberId.
Proof.
  intros Hfee. unfold adeudado_of, for_range, outstandingBalance.
  rewrite for_upto_always.
  assert (H : ∀ l acc,
    foldl (λ s j, adeudado_step pg memberId j s) acc l
    = acc + foldr Z.add 0 (slot_outstanding pg memberId <$> l)).
  { induction l as [|j l IH]; intros acc; csimpl; [lia |].
    rewrite IH, adeudado_step_outstanding by done. lia. }
  rewrite H. change (12 - 0)%nat with 12%nat. lia.
Qed.

Lemma totalAdeudado_lookup pg filteredMembers memberId :
  memberId ∈ mem_id <$> filteredMembers →
  totalAdeudado pg filteredMembers !! memberId
  = Some (adeudado_of pg memberId).
Proof.
  unfold totalAdeudado. generalize (∅ : gmap string Z).
  induction filteredMembers as [|m l IH] using rev_ind; intros result Hin.
  - by apply elem_of_nil in Hin.
  - rewrite foldl_app. simpl.
    destruct (decide (mem_id m = memberId)) as [<-|Hne].
    + apply lookup_insert_eq.
    + rewrite lookup_insert_ne by done. apply IH.
      rewrite fmap_app in Hin. apply elem_of_app in Hin as [Hin|Hin]; [done |].
      apply list_elem_of_singleton in Hin. congruence.
Qed.

Lemma map_to_list_filter_perm {A : Type} (P : string * A → Prop)
    `{!∀ x, Decision (P x)} (m : gmap string A) :
  map_to_list (filter P m) ≡ₚ filter P (map_to_list m).
Proof.
  apply NoDup_Permutation.
  - apply NoDup_map_to_list.
  - apply NoDup_filter, NoDup_map_to_list.
  - intros [k x]. rewrite elem_of_map_to_list, list_elem_of_filter,
      elem_of_map_to_list, map_lookup_filter_Some. tauto.
Qed.

Lemma accumulatedTotal_zsum pg member :
  accumulatedTotal pg member
  = foldr Z.add 0
      ((λ kp : string * Payment, pay_amount kp.2) <$>
         filter (λ kp : string * Payment,
                   String.prefix (mem_id member) kp.1 = true
                   ∧ pay_payment_type kp.2 ≠ Some ty_pronto_pago_benefit)
                (map_to_list (payments pg))).
Proof. unfold accumulatedTotal. rewrite foldl_add_zsum. lia. Qed.

(** C7. With a fee that is not negative, the figure [totalAdeudado]
    holds for a listed member is the sum over the 12 fiscal-year slots
    of max(0, fee - existing amount), an absent slot counting as zero
    paid and a benefit month as 0 whatever amount it stores; and benefit
    entries never count toward [accumulatedTotal]: the total is that of
    the ledger without them, and adding one leaves it as it was. *)
Theorem totalAdeudado_outstandingBalance pg filteredMembers member :
  0 ≤ monthly_fee_base pg →
  member ∈ filteredMembers →
  totalAdeudado pg filteredMembers !! mem_id member
  = Some (outstandingBalance pg (mem_id member))
  ∧ accumulatedTotal pg member
    = accumulatedTotal
        (with_payments pg
           (filter (λ kp : string * Payment,
                      pay_payment_type kp.2 ≠ Some ty_pronto_pago_benefit)
                   (payments pg)))
        member
  ∧ (∀ key p,
       payments pg !! key = None →
       pay_payment_type p = Some ty_pronto_pago_benefit →
       accumulatedTotal (with_payments pg (<[key := p]> (payments pg))) member
       = accumulatedTotal pg member).
Proof.
  intros Hfee Hin. split_and!.
  - rewrite <- adeudado_of_outstanding by done.
    apply totalAdeudado_lookup, list_elem_of_fmap. eauto.
  - rewrite !accumulatedTotal_zsum. simpl.
    apply zsum_permutation, fmap_Permutation.
    rewrite map_to_list_filter_perm, list_filter_filter.
    apply NoDup_Permutation.
    + apply NoDup_filter, NoDup_map_to_list.
    + apply NoDup_filter, NoDup_map_to_list.
    + intros kp. rewrite !list_elem_of_filter. simpl. tauto.
  - intros key p Hnone Hty.
    rewrite !accumulatedTotal_zsum. simpl.
    apply zsum_permutation, fmap_Permutation.
    rewrite map_to_list_insert by done.
    rewrite filter_cons_False; [done |].
    simpl. intros [_ Hne]. done.
Qed.

(** ** The distribution of a new payment *)

Lemma handleCellClick_well_selected w pg member monthIndex :
  (monthIndex < 12)%nat →
  ∃ sp, selectedPayment (handleCellClick w pg member monthIndex) = Some sp
        ∧ sp_monthIndex sp = monthIndex
        ∧ sp_memberId sp = mem_id member
        ∧ well_selected pg sp.
Proof.
  intros Hi. unfold handleCellClick. simpl.
  eexists. split; [reflexivity |]. simpl. by repeat split.
Qed.

Lemma allFM_lookup pg memberId i :
  (i < 12)%nat →
  allFM pg memberId !! i
  = Some {| fm_monthIndex := i;
            fm_month := (getMonthYear (currentCalendarYear pg)
                           (nextCalendarYear pg) i).1;
            fm_year := (getMonthYear (currentCalendarYear pg)
                          (nextCalendarYear pg) i).2;
            fm_key := getPaymentKey (currentCalendarYear pg)
                        (nextCalendarYear pg) memberId i |}.
Proof.
  intros Hi. unfold allFM.
  rewrite list_lookup_fmap, lookup_seq_lt by done. reflexivity.
Qed.

(** With a positive fee an absent slot is never fully paid: the test
    reads as "a benefit entry, or an entry with amount >= fee". *)
Lemma fully_paid_entry pg e :
  0 < monthly_fee_base pg →
  fully_paid pg e
  = (is_benefit e
     || match e with
        | Some p => monthly_fee_base pg <=? pay_amount p
        | None => false
        end).
Proof.
  intros Hfee. unfold fully_paid. destruct e as [p|]; simpl; [done |].
  by assert ((monthly_fee_base pg <=? 0) = false) as -> by lia.
Qed.

(** One turn of a scanning loop of the source does what one month of a
    pass of the specification does. *)
Lemma fill_step_spec pg memberId i rem updates :
  (i < 12)%nat →
  fill_step pg memberId i (rem, updates)
  = Some (if fully_paid pg (slot_entry pg memberId i) then (rem, updates)
          else
            let applied :=
              Z.min rem (monthly_fee_base pg
                         - existingAmount (slot_entry pg memberId i)) in
            (rem - applied, updates ++ [slot_mutation pg memberId i applied])).
Proof.
  intros Hi. unfold fill_step. rewrite allFM_lookup by done. simpl.
  unfold fully_paid, slot_mutation. fold (slot_entry pg memberId i).
  destruct (slot_entry pg memberId i) as [p|] eqn:He; simpl.
  - destruct (bool_decide _); simpl; [done |].
    destruct (Z.leb_spec (monthly_fee_base pg) (pay_amount p)); simpl; [done |].
    destruct (Z.leb_spec (monthly_fee_base pg - pay_amount p) 0); [lia | done].
  - rewrite Z.sub_0_r.
    destruct (Z.leb_spec (monthly_fee_base pg) 0); simpl; done.
Qed.

Lemma scan_pass_nothing pg memberId months :
  scan_pass pg memberId months 0 = (0, []).
Proof. destruct months; reflexivity. Qed.

Lemma scan_pass_nonneg pg memberId months remaining :
  0 ≤ remaining → 0 ≤ (scan_pass pg memberId months remaining).1.
Proof.
  revert remaining. induction months as [|i later IH]; intros r Hr; simpl;
    [done |].
  destruct (r =? 0); [done |].
  destruct (fully_paid _ _); [by apply IH |].
  specialize (IH (r - Z.min r (monthly_fee_base pg
                               - existingAmount (slot_entry pg memberId i)))).
  destruct (scan_pass _ _ _ _) as [rest plan]. simpl in *. apply IH. lia.
Qed.

Lemma for_uptoM_S {S : Type} n i (cond : S → bool) body s :
  for_uptoM (Datatypes.S n) i cond body s
  = if cond s then
      match body i s with
      | Some s' => for_uptoM n (Datatypes.S i) cond body s'
      | None => None
      end
    else Some s.
Proof. reflexivity. Qed.

(** A scanning loop of the source is a pass of the specification over
    the months it visits. *)
Lemma for_uptoM_scan_pass pg memberId n i rem updates :
  (i + n ≤ 12)%nat → 0 ≤ rem →
  for_uptoM n i (λ st : Z * list Update, 0 <? st.1)
    (fill_step pg memberId) (rem, updates)
  = Some ((scan_pass pg memberId (seq i n) rem).1,
          updates ++ (scan_pass pg memberId (seq i n) rem).2).
Proof.
  revert i rem updates. induction n as [|n IH]; intros i rem updates Hi Hrem.
  - simpl. by rewrite app_nil_r.
  - rewrite for_uptoM_S. cbn [fst seq scan_pass].
    destruct (Z.ltb_spec 0 rem) as [Hpos|Hzero].
    + assert ((rem =? 0) = false) as -> by lia.
      rewrite fill_step_spec by lia.
      destruct (fully_paid pg (slot_entry pg memberId i)).
      * apply IH; lia.
      * cbv zeta. rewrite IH by lia.
        destruct (scan_pass _ _ _ _) as [rest plan]. cbn [fst snd].
        by rewrite <- app_assoc.
    + assert (rem = 0) as -> by lia. simpl. by rewrite app_nil_r.
Qed.

(** The three loops of the source against the three passes of the
    specification, for any amount that is not negative. *)
Lemma distribute_three_passes pg sp lumpSum :
  (sp_monthIndex sp < 12)%nat →
  (sp_month sp, sp_year sp)
  = getMonthYear (currentCalendarYear pg) (nextCalendarYear pg)
      (sp_monthIndex sp) →
  slot_entry pg (sp_memberId sp) (sp_monthIndex sp) = None →
  0 ≤ lumpSum →
  distribute pg sp lumpSum
  = Some (allocation_plan pg (sp_memberId sp) (sp_monthIndex sp) lumpSum).
Proof.
  intros Hidx Hmy Hempty Hpos.
  unfold distribute, for_rangeM, allocation_plan.
  rewrite Nat.sub_0_r, for_uptoM_scan_pass by lia.
  pose proof (scan_pass_nonneg pg (sp_memberId sp) (seq 0 (sp_monthIndex sp))
                lumpSum Hpos) as Hr1.
  destruct (scan_pass _ _ (seq 0 _) _) as [r1 backfill]. simpl in *.
  unfold selected_step.
  destruct (Z.ltb_spec 0 r1) as [Hr1pos|Hr1zero].
  - rewrite allFM_lookup by done. simpl.
    rewrite for_uptoM_scan_pass by lia.
    assert (Hmut :
      {| u_key := getPaymentKey (currentCalendarYear pg) (nextCalendarYear pg)
                    (sp_memberId sp) (sp_monthIndex sp);
         u_month := sp_month sp; u_year := sp_year sp;
         u_newAmt := Z.min r1 (monthly_fee_base pg);
         u_existing := None |}
      = slot_mutation pg (sp_memberId sp) (sp_monthIndex sp)
          (Z.min r1 (monthly_fee_base pg))).
    { unfold slot_mutation. rewrite Hempty, <- Hmy. simpl. reflexivity. }
    rewrite Hmut.
    set (r2 := r1 - Z.min r1 (monthly_fee_base pg)).
    assert (0 ≤ r2) by (unfold r2; lia).
    destruct (Z.ltb_spec 0 r2) as [Hr2pos|Hr2zero].
    + destruct (scan_pass _ _ _ r2) as [r3 overflow]. simpl.
      by rewrite <- app_assoc.
    + assert (r2 = 0) as -> by lia.
      rewrite scan_pass_nothing. simpl. by rewrite <- app_assoc.
  - assert (r1 = 0) as -> by lia.
    rewrite for_uptoM_scan_pass by lia.
    rewrite scan_pass_nothing. simpl. reflexivity.
Qed.

(** In exact arithmetic the loops are the three passes of the
    specification. For a selection left by a click on an empty cell and
    a positive lump sum, the list [updates] that [distribute] builds on
    whole cents is the plan of the passes: the backfill pass over the
    months before the target, from the earliest, skipping benefit months
    and months holding the fee or more, giving each other month
    min(remaining, fee - existing amount) and stopping once nothing
    remains; then min(remaining, fee) on the target month if something
    remains; then the overflow pass over the months after the target by
    the same rule. The page computes on doubles, where a remainder that
    is zero in decimals can be a residue of rounding: see the
    distribution on doubles below. *)
Lemma distribute_allocation_plan pg sp lumpSum :
  well_selected pg sp →
  sp_payment sp = None →
  0 < lumpSum →
  distribute pg sp lumpSum
  = Some (allocation_plan pg (sp_memberId sp) (sp_monthIndex sp) lumpSum).
Proof.
  intros (Hidx & Hmy & Hsel) Hempty Hpos.
  rewrite Hsel in Hempty.
  apply distribute_three_passes; [done | done | done | lia].
Qed.

(** ** Conservation *)

Lemma delta_slot_mutation pg memberId i applied :
  delta (slot_mutation pg memberId i applied) = applied.
Proof.
  unfold delta, slot_mutation, amount_or_0, existingAmount. simpl.
  destruct (slot_entry pg memberId i); lia.
Qed.

Lemma slot_deficit_nonneg pg memberId i : 0 ≤ slot_deficit pg memberId i.
Proof.
  unfold slot_deficit, fully_paid.
  destruct (is_benefit _); simpl; [done |].
  destruct (Z.leb_spec (monthly_fee_base pg)
              (existingAmount (slot_entry pg memberId i))); lia.
Qed.

Lemma slot_deficit_open pg memberId i :
  fully_paid pg (slot_entry pg memberId i) = false →
  slot_deficit pg memberId i
  = monthly_fee_base pg - existingAmount (slot_entry pg memberId i)
  ∧ 0 < slot_deficit pg memberId i.
Proof.
  intros Hfp. pose proof (slot_deficit_nonneg pg memberId i) as Hnn.
  unfold slot_deficit in *. rewrite Hfp in *. split; [done |].
  unfold fully_paid in Hfp. apply orb_false_iff in Hfp as [_ Hfp].
  apply Z.leb_gt in Hfp. lia.
Qed.

Lemma zsum_deficit_nonneg pg memberId months :
  0 ≤ foldr Z.add 0 (slot_deficit pg memberId <$> months).
Proof.
  induction months as [|i l IH]; csimpl; [done |].
  pose proof (slot_deficit_nonneg pg memberId i). lia.
Qed.

(** What a pass hands out: the months it pays, each at most once and in
    the order scanned, each given a positive amount within its deficit;
    together min(remaining, deficit of the months scanned). *)
Lemma scan_pass_conservation pg memberId months remaining :
  0 ≤ remaining →
  ∃ alloc : list (nat * Z),
    (scan_pass pg memberId months remaining).2
    = (λ ia, slot_mutation pg memberId ia.1 ia.2) <$> alloc
    ∧ alloc.*1 `sublist_of` months
    ∧ Forall (λ ia, 0 < ia.2 ≤ slot_deficit pg memberId ia.1) alloc
    ∧ foldr Z.add 0 alloc.*2
      = Z.min remaining (foldr Z.add 0 (slot_deficit pg memberId <$> months))
    ∧ (scan_pass pg memberId months remaining).1
      = remaining
        - Z.min remaining
            (foldr Z.add 0 (slot_deficit pg memberId <$> months)).
Proof.
  revert remaining. induction months as [|i later IH]; intros r Hr.
  - exists []. csimpl. split_and!; [done | done | done | lia | lia].
  - pose proof (zsum_deficit_nonneg pg memberId (i :: later)) as Hnn.
    pose proof (zsum_deficit_nonneg pg memberId later) as Hnn'.
    csimpl in *.
    destruct (Z.eqb_spec r 0) as [->|Hr0].
    { exists []. csimpl.
      split_and!; [done | apply sublist_nil_l | done | lia | lia]. }
    destruct (fully_paid pg (slot_entry pg memberId i)) eqn:Hfp.
    + destruct (IH r Hr) as (alloc & Hplan & Hsub & Hall & Hsum & Hrest).
      assert (slot_deficit pg memberId i = 0) as Hd0
        by (unfold slot_deficit; by rewrite Hfp).
      exists alloc. rewrite Hd0.
      split_and!; [done | by apply sublist_cons | done | lia | lia].
    + destruct (slot_deficit_open pg memberId i Hfp) as [Hd Hdpos].
      rewrite <- Hd.
      set (a := Z.min r (slot_deficit pg memberId i)).
      destruct (IH (r - a) ltac:(lia))
        as (alloc & Hplan & Hsub & Hall & Hsum & Hrest).
      destruct (scan_pass pg memberId later (r - a)) as [rest plan].
      simpl in *. exists ((i, a) :: alloc). csimpl.
      split_and!.
      * by rewrite Hplan.
      * by apply sublist_skip.
      * constructor; [simpl; lia | done].
      * lia.
      * lia.
Qed.

Lemma seq_split_at (t : nat) :
  (t < 12)%nat → seq 0 12 = seq 0 t ++ t :: seq (t + 1) (12 - (t + 1)).
Proof.
  intros Ht.
  replace 12%nat with (t + (1 + (12 - (t + 1))))%nat at 1 by lia.
  rewrite seq_app. simpl. by rewrite Nat.add_1_r.
Qed.

Lemma allocation_plan_conservation pg memberId target lumpSum :
  0 ≤ monthly_fee_base pg →
  (target < 12)%nat →
  slot_entry pg memberId target = None →
  0 < lumpSum →
  ∃ alloc : list (nat * Z),
    (allocation_plan pg memberId target lumpSum).2
    = (λ ia, slot_mutation pg memberId ia.1 ia.2) <$> alloc
    ∧ alloc.*1 `sublist_of` seq 0 12
    ∧ Forall (λ ia, 0 ≤ ia.2 ≤ slot_deficit pg memberId ia.1
                    ∧ (0 < monthly_fee_base pg → 0 < ia.2)) alloc
    ∧ foldr Z.add 0 alloc.*2
      = Z.min lumpSum (totalDeficitAcross12Months pg memberId)
    ∧ (allocation_plan pg memberId target lumpSum).1
      = lumpSum - Z.min lumpSum (totalDeficitAcross12Months pg memberId).
Proof.
  intros Hfee Ht Hempty Hpos.
  assert (Hdt : slot_deficit pg memberId target = monthly_fee_base pg).
  { unfold slot_deficit, fully_paid. rewrite Hempty. simpl.
    destruct (Z.leb_spec (monthly_fee_base pg) 0); lia. }
  assert (Hweak : ∀ al : list (nat * Z),
    Forall (λ ia, 0 < ia.2 ≤ slot_deficit pg memberId ia.1) al →
    Forall (λ ia, 0 ≤ ia.2 ≤ slot_deficit pg memberId ia.1
                  ∧ (0 < monthly_fee_base pg → 0 < ia.2)) al).
  { intros al Hal. eapply Forall_impl; [exact Hal |].
    intros ia Hia. simpl in *. lia. }
  unfold totalDeficitAcross12Months, allocation_plan.
  rewrite (seq_split_at target Ht), fmap_app, zsum_app. csimpl. rewrite Hdt.
  pose proof (zsum_deficit_nonneg pg memberId (seq 0 target)) as Hb.
  pose proof (zsum_deficit_nonneg pg memberId
                (seq (target + 1) (12 - (target + 1)))) as Ha.
  destruct (scan_pass_conservation pg memberId (seq 0 target) lumpSum
              ltac:(lia)) as (al1 & Hp1 & Hs1 & Hf1 & Hsum1 & Hr1).
  apply Hweak in Hf1.
  destruct (scan_pass pg memberId (seq 0 target) lumpSum) as [r1 backfill].
  simpl in Hp1, Hr1.
  destruct (Z.ltb_spec 0 r1) as [Hr1pos|Hr1zero].
  - set (a := Z.min r1 (monthly_fee_base pg)).
    destruct (scan_pass_conservation pg memberId
                (seq (target + 1) (12 - (target + 1))) (r1 - a)
                ltac:(lia)) as (al3 & Hp3 & Hs3 & Hf3 & Hsum3 & Hr3).
    apply Hweak in Hf3.
    destruct (Z.ltb_spec 0 (r1 - a)) as [Hr2pos|Hr2zero].
    + destruct (scan_pass pg memberId _ (r1 - a)) as [r3 overflow].
      simpl in *. exists (al1 ++ (target, a) :: al3).
      rewrite !fmap_app, zsum_app. csimpl. split_and!.
      * by rewrite Hp1, Hp3.
      * apply sublist_app; [done |]. by apply sublist_skip.
      * apply Forall_app. split; [done |].
        constructor; [simpl; lia | done].
      * lia.
      * lia.
    + simpl. exists (al1 ++ [(target, a)]).
      rewrite !fmap_app, zsum_app. csimpl. split_and!.
      * by rewrite Hp1.
      * apply sublist_app; [done |]. apply sublist_skip, sublist_nil_l.
      * apply Forall_app. split; [done |].
        constructor; [simpl; lia | done].
      * lia.
      * lia.
  - assert ((0 <? r1) = false) as Hlt by lia.
    simpl. rewrite Hlt. simpl. exists al1. rewrite app_nil_r. split_and!.
    + done.
    + apply sublist_inserts_r. done.
    + done.
    + lia.
    + lia.
Qed.

(** In exact arithmetic the plan conserves the payment. For a
    selection left by a click on an empty cell, a fee that is not
    negative and a positive lump sum, the deltas of the plan that
    [distribute] builds on whole cents add up to min(lump sum, total
    deficit of the 12 fiscal months), a benefit month and a month
    holding the fee or more having deficit 0. Every planned slot is a
    month of the fiscal year, planned once, that receives an amount
    within its deficit (a positive one when the fee is positive); what
    exceeds the total deficit is in no mutation: it is the money left
    over. On doubles the sum is off by the roundings: see the
    distribution on doubles below. *)
Lemma distribute_conservation pg sp lumpSum :
  0 ≤ monthly_fee_base pg →
  well_selected pg sp →
  sp_payment sp = None →
  0 < lumpSum →
  ∃ (plan : list Update) (alloc : list (nat * Z)),
    distribute pg sp lumpSum
    = Some (lumpSum
            - Z.min lumpSum (totalDeficitAcross12Months pg (sp_memberId sp)),
            plan)
    ∧ plan = (λ ia, slot_mutation pg (sp_memberId sp) ia.1 ia.2) <$> alloc
    ∧ delta <$> plan = alloc.*2
    ∧ alloc.*1 `sublist_of` seq 0 12
    ∧ Forall (λ ia, 0 ≤ ia.2 ≤ slot_deficit pg (sp_memberId sp) ia.1
                    ∧ (0 < monthly_fee_base pg → 0 < ia.2)) alloc
    ∧ sum_deltas plan
      = Z.min lumpSum (totalDeficitAcross12Months pg (sp_memberId sp)).
Proof.
  intros Hfee (Hidx & Hmy & Hentry) Hempty Hpos. rewrite Hentry in Hempty.
  rewrite (distribute_three_passes pg sp lumpSum Hidx Hmy Hempty)
    by lia.
  destruct (allocation_plan_conservation pg (sp_memberId sp)
              (sp_monthIndex sp) lumpSum Hfee Hidx Hempty Hpos)
    as (alloc & Hplan & Hsub & Hall & Hsum & Hrest).
  destruct (allocation_plan _ _ _ _) as [rest plan]. simpl in *.
  assert (Hdelta : delta <$> plan = alloc.*2).
  { rewrite Hplan, <- list_fmap_compose. apply list_fmap_ext.
    intros _ ia _. simpl. apply delta_slot_mutation. }
  exists plan, alloc. split_and!; try done.
  - by rewrite Hrest.
  - unfold sum_deltas. by rewrite Hdelta.
Qed.

(** ** The preview and the save operation *)









(** ** Logs of handler computations *)

Lemma bind_log {A B} (m : Eff A) (k : A → Eff B) :
  (bind m k).1
  = m.1 ++ match m.2 with inl _ => [] | inr a => (k a).1 end.
Proof.
  destruct m as [l [e|a]]; simpl; [by rewrite app_nil_r |].
  by destruct (k a).
Qed.

Lemma try_catch_finally_log body handler fin :
  (try_catch_finally body handler fin).1
  = body.1 ++ match body.2 with inl e => (handler e).1 | inr _ => [] end
    ++ fin.1.
Proof.
  destruct body as [l [e|[]]]; simpl.
  - destruct (handler e), fin. reflexivity.
  - by destruct fin.
Qed.

Lemma bind_value {A B} (l : list Call) (a : A) (k : A → Eff B) :
  bind (l, inr a) k = (l ++ (k a).1, (k a).2).
Proof. unfold bind. by destruct (k a). Qed.

Lemma bind_call {B} (c : Call) (k : unit → Eff B) :
  bind (call c) k = (c :: (k tt).1, (k tt).2).
Proof. unfold call. by rewrite bind_value. Qed.

Lemma ledger_calls_app l k :
  ledger_calls (l ++ k) = ledger_calls l ++ ledger_calls k.
Proof. apply filter_app. Qed.

Lemma toasts_app l k : toasts (l ++ k) = toasts l ++ toasts k.
Proof. apply omap_app. Qed.

Lemma snapshots_app l k : snapshots (l ++ k) = snapshots l ++ snapshots k.
Proof. apply omap_app. Qed.

Lemma pending_receipts_app l k :
  pending_receipts (l ++ k) = pending_receipts l ++ pending_receipts k.
Proof. apply omap_app. Qed.

Lemma cache_loop (rows : list Payment) :
  for_of rows (λ p _, call (CCache p)) tt = (CCache <$> rows, inr tt).
Proof.
  induction rows as [|p rows IH]; [done |].
  simpl. rewrite IH. reflexivity.
Qed.

Lemma ledger_calls_cache (rows : list Payment) :
  ledger_calls (CCache <$> rows) = [].
Proof. induction rows as [|p rows IH]; [done |]. exact IH. Qed.

Lemma toasts_cache (rows : list Payment) : toasts (CCache <$> rows) = [].
Proof. induction rows as [|p rows IH]; [done |]. exact IH. Qed.

(** ** From the plan to the ledger *)





(** ** Quick-pay *)

Lemma pending_loop pg memberId (l : list nat) (acc : list PendingMonth) :
  foldl (λ s j, pending_step pg memberId j s) acc l
  = acc
    ++ ((λ i, {| pm_month := (getMonthYear (currentCalendarYear pg)
                                (nextCalendarYear pg) i).1;
                 pm_year := (getMonthYear (currentCalendarYear pg)
                               (nextCalendarYear pg) i).2;
                 pm_monthIndex := i |})
          <$> filter (λ i, slot_entry pg memberId i = None) l).
Proof.
  revert acc. induction l as [|i l IH]; intros acc.
  - simpl. by rewrite app_nil_r.
  - cbn [foldl]. rewrite IH, filter_cons.
    destruct (decide (slot_entry pg memberId i = None)) as [He|He].
    + rewrite fmap_cons, cons_middle, app_assoc. f_equal.
      unfold pending_step. unfold slot_entry in He.
      rewrite getPaymentKey_slotKey in He.
      destruct (getMonthYear _ _ i) as [month year]. simpl in *.
      by rewrite He.
    + f_equal.
      unfold pending_step. unfold slot_entry in He.
      rewrite getPaymentKey_slotKey in He.
      destruct (getMonthYear _ _ i) as [month year]. simpl in *.
      by destruct (payments pg !! slotKey memberId month year).
Qed.

Lemma currentYearPending_empty_slots pg memberId :
  currentYearPending pg memberId
  = (λ i, {| pm_month := (getMonthYear (currentCalendarYear pg)
                            (nextCalendarYear pg) i).1;
             pm_year := (getMonthYear (currentCalendarYear pg)
                           (nextCalendarYear pg) i).2;
             pm_monthIndex := i |}) <$> empty_slots pg memberId.
Proof.
  unfold currentYearPending, for_range.
  rewrite for_upto_always, pending_loop. reflexivity.
Qed.

Lemma quick_pay_rows_empty_slots pg memberId parsedAmount date receipt group :
  quick_pay_rows memberId parsedAmount date receipt group
    (currentYearPending pg memberId)
  = (quick_pay_entry pg memberId parsedAmount ty_pronto_pago date receipt group
       <$> take (Nat.min (length (empty_slots pg memberId)) 11)
             (empty_slots pg memberId))
    ++ match empty_slots pg memberId !! 11%nat with
       | Some i => [quick_pay_entry pg memberId 0 ty_pronto_pago_benefit date
                      receipt group i]
       | None => []
       end.
Proof.
  unfold quick_pay_rows, monthsToPay, freeMonth.
  rewrite currentYearPending_empty_slots, length_fmap, <- fmap_take,
    <- list_fmap_compose, list_lookup_fmap.
  f_equal.
  destruct (Nat.leb_spec 12 (length (empty_slots pg memberId))) as [Hn|Hn].
  - by destruct (empty_slots pg memberId !! 11%nat).
  - rewrite (lookup_ge_None_2 (empty_slots pg memberId) 11) by lia.
    reflexivity.
Qed.

Lemma empty_slots_length pg memberId :
  (length (empty_slots pg memberId) ≤ 12)%nat.
Proof.
  unfold empty_slots.
  etrans; [apply length_filter |]. by rewrite length_seq.
Qed.

Lemma filter_keeps_all {A : Type} (P : A → Prop) `{!∀ x, Decision (P x)}
    (l : list A) :
  (length l ≤ length (filter P l))%nat → filter P l = l.
Proof.
  induction l as [|x l IH]; [done |].
  rewrite filter_cons. pose proof (length_filter P l) as Hle.
  destruct (decide (P x)); simpl; intros Hlen.
  - f_equal. apply IH. lia.
  - lia.
Qed.

Lemma empty_slots_all pg memberId :
  (12 ≤ length (empty_slots pg memberId))%nat →
  empty_slots pg memberId = seq 0 12.
Proof.
  intros Hn. unfold empty_slots in *.
  apply filter_keeps_all. by rewrite length_seq.
Qed.

Lemma amount_test (parsedAmount : Z) :
  bool_decide (parsedAmount = 0) || (parsedAmount <=? 0)
  = (parsedAmount <=? 0).
Proof.
  destruct (bool_decide_reflect (parsedAmount = 0)) as [->|]; [done |].
  reflexivity.
Qed.

Lemma truthy_nonempty (s : string) : s ≠ "" → truthy s = true.
Proof. intros Hs. unfold truthy. by rewrite bool_decide_eq_false_2. Qed.

(** [handleQuickPay] once its two validations are passed. *)
Lemma handleQuickPay_validated w pg qp parsedAmount :
  showQuickPay pg = Some qp →
  quickPayAmount pg = Some parsedAmount →
  0 < parsedAmount →
  quickPayDate pg ≠ "" →
  handleQuickPay w pg
  = (call (CSetFlag "processingQuickPay" true) >>>
     try_catch_finally
       (quick_pay_body w pg qp parsedAmount)
       (λ error,
          call (CToast {| toast_title := "Error";
                          toast_description :=
                            Some (message_or error
                                    "No se pudo procesar el pronto pago");
                          toast_variant := destructive |}))
       (call (CSetFlag "processingQuickPay" false))).
Proof.
  intros Hqp Hamt Hpos Hdate. unfold handleQuickPay.
  rewrite Hqp, Hamt, amount_test, truthy_nonempty by done.
  assert ((parsedAmount <=? 0) = false) as -> by lia.
  reflexivity.
Qed.

(** The calls of the [try] block: the upload of the attached file, then
    the refusal when no month is pending, or else one insert of the rows,
    followed by calls that are not on the ledger. *)
Lemma quick_pay_body_calls w pg qp parsedAmount :
  upload_accepted w (quickPayReceipt pg) "quick-pay" →
  ∃ tail result,
    quick_pay_body w pg qp parsedAmount
    = (upload_calls (quickPayReceipt pg) "quick-pay"
       ++ (if (length (currentYearPending pg (qp_memberId qp)) =? 0)%nat
           then [CToast toast_nothing_pending;
                 CSetFlag "processingQuickPay" false]
           else CInsert (quick_pay_rows (qp_memberId qp) parsedAmount
                           (quickPayDate pg)
                           (bulk_receipt w (quickPayReceipt pg) "quick-pay")
                           (w_randomUUID w)
                           (currentYearPending pg (qp_memberId qp)))
                :: tail),
       result)
    ∧ ledger_calls tail = []
    ∧ ((length (currentYearPending pg (qp_memberId qp)) =? 0)%nat = true →
       result = inr tt).
Proof.
  intros Hup. unfold quick_pay_body, bulk_receipt, upload_calls.
  assert (Hurl : ∃ receiptUrl,
    match quickPayReceipt pg with
    | Some file => uploadReceipt w file "quick-pay"
    | None => ret None
    end
    = (match quickPayReceipt pg with
       | Some f => [CUpload f "quick-pay"]
       | None => []
       end, inr receiptUrl)
    ∧ receiptUrl = match quickPayReceipt pg with
                   | Some f => w_upload w f "quick-pay"
                   | None => None
                   end).
  { destruct (quickPayReceipt pg) as [file|]; [| by eexists].
    destruct (Hup file eq_refl) as [url Hurl].
    unfold uploadReceipt. rewrite Hurl. by eexists. }
  destruct Hurl as (receiptUrl & -> & <-).
  cbn -[quick_pay_rows currentYearPending].
  destruct (length _ =? 0)%nat.
  - exists [], (inr tt). split_and!; [reflexivity | done | done].
  - destruct (w_insert w _) as [e|inserted].
    + exists [], (inl e). split_and!; [| done | done].
      cbn -[quick_pay_rows currentYearPending]. reflexivity.
    + rewrite cache_loop. cbn -[quick_pay_rows currentYearPending].
      eexists (_ ++ _), _. split_and!; [reflexivity | | done].
      rewrite ledger_calls_app, ledger_calls_cache. reflexivity.
Qed.

Lemma handleQuickPay_calls w pg qp parsedAmount :
  showQuickPay pg = Some qp →
  quickPayAmount pg = Some parsedAmount →
  0 < parsedAmount →
  quickPayDate pg ≠ "" →
  ledger_calls (handleQuickPay w pg).1
  = ledger_calls (quick_pay_body w pg qp parsedAmount).1.
Proof.
  intros Hqp Hamt Hpos Hdate.
  rewrite (handleQuickPay_validated w pg qp parsedAmount) by done.
  rewrite bind_log. cbn [call fst snd].
  rewrite try_catch_finally_log, !ledger_calls_app.
  destruct (quick_pay_body w pg qp parsedAmount).2;
    cbn [call fst snd]; rewrite app_nil_r; reflexivity.
Qed.

Lemma empty_slots_none pg memberId :
  Forall (λ i, slot_entry pg memberId i = None) (empty_slots pg memberId).
Proof.
  apply Forall_forall. intros i Hi.
  unfold empty_slots in Hi. by apply list_elem_of_filter in Hi as [Hi _].
Qed.

Lemma empty_slots_of_unpaid_member pg memberId :
  Forall (λ i, slot_entry pg memberId i = None) (seq 0 12) →
  empty_slots pg memberId = seq 0 12.
Proof.
  unfold empty_slots. generalize (seq 0 12).
  induction 1 as [|i l Hi Hl IH]; [done |].
  rewrite filter_cons, decide_True by done. by rewrite IH.
Qed.

(** C3. Once the two validations of quick-pay are passed (an amount
    above 0, a payment date) and the attached file, if any, is stored,
    a member with n >= 1 empty fiscal-year slots gets one insert of
    min(n, 11) rows of type pronto_pago with the amount given, on the
    first min(n, 11) empty slots in fiscal-month order, and of one more
    row of amount 0 and type pronto_pago_benefit on the 12th empty slot
    exactly when n >= 12. Every row is on a slot without an entry and
    carries the one generated group identifier, the payment date and the
    receipt reference. A member without any entry gets 11 rows of the
    amount on the indices 0 to 10 and the benefit row on index 11. *)
Theorem handleQuickPay_entries w pg qp parsedAmount :
  showQuickPay pg = Some qp →
  quickPayAmount pg = Some parsedAmount →
  0 < parsedAmount →
  quickPayDate pg ≠ "" →
  upload_accepted w (quickPayReceipt pg) "quick-pay" →
  (1 ≤ length (empty_slots pg (qp_memberId qp)))%nat →
  let empties := empty_slots pg (qp_memberId qp) in
  let n := length empties in
  let receipt := bulk_receipt w (quickPayReceipt pg) "quick-pay" in
  let entry := λ amount type,
    quick_pay_entry pg (qp_memberId qp) amount type (quickPayDate pg)
      receipt (w_randomUUID w) in
  let paid := entry parsedAmount ty_pronto_pago
                <$> take (Nat.min n 11) empties in
  let free := match empties !! 11%nat with
              | Some i => [entry 0 ty_pronto_pago_benefit i]
              | None => []
              end in
  ledger_calls (handleQuickPay w pg).1 = [CInsert (paid ++ free)]
  ∧ length paid = Nat.min n 11
  ∧ length free = (if (12 <=? n)%nat then 1 else 0)%nat
  ∧ Forall (λ i, slot_entry pg (qp_memberId qp) i = None) empties
  ∧ Forall (λ r, nr_member_id r = qp_memberId qp
                 ∧ nr_quick_pay_group_id r = Some (w_randomUUID w)
                 ∧ nr_paid_at r = Some (quickPayDate pg)
                 ∧ nr_receipt_url r = receipt)
           (paid ++ free)
  ∧ (Forall (λ i, slot_entry pg (qp_memberId qp) i = None) (seq 0 12) →
     paid ++ free
     = (entry parsedAmount ty_pronto_pago <$> seq 0 11)
       ++ [entry 0 ty_pronto_pago_benefit 11%nat]).
Proof.
  intros Hqp Hamt Hpos Hdate Hup Hn. intros empties n receipt entry paid free.
  assert (Hn1 : (1 ≤ n)%nat) by exact Hn.
  assert (Hlen : length empties = n) by reflexivity.
  assert (Hempties : empties = empty_slots pg (qp_memberId qp))
    by reflexivity.
  clearbody n empties.
  split_and!.
  - rewrite (handleQuickPay_calls w pg qp parsedAmount) by done.
    destruct (quick_pay_body_calls w pg qp parsedAmount Hup)
      as (tail & result & -> & Htail & _).
    cbn [fst]. rewrite ledger_calls_app.
    rewrite quick_pay_rows_empty_slots.
    rewrite currentYearPending_empty_slots, length_fmap.
    rewrite <- Hempties, Hlen.
    assert ((n =? 0)%nat = false) as -> by (apply Nat.eqb_neq; lia).
    assert (ledger_calls (upload_calls (quickPayReceipt pg) "quick-pay") = [])
      as -> by (by destruct (quickPayReceipt pg)).
    cbn [app]. change (ledger_calls (CInsert ?r :: tail))
      with (CInsert r :: ledger_calls tail).
    by rewrite Htail.
  - unfold paid. rewrite length_fmap, length_take. lia.
  - unfold free.
    destruct (Nat.leb_spec 12 n) as [H12|H12].
    + destruct (lookup_lt_is_Some_2 empties 11 ltac:(lia)) as [i ->].
      reflexivity.
    + by rewrite (lookup_ge_None_2 empties 11) by lia.
  - rewrite Hempties. apply empty_slots_none.
  - apply Forall_app. split.
    + unfold paid. apply Forall_fmap, Forall_forall. by intros i _.
    + unfold free. destruct (empties !! 11%nat); by repeat constructor.
  - intros Hall. unfold paid, free. rewrite <- Hlen, Hempties.
    rewrite (empty_slots_of_unpaid_member pg (qp_memberId qp) Hall).
    reflexivity.
Qed.

(** C9. With every one of the 12 fiscal-year months of the member
    already holding an entry, quick-pay makes no call on the ledger and
    shows one error message, whatever its inputs and the answers of the
    outer world. Past its validations and the storing of the attached
    file it makes exactly these calls: the file upload if a file was
    attached, the message that all months are registered, and the reset
    of the busy flag. *)
Theorem handleQuickPay_nothing_pending w pg qp :
  showQuickPay pg = Some qp →
  empty_slots pg (qp_memberId qp) = [] →
  ledger_calls (handleQuickPay w pg).1 = []
  ∧ (∃ t, toasts (handleQuickPay w pg).1 = [t]
          ∧ toast_variant t = destructive)
  ∧ (∀ parsedAmount,
       quickPayAmount pg = Some parsedAmount →
       0 < parsedAmount →
       quickPayDate pg ≠ "" →
       upload_accepted w (quickPayReceipt pg) "quick-pay" →
       handleQuickPay w pg
       = ([CSetFlag "processingQuickPay" true]
          ++ upload_calls (quickPayReceipt pg) "quick-pay"
          ++ [CToast toast_nothing_pending;
              CSetFlag "processingQuickPay" false;
              CSetFlag "processingQuickPay" false],
          inr tt)).
Proof.
  intros Hqp Hempty.
  assert (Hbody : ∀ parsedAmount,
    quick_pay_body w pg qp parsedAmount
    = match quickPayReceipt pg with
      | Some file =>
          match w_upload w file "quick-pay" with
          | Some _ => ([CUpload file "quick-pay";
                        CToast toast_nothing_pending;
                        CSetFlag "processingQuickPay" false], inr tt)
          | None => ([CUpload file "quick-pay"],
                     inl "Error al subir comprobante")
          end
      | None => ([CToast toast_nothing_pending;
                  CSetFlag "processingQuickPay" false], inr tt)
      end).
  { intros parsedAmount. unfold quick_pay_body.
    rewrite currentYearPending_empty_slots, Hempty.
    destruct (quickPayReceipt pg) as [file|]; [| reflexivity].
    unfold uploadReceipt. by destruct (w_upload w file "quick-pay"). }
  assert (Hcases :
    (∃ t, handleQuickPay w pg = ([CToast t], inr tt)
          ∧ toast_variant t = destructive)
    ∨ (∃ parsedAmount,
         quickPayAmount pg = Some parsedAmount ∧ 0 < parsedAmount
         ∧ quickPayDate pg ≠ "")).
  { unfold handleQuickPay. rewrite Hqp.
    destruct (quickPayAmount pg) as [parsedAmount|]; [| left; by eexists].
    rewrite amount_test.
    destruct (Z.leb_spec parsedAmount 0); [left; by eexists |].
    destruct (decide (quickPayDate pg = "")) as [Hd|Hd].
    - unfold truthy. rewrite bool_decide_eq_true_2 by done.
      left. by eexists.
    - right. by exists parsedAmount. }
  split_and!.
  - destruct Hcases as [(t & -> & _)|(parsedAmount & Hamt & Hpos & Hdate)];
      [reflexivity |].
    rewrite (handleQuickPay_validated w pg qp parsedAmount) by done.
    rewrite Hbody.
    destruct (quickPayReceipt pg) as [file|]; [| reflexivity].
    by destruct (w_upload w file "quick-pay").
  - destruct Hcases as [(t & -> & Ht)|(parsedAmount & Hamt & Hpos & Hdate)];
      [by exists t |].
    rewrite (handleQuickPay_validated w pg qp parsedAmount) by done.
    rewrite Hbody.
    destruct (quickPayReceipt pg) as [file|];
      [| by exists toast_nothing_pending].
    destruct (w_upload w file "quick-pay").
    + by exists toast_nothing_pending.
    + by exists (toast_upload_failed "No se pudo procesar el pronto pago").
  - intros parsedAmount Hamt Hpos Hdate Hup.
    rewrite (handleQuickPay_validated w pg qp parsedAmount) by done.
    rewrite Hbody. unfold upload_calls.
    destruct (quickPayReceipt pg) as [file|]; [| reflexivity].
    destruct (Hup file eq_refl) as [url ->]. reflexivity.
Qed.

(** ** Advance payment *)

(** The run of [handleAdvancePayment] once the attached file, if any,
    is stored: one insert, and after it calls that are not on the
    ledger. The receipt is left pending when the insert succeeds. *)
Lemma handleAdvancePayment_calls w pg ap data :
  showAdvancePayment pg = Some ap →
  upload_accepted w (ad_receiptFile data) "advance-pay" →
  let rows := advance_rows ap data
                (bulk_receipt w (ad_receiptFile data) "advance-pay")
                (w_randomUUID w) in
  ∃ tail,
    (handleAdvancePayment w pg data).1
    = CSetFlag "processingAdvancePayment" true
      :: upload_calls (ad_receiptFile data) "advance-pay"
      ++ CInsert rows :: tail
    ∧ ledger_calls tail = []
    ∧ (∀ inserted, w_insert w rows = inr inserted →
         pending_receipts tail
         = [ {| rc_memberName := ap_memberName ap;
                rc_totalAmount := ad_totalAmount data;
                rc_amountPaid := ad_totalAmount data;
                rc_paymentDate := ad_paymentDate data;
                rc_remaining := 0 |} ]).
Proof.
  intros Hap Hup rows. unfold handleAdvancePayment. rewrite Hap.
  assert (Hurl :
    match ad_receiptFile data with
    | Some file => uploadReceipt w file "advance-pay"
    | None => ret None
    end
    = (upload_calls (ad_receiptFile data) "advance-pay",
       inr (bulk_receipt w (ad_receiptFile data) "advance-pay"))).
  { unfold bulk_receipt, upload_calls.
    destruct (ad_receiptFile data) as [file|]; [| done].
    destruct (Hup file eq_refl) as [url Hurl].
    unfold uploadReceipt. by rewrite Hurl. }
  rewrite Hurl, bind_call, bind_value. cbv beta zeta. rewrite bind_call.
  fold rows. clearbody rows. cbn [fst snd].
  rewrite try_catch_finally_log. cbn [fst snd call].
  destruct (w_insert w rows) as [e|inserted].
  - cbn [throw fst snd call]. rewrite <- app_assoc.
    eexists. split_and!; [reflexivity | reflexivity | discriminate].
  - rewrite cache_loop, bind_value, !bind_call. cbn [fst snd call app].
    rewrite <- !app_assoc. cbn [app].
    eexists. split_and!; [reflexivity | |].
    + rewrite !ledger_calls_app, ledger_calls_cache. reflexivity.
    + intros _ _. unfold pending_receipts.
      rewrite !omap_app.
      assert (∀ l : list Payment,
                omap (λ c, match c with
                           | CSetPendingReceipt _ r => Some r
                           | _ => None
                           end) (CCache <$> l) = []) as ->
        by (induction l; done).
      reflexivity.
Qed.

(** C5. Advance-pay for the months chosen in the dialog, once the
    attached file, if any, is stored: one insert of one row per chosen
    (month, year), in the order chosen, each of type adelantado with the
    monthly fee as amount, all with the one generated group identifier,
    the payment date and the receipt reference; no row is a benefit
    month. When the store accepts the insert, the total left for the
    receipt is the fee times the number of months chosen. *)
Theorem handleAdvancePayment_entries w pg member selectedMonths date file :
  showAdvancePayment pg = Some (openAdvancePayment pg member) →
  upload_accepted w file "advance-pay" →
  let fee := monthly_fee_base pg in
  let data := AdvancePaymentDialog_submit fee selectedMonths date file in
  let log := (handleAdvancePayment w pg data).1 in
  ∃ rows,
    ledger_calls log = [CInsert rows]
    ∧ (λ r, (nr_month r, nr_year r)) <$> rows = selectedMonths
    ∧ Forall (λ r, nr_member_id r = mem_id member
                   ∧ nr_payment_type r = ty_adelantado
                   ∧ nr_amount r = fee
                   ∧ nr_quick_pay_group_id r = Some (w_randomUUID w)
                   ∧ nr_paid_at r = Some date
                   ∧ nr_receipt_url r = bulk_receipt w file "advance-pay")
             rows
    ∧ (∀ inserted, w_insert w rows = inr inserted →
         ∃ receipt, pending_receipts log = [receipt]
                    ∧ rc_totalAmount receipt
                      = fee * Z.of_nat (length selectedMonths)
                    ∧ rc_amountPaid receipt
                      = fee * Z.of_nat (length selectedMonths)).
Proof.
  intros Hap Hup fee data log.
  destruct (handleAdvancePayment_calls w pg (openAdvancePayment pg member)
              data Hap Hup) as (tail & Hlog & Htail & Hreceipt).
  unfold log. rewrite Hlog. eexists. split_and!.
  - change (CSetFlag ?a ?b :: ?l) with ([CSetFlag a b] ++ l).
    rewrite !ledger_calls_app.
    assert (ledger_calls (upload_calls (ad_receiptFile data) "advance-pay")
            = []) as -> by (by destruct (ad_receiptFile data)).
    change (ledger_calls (CInsert ?r :: tail))
      with (CInsert r :: ledger_calls tail).
    rewrite Htail. reflexivity.
  - unfold advance_rows. rewrite <- list_fmap_compose.
    simpl. rewrite <- (list_fmap_id selectedMonths) at 2.
    apply list_fmap_ext. by intros _ [m y] _.
  - unfold advance_rows. apply Forall_fmap, Forall_forall.
    intros my _. simpl. done.
  - intros inserted Hins. eexists. split_and!.
    + change (CSetFlag ?a ?b :: ?l) with ([CSetFlag a b] ++ l).
      unfold pending_receipts in *. rewrite !omap_app.
      assert (omap (λ c, match c with
                         | CSetPendingReceipt _ r => Some r
                         | _ => None
                         end)
                (upload_calls (ad_receiptFile data) "advance-pay") = [])
        as -> by (by destruct (ad_receiptFile data)).
      simpl. apply (Hreceipt inserted Hins).
    + reflexivity.
    + reflexivity.
Qed.

(** ** Editing an entry *)

(** The run of the edit branch once the attached file, if any, is
    stored: the snapshot with the edited entry is set, one update is
    sent to the store, and nothing else touches ledger or snapshot. *)
Lemma handleSavePayment_edit_calls w pg sp old :
  selectedPayment pg = Some sp →
  sp_payment sp = Some old →
  upload_accepted w (receiptFile pg) "monthly" →
  ∃ tail,
    (handleSavePayment w pg).1
    = CSetFlag "uploading" true
      :: upload_calls (receiptFile pg) "monthly"
      ++ CSetPayments
           (<[slotKey (sp_memberId sp) (sp_month sp) (sp_year sp)
              := edited_payment sp old (edit_fields w pg old)]> (payments pg))
         :: CUpdate (pay_id old) (edit_fields w pg old)
         :: tail
    ∧ ledger_calls tail = []
    ∧ snapshots tail = [].
Proof.
  intros Hsp Hold Hup. unfold handleSavePayment. rewrite Hsp, Hold.
  assert (Hurl :
    match receiptFile pg with
    | Some file => uploadReceipt w file "monthly"
    | None => ret (or_null (pay_receipt_url old))
    end
    = (upload_calls (receiptFile pg) "monthly", inr (edit_receipt w pg old))).
  { unfold edit_receipt, upload_calls.
    destruct (receiptFile pg) as [file|]; [| done].
    destruct (Hup file eq_refl) as [url Hurl].
    unfold uploadReceipt. by rewrite Hurl. }
  rewrite Hurl, bind_call, bind_value. cbv beta.
  unfold save_edit. cbv zeta. fold (edit_fields w pg old).
  rewrite !bind_call. cbn [fst snd].
  rewrite try_catch_finally_log. cbn [fst snd call].
  destruct (w_update w (pay_id old) (edit_fields w pg old)) as [e|answer].
  - cbn [throw fst snd call]. cbv beta. rewrite ?bind_call.
    cbn [fst snd call]. rewrite <- ?app_assoc. cbn [app].
    eexists. split_and!; [reflexivity | reflexivity | reflexivity].
  - cbv beta. rewrite ?bind_call. cbn [fst snd call].
    rewrite <- ?app_assoc. cbn [app].
    eexists. split_and!; [reflexivity | reflexivity | reflexivity].
Qed.

(** C4, as amended. Saving on a slot that has an entry, once the
    attached file, if any, is stored: the only call on the ledger is one
    update of that entry, by its id, sending amount, payment date,
    receipt reference and note, and with them the payment type
    "regular". The snapshot the page keeps changes at the key of that
    slot only; the entry there keeps id, status, group identifier and
    creation time, takes the four fields from the dialog, and has its
    payment type set to "regular". No other slot is created or
    modified. *)
Theorem handleSavePayment_edit w pg sp old :
  selectedPayment pg = Some sp →
  sp_payment sp = Some old →
  upload_accepted w (receiptFile pg) "monthly" →
  let key := slotKey (sp_memberId sp) (sp_month sp) (sp_year sp) in
  let fields := edit_fields w pg old in
  let new := edited_payment sp old fields in
  let log := (handleSavePayment w pg).1 in
  ledger_calls log = [CUpdate (pay_id old) fields]
  ∧ snapshots log = [<[key := new]> (payments pg)]
  ∧ (∀ k, k ≠ key → (<[key := new]> (payments pg)) !! k = payments pg !! k)
  ∧ (<[key := new]> (payments pg)) !! key = Some new
  ∧ (pay_id new = pay_id old
     ∧ pay_status new = pay_status old
     ∧ pay_quick_pay_group_id new = pay_quick_pay_group_id old
     ∧ pay_created_at new = pay_created_at old)
  ∧ (pay_member_id new = sp_memberId sp
     ∧ pay_month new = sp_month sp
     ∧ pay_year new = sp_year sp)
  ∧ (pay_amount new = parsed_or_0 (amount pg)
     ∧ pay_paid_at new = str_or_null (paymentDate pg)
     ∧ pay_notes new = str_or_null (notes pg)
     ∧ pay_receipt_url new = edit_receipt w pg old)
  ∧ pay_payment_type new = Some ty_regular
  ∧ uf_payment_type fields = Some ty_regular.
Proof.
  intros Hsp Hold Hup key fields new log.
  destruct (handleSavePayment_edit_calls w pg sp old Hsp Hold Hup)
    as (tail & Hlog & Hledger & Hsnap).
  assert (Hl : ledger_calls (upload_calls (receiptFile pg) "monthly") = [])
    by (by destruct (receiptFile pg)).
  assert (Hs : snapshots (upload_calls (receiptFile pg) "monthly") = [])
    by (by destruct (receiptFile pg)).
  split_and!; try done.
  - unfold log. rewrite Hlog.
    change (CSetFlag ?a ?b :: ?l) with ([CSetFlag a b] ++ l).
    rewrite !ledger_calls_app, Hl.
    change (ledger_calls (CSetPayments ?m :: CUpdate ?i ?f :: tail))
      with (CUpdate i f :: ledger_calls tail).
    by rewrite Hledger.
  - unfold log. rewrite Hlog.
    change (CSetFlag ?a ?b :: ?l) with ([CSetFlag a b] ++ l).
    rewrite !snapshots_app, Hs.
    change (snapshots (CSetPayments ?m :: CUpdate ?i ?f :: tail))
      with (m :: snapshots tail).
    by rewrite Hsnap.
  - intros k Hk. by apply lookup_insert_ne.
  - apply lookup_insert_eq.
Qed.

(** C4, as stated, fails: September 2025 of member m1 holds a quick-pay
    entry; saving the dialog on it sends payment type "regular" to the
    store and leaves the entry "regular" in the snapshot. *)
Lemma edit_is_four_field_update_fails :
  ¬ edit_is_four_field_update ex_world
      (ex_page ex_ledger_three (Some (ex_selected ex_ledger_three 2))
         (Some 45) None).
Proof.
  intros Hclaim.
  destruct (Hclaim (ex_selected ex_ledger_three 2)
              (ex_entry "p3" 9 2025 40 ty_pronto_pago) eq_refl eq_refl)
    as [_ Hcalls].
  destruct (Hcalls
              (CUpdate "p3"
                 {| uf_amount := 45; uf_paid_at := Some "2025-08-15";
                    uf_receipt_url := None;
                    uf_payment_type := Some ty_regular;
                    uf_notes := None |}))
    as (fields & Heq & Hty).
  - vm_compute. apply list_elem_of_here.
  - injection Heq as <-. discriminate Hty.
Qed.

(** ** Amounts that are not positive *)

(** Quick-pay refuses an amount that is missing, zero or negative
    before anything else happens. *)
Lemma handleQuickPay_rejects_amount w pg qp :
  showQuickPay pg = Some qp →
  (∀ parsedAmount, quickPayAmount pg = Some parsedAmount → parsedAmount ≤ 0) →
  handleQuickPay w pg = ([CToast toast_amount_required], inr tt).
Proof.
  intros Hqp Hamt. unfold handleQuickPay. rewrite Hqp.
  destruct (quickPayAmount pg) as [parsedAmount|]; [| reflexivity].
  rewrite amount_test.
  specialize (Hamt parsedAmount eq_refl).
  by assert ((parsedAmount <=? 0) = true) as -> by lia.
Qed.

(** The save operation on an empty slot with an amount that is not
    positive plans nothing. *)
Lemma distribute_nothing pg sp parsedAmount :
  parsedAmount ≤ 0 → distribute pg sp parsedAmount = Some (parsedAmount, []).
Proof.
  intros Hle. unfold distribute, for_rangeM, selected_step.
  assert (Hloop : ∀ n i, for_uptoM n i (λ st : Z * list Update, 0 <? st.1)
                           (fill_step pg (sp_memberId sp)) (parsedAmount, [])
                         = Some (parsedAmount, [])).
  { intros [|n] i; [done |]. rewrite for_uptoM_S. cbn [fst].
    by assert ((0 <? parsedAmount) = false) as -> by lia. }
  rewrite Hloop.
  assert ((0 <? parsedAmount) = false) as -> by lia.
  apply Hloop.
Qed.

(** A new payment with an amount that is not positive and no file
    attached: no validation message; nothing is planned, the snapshot is
    set to itself, a receipt of that amount is left pending and the
    success message is shown. *)
Lemma handleSavePayment_nonpositive_amount w pg sp :
  selectedPayment pg = Some sp →
  sp_payment sp = None →
  receiptFile pg = None →
  parsed_or_0 (amount pg) ≤ 0 →
  handleSavePayment w pg
  = ([ CSetFlag "uploading" true;
       CSetPayments (payments pg);
       CSetPendingReceipt "single"
         {| rc_memberName := sp_memberName sp;
            rc_totalAmount := parsed_or_0 (amount pg);
            rc_amountPaid := parsed_or_0 (amount pg);
            rc_paymentDate := match str_or_null (paymentDate pg) with
                              | Some d => d
                              | None => w_today w
                              end;
            rc_remaining := 0 |};
       CToast {| toast_title := "Pago guardado correctamente";
                 toast_description := None; toast_variant := None |};
       CSetFlag "uploading" false ],
     inr tt).
Proof.
  intros Hsp Hempty Hfile Hamt.
  unfold handleSavePayment. rewrite Hsp, Hempty, Hfile.
  unfold save_new. rewrite (distribute_nothing pg sp _ Hamt).
  by destruct (secondReceiptFile pg).
Qed.

(** C8, the code at the failing input. Member m1, September 2025 empty,
    amount 0 typed in the payment dialog: the save operation shows no
    validation message; it makes no call on the ledger yet reports
    "Pago guardado correctamente" and leaves a receipt of 0 pending. On
    July 2025, which has an entry, the amount -5 is sent to the store. On
    the quick-pay dialog the amount 0 is refused with a message. *)
Theorem handleSavePayment_accepts_nonpositive_amount :
  handleSavePayment ex_world
    (ex_page ex_ledger_partial (Some (ex_selected ex_ledger_partial 2))
       (Some 0) None)
  = ([ CSetFlag "uploading" true;
       CSetPayments ex_ledger_partial;
       CSetPendingReceipt "single"
         {| rc_memberName := "Ana"; rc_totalAmount := 0; rc_amountPaid := 0;
            rc_paymentDate := "2025-08-15"; rc_remaining := 0 |};
       CToast {| toast_title := "Pago guardado correctamente";
                 toast_description := None; toast_variant := None |};
       CSetFlag "uploading" false ],
     inr tt)
  ∧ ledger_calls
      (handleSavePayment ex_world
         (ex_page ex_ledger_partial (Some (ex_selected ex_ledger_partial 0))
            (Some (-5)) None)).1
    = [ CUpdate "p1"
          {| uf_amount := -5; uf_paid_at := Some "2025-08-15";
             uf_receipt_url := None; uf_payment_type := Some ty_regular;
             uf_notes := None |} ]
  ∧ handleQuickPay ex_world (ex_page ex_ledger_partial None None (Some 0))
    = ([CToast toast_amount_required], inr tt).
Proof.
  split_and!.
  - vm_compute. reflexivity.
  - vm_compute. reflexivity.
  - vm_compute. reflexivity.
Qed.

(** ** Sample runs *)

(** July holds 30 of 50 and August is empty; 25 are paid on September.
    July is completed with 20 and the 5 left go to August, the next
    month before the target; September itself receives nothing. *)
Example scenario_backfill :
  distribute (ex_page ex_ledger_partial
                (Some (ex_selected ex_ledger_partial 2)) (Some 25) None)
    (ex_selected ex_ledger_partial 2) 25
  = Some (0, [ {| u_key := "m1-7-2025"; u_month := 7; u_year := 2025;
                  u_newAmt := 50;
                  u_existing := Some (ex_entry "p1" 7 2025 30 ty_regular) |};
               {| u_key := "m1-8-2025"; u_month := 8; u_year := 2025;
                  u_newAmt := 5; u_existing := None |} ]).
Proof. vm_compute. reflexivity. Qed.

(** Scenario of section 8: all months empty, 120 paid on July: 50, 50
    and 20 on July, August and September. *)
Example scenario_overflow :
  snd <$> distribute (ex_page ∅ (Some (ex_selected ∅ 0)) (Some 120) None)
            (ex_selected ∅ 0) 120
  = Some [ {| u_key := "m1-7-2025"; u_month := 7; u_year := 2025;
              u_newAmt := 50; u_existing := None |};
           {| u_key := "m1-8-2025"; u_month := 8; u_year := 2025;
              u_newAmt := 50; u_existing := None |};
           {| u_key := "m1-9-2025"; u_month := 9; u_year := 2025;
              u_newAmt := 20; u_existing := None |} ].
Proof. vm_compute. reflexivity. Qed.

(** ** The theorems at the sample lodge *)

(** July holds 30 of 50; 25 are paid on the empty September. *)
Lemma distribute_allocation_plan_witness :
  distribute
    (ex_page ex_ledger_partial (Some (ex_selected ex_ledger_partial 2))
       (Some 25) None)
    (ex_selected ex_ledger_partial 2) 25
  = Some (allocation_plan
            (ex_page ex_ledger_partial
               (Some (ex_selected ex_ledger_partial 2)) (Some 25) None)
            "m1" 2 25).
Proof.
  apply distribute_allocation_plan.
  - unfold well_selected. split_and!.
    + simpl. lia.
    + reflexivity.
    + vm_compute. reflexivity.
  - vm_compute. reflexivity.
  - lia.
Defined.

(** The same payment: the deltas add up to 25, the whole lump sum, the
    12 months owing 570. *)
Lemma distribute_conservation_witness :
  ∃ (plan : list Update) (alloc : list (nat * Z)),
    distribute
      (ex_page ex_ledger_partial (Some (ex_selected ex_ledger_partial 2))
         (Some 25) None)
      (ex_selected ex_ledger_partial 2) 25
    = Some (0, plan)
    ∧ delta <$> plan = alloc.*2
    ∧ sum_deltas plan = 25.
Proof.
  destruct (distribute_conservation
              (ex_page ex_ledger_partial
                 (Some (ex_selected ex_ledger_partial 2)) (Some 25) None)
              (ex_selected ex_ledger_partial 2) 25)
    as (plan & alloc & Hrun & _ & Hdelta & _ & _ & Hsum).
  - simpl. lia.
  - unfold well_selected. split_and!.
    + simpl. lia.
    + reflexivity.
    + vm_compute. reflexivity.
  - vm_compute. reflexivity.
  - lia.
  - exists plan, alloc. split_and!.
    + rewrite Hrun. vm_compute. reflexivity.
    + exact Hdelta.
    + rewrite Hsum. vm_compute. reflexivity.
Defined.


(** Member m1 owes 20 on July and 50 on each of the other 11 months. *)
Lemma totalAdeudado_outstandingBalance_witness :
  totalAdeudado (ex_page ex_ledger_partial None None None) [ex_member]
    !! "m1" = Some 570.
Proof.
  destruct (totalAdeudado_outstandingBalance
              (ex_page ex_ledger_partial None None None) [ex_member]
              ex_member) as (Hdue & _).
  - simpl. lia.
  - apply list_elem_of_here.
  - etrans; [exact Hdue |]. vm_compute. reflexivity.
Defined.

(** Scenario of section 8: July, August and September are paid, quick-pay
    with 40 per month writes 9 rows for October to June and no benefit
    month. *)
Lemma handleQuickPay_entries_witness :
  ledger_calls
    (handleQuickPay ex_world (ex_page ex_ledger_three None None (Some 40))).1
  = [CInsert
       (quick_pay_entry (ex_page ex_ledger_three None None (Some 40)) "m1" 40
          ty_pronto_pago "2025-08-15" None "7c1e"
          <$> [3; 4; 5; 6; 7; 8; 9; 10; 11]%nat)].
Proof.
  destruct (handleQuickPay_entries ex_world
              (ex_page ex_ledger_three None None (Some 40))
              {| qp_memberId := "m1"; qp_memberName := "Ana";
                 qp_defaultAmount := 50 |} 40)
    as (Hcalls & _).
  - reflexivity.
  - reflexivity.
  - lia.
  - discriminate.
  - intros f Hf. discriminate Hf.
  - vm_compute. lia.
  - rewrite Hcalls. vm_compute. reflexivity.
Defined.

(** September 2025 of member m1 was paid by quick-pay; the dialog saves
    45 on it. *)
Lemma handleSavePayment_edit_witness :
  ledger_calls
    (handleSavePayment ex_world
       (ex_page ex_ledger_three (Some (ex_selected ex_ledger_three 2))
          (Some 45) None)).1
  = [ CUpdate "p3"
        {| uf_amount := 45; uf_paid_at := Some "2025-08-15";
           uf_receipt_url := None; uf_payment_type := Some ty_regular;
           uf_notes := None |} ].
Proof.
  destruct (handleSavePayment_edit ex_world
              (ex_page ex_ledger_three (Some (ex_selected ex_ledger_three 2))
                 (Some 45) None)
              (ex_selected ex_ledger_three 2)
              (ex_entry "p3" 9 2025 40 ty_pronto_pago))
    as (Hcalls & _).
  - reflexivity.
  - vm_compute. reflexivity.
  - intros f Hf. discriminate Hf.
  - etrans; [exact Hcalls |]. vm_compute. reflexivity.
Defined.

(** Advance payment of October 2025 and January 2026 at the fee of 50:
    two rows, and 100 on the receipt. *)
Lemma handleAdvancePayment_entries_witness :
  ∃ rows,
    ledger_calls
      (handleAdvancePayment ex_world
         (ex_page ex_ledger_three None None None)
         (AdvancePaymentDialog_submit 50 [(10, 2025); (1, 2026)]
            "2025-08-15" None)).1
    = [CInsert rows]
    ∧ (λ r, (nr_month r, nr_year r)) <$> rows = [(10, 2025); (1, 2026)]
    ∧ ∃ receipt,
        pending_receipts
          (handleAdvancePayment ex_world
             (ex_page ex_ledger_three None None None)
             (AdvancePaymentDialog_submit 50 [(10, 2025); (1, 2026)]
                "2025-08-15" None)).1
        = [receipt]
        ∧ rc_totalAmount receipt = 100.
Proof.
  destruct (handleAdvancePayment_entries ex_world
              (ex_page ex_ledger_three None None None) ex_member
              [(10, 2025); (1, 2026)] "2025-08-15" None)
    as (rows & Hcalls & Hslots & _ & Hreceipt).
  - reflexivity.
  - intros f Hf. discriminate Hf.
  - exists rows. split_and!; [exact Hcalls | exact Hslots |].
    destruct (Hreceipt None eq_refl) as (receipt & Hpending & Htotal & _).
    exists receipt. split; [exact Hpending | exact Htotal].
Defined.

(** Every month of member m1 has an entry: quick-pay with 40 per month
    inserts nothing and says so. *)
Lemma handleQuickPay_nothing_pending_witness :
  handleQuickPay ex_world (ex_page ex_ledger_full None None (Some 40))
  = ([ CSetFlag "processingQuickPay" true;
       CToast toast_nothing_pending;
       CSetFlag "processingQuickPay" false;
       CSetFlag "processingQuickPay" false ],
     inr tt).
Proof.
  destruct (handleQuickPay_nothing_pending ex_world
              (ex_page ex_ledger_full None None (Some 40))
              {| qp_memberId := "m1"; qp_memberName := "Ana";
                 qp_defaultAmount := 50 |})
    as (_ & _ & Hrun).
  - reflexivity.
  - vm_compute. reflexivity.
  - apply (Hrun 40).
    + reflexivity.
    + lia.
    + discriminate.
    + intros f Hf. discriminate Hf.
Defined.

(** * Further properties of the page *)

(** ** Loading the ledger *)

Lemma paymentsMap_snoc (data : list Payment) (payment : Payment) :
  paymentsMap (data ++ [payment])
  = <[row_key payment := payment]> (paymentsMap data).
Proof. unfold paymentsMap. by rewrite foldl_snoc. Qed.

Lemma paymentsMap_filed (data : list Payment) k p :
  paymentsMap data !! k = Some p → p ∈ data ∧ k = row_key p.
Proof.
  induction data as [|x l IH] using rev_ind; [done |].
  rewrite paymentsMap_snoc, elem_of_app, list_elem_of_singleton.
  destruct (decide (row_key x = k)) as [<-|Hne].
  - rewrite lookup_insert_eq. intros [= <-]. auto.
  - rewrite lookup_insert_ne by done. intros H. apply IH in H. tauto.
Qed.

Lemma paymentsMap_unique (data : list Payment) :
  NoDup (row_key <$> data) →
  (∀ p, p ∈ data → paymentsMap data !! row_key p = Some p)
  ∧ size (paymentsMap data) = length data.
Proof.
  induction data as [|x l IH] using rev_ind.
  { intros _. split; [by intros p Hp%elem_of_nil | apply map_size_empty]. }
  rewrite fmap_app, NoDup_app. intros (Hl & Hfresh & _).
  destruct (IH Hl) as [IHlook IHsize].
  assert (Hnew : paymentsMap l !! row_key x = None).
  { destruct (paymentsMap l !! row_key x) as [q|] eqn:Hq; [| done].
    apply paymentsMap_filed in Hq as [Hq Hkey].
    exfalso. apply (Hfresh (row_key q)).
    - apply list_elem_of_fmap. eauto.
    - rewrite <- Hkey. apply list_elem_of_here. }
  rewrite paymentsMap_snoc. split.
  - intros p [Hp|Hp]%elem_of_app.
    + rewrite lookup_insert_ne; [by apply IHlook |].
      intros Heq. rewrite Heq, IHlook in Hnew by done. done.
    + apply list_elem_of_singleton in Hp as ->. apply lookup_insert_eq.
  - rewrite map_size_insert_None, length_app by done. simpl. lia.
Qed.

(** X1. [loadData] files every row of [monthly_payments] under the key
    made of its own member id, month and year. Whatever the map holds
    under a key is one of the rows, with that key; every row's key is
    taken, by the last row received with it. When no two rows share a
    key, as the unique index of the table ensures, every row is found
    under its key, the map has as many entries as there are rows, and the
    cell of a member and a fiscal index reads the row of that member,
    month and year. A query without data leaves the snapshot alone. *)
Theorem loadData_paymentsMap pg membersData (data : list Payment) :
  (∀ k p, paymentsMap data !! k = Some p → p ∈ data ∧ k = row_key p)
  ∧ (∀ p, p ∈ data →
       ∃ q, paymentsMap data !! row_key p = Some q
            ∧ q ∈ data ∧ row_key q = row_key p)
  ∧ (∀ p, paymentsMap (data ++ [p]) !! row_key p = Some p)
  ∧ (NoDup (row_key <$> data) →
       (∀ p, p ∈ data → paymentsMap data !! row_key p = Some p)
       ∧ size (paymentsMap data) = length data
       ∧ (∀ p i, p ∈ data →
            (pay_month p, pay_year p)
            = getMonthYear (currentCalendarYear pg) (nextCalendarYear pg) i →
            payments (loadData pg membersData (Some data))
              !! getPaymentKey (currentCalendarYear pg)
                   (nextCalendarYear pg) (pay_member_id p) i
            = Some p))
  ∧ payments (loadData pg membersData None) = payments pg.
Proof.
  split_and!.
  - apply paymentsMap_filed.
  - induction data as [|x l IH] using rev_ind; [by intros p Hp%elem_of_nil |].
    intros p Hp. rewrite paymentsMap_snoc.
    destruct (decide (row_key x = row_key p)) as [Heq|Hne].
    + exists x. rewrite <- Heq, lookup_insert_eq.
      split_and!; [done | | done].
      apply elem_of_app. right. apply list_elem_of_here.
    + rewrite lookup_insert_ne by done.
      apply elem_of_app in Hp as [Hp|Hp].
      * destruct (IH p Hp) as (q & Hq & Hin & Hk).
        exists q. split_and!; [done | | done].
        apply elem_of_app. by left.
      * apply list_elem_of_singleton in Hp as ->. done.
  - intros p. rewrite paymentsMap_snoc. apply lookup_insert_eq.
  - intros Hnodup. destruct (paymentsMap_unique data Hnodup) as [Hl Hs].
    split_and!; [done | done |].
    intros p i Hp Hmy. simpl.
    rewrite getPaymentKey_slotKey, <- Hmy. simpl. by apply Hl.
  - reflexivity.
Qed.

(** ** The cells of the table *)

(** X2. The column "Total Adeudado" is the sum of what the twelve cells
    of the row show as owed: the fee for an empty cell and the pending
    amount of its tooltip for a cell with an entry. A cell is drawn as
    partial exactly when its pending amount is positive; a benefit month
    and an empty cell have no pending amount. *)
Theorem cell_view_adeudado pg memberId :
  adeudado_of pg memberId
  = foldr Z.add 0
      ((λ i, if isPaid (cell_view pg memberId i)
             then pendingAmount (cell_view pg memberId i)
             else monthly_fee_base pg) <$> seq 0 12)
  ∧ (∀ i, isPartial (cell_view pg memberId i)
          = (0 <? pendingAmount (cell_view pg memberId i)))
  ∧ (∀ i, isPPBenefit (cell_view pg memberId i) = true →
          isPartial (cell_view pg memberId i) = false
          ∧ pendingAmount (cell_view pg memberId i) = 0)
  ∧ (∀ i, isPaid (cell_view pg memberId i) = false →
          isPPBenefit (cell_view pg memberId i) = false
          ∧ pendingAmount (cell_view pg memberId i) = 0).
Proof.
  split_and!.
  - unfold adeudado_of, for_range. rewrite for_upto_always.
    change (12 - 0)%nat with 12%nat.
    assert (H : ∀ l acc,
      foldl (λ s j, adeudado_step pg memberId j s) acc l
      = acc + foldr Z.add 0
                ((λ i, if isPaid (cell_view pg memberId i)
                       then pendingAmount (cell_view pg memberId i)
                       else monthly_fee_base pg) <$> l)).
    { induction l as [|j l IH]; intros acc; csimpl; [lia |].
      rewrite IH. unfold adeudado_step, cell_view, is_benefit. simpl.
      destruct (payments pg !! _) as [p|]; simpl; [| lia].
      destruct (bool_decide _); simpl; [lia |].
      destruct (pay_amount p <? monthly_fee_base pg); simpl; lia. }
    rewrite H. lia.
  - intros i. unfold cell_view, is_benefit. simpl.
    destruct (payments pg !! _) as [p|]; simpl; [| done].
    destruct (bool_decide _); simpl; [done |].
    destruct (Z.ltb_spec (pay_amount p) (monthly_fee_base pg)); simpl; lia.
  - intros i. unfold cell_view, is_benefit. simpl.
    destruct (payments pg !! _) as [p|]; simpl; [| done].
    by intros ->.
  - intros i. unfold cell_view, is_benefit. simpl.
    by destruct (payments pg !! _) as [p|].
Qed.

(** ** Months with and without an entry *)

Lemma month_year_label_inj cur next i j :
  (i < 12)%nat → (j < 12)%nat →
  month_year_label (getMonthYear cur next i).1 (getMonthYear cur next i).2
  = month_year_label (getMonthYear cur next j).1 (getMonthYear cur next j).2 →
  i = j.
Proof.
  intros Hi Hj Heq.
  apply (getMonthYear_inj cur next); [done | done |].
  apply (slotKey_inj "" _ (getMonthYear cur next i).2 _
           (getMonthYear cur next j).2);
    auto using getMonthYear_month_range.
  unfold slotKey. unfold month_year_label in Heq. by rewrite Heq.
Qed.

Lemma existing_loop pg memberId (l : list nat) (acc : gset string) :
  foldl (λ s j, existing_step pg memberId j s) acc l
  = acc ∪ list_to_set
            ((λ i, month_year_label
                     (getMonthYear (currentCalendarYear pg)
                        (nextCalendarYear pg) i).1
                     (getMonthYear (currentCalendarYear pg)
                        (nextCalendarYear pg) i).2)
               <$> filter (λ i, is_Some (slot_entry pg memberId i)) l).
Proof.
  revert acc. induction l as [|i l IH]; intros acc.
  - simpl. set_solver.
  - cbn [foldl]. rewrite IH, filter_cons.
    assert (Hstep : existing_step pg memberId i acc
      = match slot_entry pg memberId i with
        | Some _ => acc ∪ {[ month_year_label
                               (getMonthYear (currentCalendarYear pg)
                                  (nextCalendarYear pg) i).1
                               (getMonthYear (currentCalendarYear pg)
                                  (nextCalendarYear pg) i).2 ]}
        | None => acc
        end) by reflexivity.
    rewrite Hstep.
    destruct (slot_entry pg memberId i) as [p|].
    + rewrite decide_True by eauto. csimpl. set_solver.
    + rewrite decide_False by (by intros [? ?]). done.
Qed.

Lemma filter_split_length {A : Type} (P Q : A → Prop)
    `{!∀ x, Decision (P x)} `{!∀ x, Decision (Q x)} (l : list A) :
  (∀ x, P x ↔ ¬ Q x) →
  (length (filter P l) + length (filter Q l) = length l)%nat.
Proof.
  intros HPQ. induction l as [|x l IH]; [done |].
  rewrite !filter_cons.
  destruct (decide (P x)) as [HP|HP], (decide (Q x)) as [HQ|HQ]; simpl;
    try lia.
  - by apply HPQ in HP.
  - exfalso. apply HP, HPQ, HQ.
Qed.

(** X3. The set [getExistingPaymentsForMember] hands to the advance
    payment dialog holds the label of a fiscal month exactly when that
    month has an entry, and together with the months quick-pay collects
    as pending it accounts for the twelve months of the fiscal year:
    every month is in one of the two and in one only. *)
Theorem getExistingPaymentsForMember_pending pg memberId :
  (∀ i, (i < 12)%nat →
     month_year_label
       (getMonthYear (currentCalendarYear pg) (nextCalendarYear pg) i).1
       (getMonthYear (currentCalendarYear pg) (nextCalendarYear pg) i).2
     ∈ getExistingPaymentsForMember pg memberId
     ↔ is_Some (payments pg !! getPaymentKey (currentCalendarYear pg)
                                 (nextCalendarYear pg) memberId i))
  ∧ (∀ i, (i < 12)%nat →
     month_year_label
       (getMonthYear (currentCalendarYear pg) (nextCalendarYear pg) i).1
       (getMonthYear (currentCalendarYear pg) (nextCalendarYear pg) i).2
     ∈ getExistingPaymentsForMember pg memberId
     ↔ i ∉ pm_monthIndex <$> currentYearPending pg memberId)
  ∧ (size (getExistingPaymentsForMember pg memberId)
     + length (currentYearPending pg memberId) = 12)%nat.
Proof.
  assert (Hset : getExistingPaymentsForMember pg memberId
    = list_to_set
        ((λ i, month_year_label
                 (getMonthYear (currentCalendarYear pg)
                    (nextCalendarYear pg) i).1
                 (getMonthYear (currentCalendarYear pg)
                    (nextCalendarYear pg) i).2)
           <$> filter (λ i, is_Some (slot_entry pg memberId i)) (seq 0 12))).
  { unfold getExistingPaymentsForMember, for_range.
    rewrite for_upto_always, existing_loop. set_solver. }
  assert (Hmem : ∀ i, (i < 12)%nat →
     month_year_label
       (getMonthYear (currentCalendarYear pg) (nextCalendarYear pg) i).1
       (getMonthYear (currentCalendarYear pg) (nextCalendarYear pg) i).2
     ∈ getExistingPaymentsForMember pg memberId
     ↔ is_Some (slot_entry pg memberId i)).
  { intros i Hi. rewrite Hset, elem_of_list_to_set, list_elem_of_fmap.
    split.
    - intros (j & Heq & Hj). apply list_elem_of_filter in Hj as [Hsome Hj].
      apply elem_of_seq in Hj.
      apply month_year_label_inj in Heq; [| done | lia]. by subst j.
    - intros Hsome. exists i. split; [done |].
      apply list_elem_of_filter. split; [done |]. apply elem_of_seq. lia. }
  split_and!.
  - exact Hmem.
  - intros i Hi. rewrite (Hmem i Hi), currentYearPending_empty_slots,
      <- list_fmap_compose, list_fmap_id.
    unfold empty_slots. rewrite list_elem_of_filter, elem_of_seq.
    destruct (slot_entry pg memberId i) as [p|].
    + split; [| eauto]. intros _ [Hnone _]. done.
    + split; [by intros [? ?] |]. intros H. exfalso. apply H.
      split; [done | lia].
  - rewrite Hset, size_list_to_set.
    + rewrite currentYearPending_empty_slots, !length_fmap.
      unfold empty_slots.
      rewrite (filter_split_length _ (λ i, slot_entry pg memberId i = None));
        [by rewrite length_seq |].
      intros i. destruct (slot_entry pg memberId i) as [p|].
      * split; [intros _ H; discriminate H | intros _; eauto].
      * split; [by intros [? ?] | intros H; by exfalso].
    + apply NoDup_fmap_2_strong; [| apply NoDup_filter, NoDup_seq].
      intros i j [_ Hi%elem_of_seq]%list_elem_of_filter
        [_ Hj%elem_of_seq]%list_elem_of_filter Heq.
      apply month_year_label_inj in Heq; [done | lia | lia].
Qed.

(** The fiscal year 2025-2026 of member m1 with three months paid: the
    label of August is in the set, that of October is not. *)
Lemma getExistingPaymentsForMember_pending_witness :
  "8-2025" ∈ getExistingPaymentsForMember
               (ex_page ex_ledger_three None None None) "m1"
  ∧ "10-2025" ∉ getExistingPaymentsForMember
                  (ex_page ex_ledger_three None None None) "m1".
Proof.
  destruct (getExistingPaymentsForMember_pending
              (ex_page ex_ledger_three None None None) "m1")
    as (Hmem & _ & _).
  split.
  - apply (Hmem 1%nat); [lia |]. vm_compute. eauto.
  - intros Hin. apply (Hmem 3%nat) in Hin; [| lia].
    vm_compute in Hin. destruct Hin as [p Hp]. discriminate Hp.
Defined.

(** Two rows of member m1 with different months are both found. *)
Lemma loadData_paymentsMap_witness :
  paymentsMap [ex_entry "p1" 7 2025 30 ty_regular;
               ex_entry "p2" 8 2025 50 ty_regular]
    !! "m1-8-2025"
  = Some (ex_entry "p2" 8 2025 50 ty_regular).
Proof.
  destruct (loadData_paymentsMap (ex_page ∅ None None None) None
              [ex_entry "p1" 7 2025 30 ty_regular;
               ex_entry "p2" 8 2025 50 ty_regular])
    as (_ & _ & _ & Hunique & _).
  destruct Hunique as (Hfound & _ & _).
  - vm_compute. repeat constructor; set_solver.
  - apply (Hfound (ex_entry "p2" 8 2025 50 ty_regular)).
    set_solver.
Defined.

(** ** The distribution on doubles *)




(** A scanning loop on doubles, over the indices from [i], [n] of them:
    it returns, and what it adds to the plan are slots of months it
    visited, in the order of the visit. *)
Lemma fill_loop_double pg memberId n i (st : float * list Update_double) :
  (i + n ≤ 12)%nat →
  ∃ rem' new months,
    for_uptoM n i (λ st : float * list Update_double, (0 <? st.1)%float)
      (fill_step_double pg memberId) st
    = Some (rem', st.2 ++ new)
    ∧ Forall2 (planned_slot_double pg memberId) months new
    ∧ months `sublist_of` seq i n.
Proof.
  revert i st. induction n as [|n IH]; intros i [rem updates] Hi.
  - exists rem, [], []. cbn [for_uptoM snd seq]. rewrite app_nil_r.
    split_and!; [reflexivity | constructor | constructor].
  - rewrite for_uptoM_S. cbn [fst snd].
    destruct (0 <? rem)%float.
    2: { exists rem, [], []. rewrite app_nil_r.
         split_and!; [reflexivity | constructor | apply sublist_nil_l]. }
    unfold fill_step_double at 1. rewrite allFM_lookup by lia.
    cbn [fm_key fm_month fm_year].
    change (payments pg !! getPaymentKey (currentCalendarYear pg)
                             (nextCalendarYear pg) memberId i)
      with (slot_entry pg memberId i).
    assert (Hskip : ∃ rem' new months,
      for_uptoM n (S i) (λ st : float * list Update_double, (0 <? st.1)%float)
        (fill_step_double pg memberId) (rem, updates)
      = Some (rem', updates ++ new)
      ∧ Forall2 (planned_slot_double pg memberId) months new
      ∧ months `sublist_of` seq i (S n)).
    { destruct (IH (S i) (rem, updates)) as (rem' & new & months & Hrun & Hall
                                             & Hsub); [lia |].
      exists rem', new, months. split_and!; [exact Hrun | exact Hall |].
      cbn [seq]. by apply sublist_cons. }
    destruct (is_benefit (slot_entry pg memberId i)
              || match slot_entry pg memberId i with
                 | Some p => (double_of_cents (monthly_fee_base pg)
                              <=? double_of_cents (pay_amount p))%float
                 | None => false
                 end) eqn:Hpaid; [exact Hskip |].
    cbv zeta.
    destruct (double_of_cents (monthly_fee_base pg)
              - amount_or_0_double (slot_entry pg memberId i) <=? 0)%float;
      [exact Hskip |].
    clear Hskip. apply orb_false_elim in Hpaid as [Hbenefit Hless].
    match goal with
    | |- context [for_uptoM n (S i) _ _ (?r, updates ++ [?u])] =>
        destruct (IH (S i) (r, updates ++ [u]))
          as (rem' & new & months & Hrun & Hall & Hsub); [lia |];
        exists rem', (u :: new), (i :: months)
    end.
    split_and!.
    + rewrite Hrun. cbn [snd]. by rewrite <- app_assoc.
    + constructor; [| exact Hall].
      unfold planned_slot_double. cbn [ud_key ud_month ud_year ud_existing].
      split_and!; [reflexivity | symmetry; apply surjective_pairing
                  | reflexivity | exact Hbenefit |].
      intros p Hp. by rewrite Hp in Hless.
    + cbn [seq]. by apply sublist_skip.
Qed.

(** The three steps on doubles, for a selection left by a click on an
    empty cell: loop 1 returns; step 2 plans the clicked month exactly
    when loop 1 leaves more than zero; loop 3 returns. *)
Lemma distribute_double_steps pg sp (lumpSum : float) :
  well_selected pg sp →
  ∃ rem1 before earlier rem after later,
    backfill_double pg sp lumpSum = Some (rem1, before)
    ∧ distribute_double pg sp lumpSum
      = Some (rem,
              before
              ++ (if (0 <? rem1)%float then [clicked_slot_double pg sp rem1]
                  else [])
              ++ after)
    ∧ Forall2 (planned_slot_double pg (sp_memberId sp)) earlier before
    ∧ earlier `sublist_of` seq 0 (sp_monthIndex sp)
    ∧ Forall2 (planned_slot_double pg (sp_memberId sp)) later after
    ∧ later `sublist_of` seq (sp_monthIndex sp + 1)
                           (12 - (sp_monthIndex sp + 1)).
Proof.
  intros (Hidx & Hmy & Hentry).
  unfold backfill_double, distribute_double, for_rangeM.
  rewrite Nat.sub_0_r.
  destruct (fill_loop_double pg (sp_memberId sp) (sp_monthIndex sp) 0
              (lumpSum, []))
    as (rem1 & before & earlier & -> & Hbefore & Hearlier); [lia |].
  cbn [snd app]. unfold selected_step_double.
  exists rem1, before, earlier.
  destruct (0 <? rem1)%float.
  - rewrite allFM_lookup by done. cbn [fm_key].
    fold (clicked_slot_double pg sp rem1).
    match goal with
    | |- context [for_uptoM _ _ _ _ (?r, before ++ [?u])] =>
        destruct (fill_loop_double pg (sp_memberId sp)
                    (12 - (sp_monthIndex sp + 1)) (sp_monthIndex sp + 1)
                    (r, before ++ [u]))
          as (rem & after & later & -> & Hafter & Hlater); [lia |]
    end.
    exists rem, after, later. cbn [snd].
    split_and!; [reflexivity | by rewrite <- app_assoc | done | done | done
                | done].
  - destruct (fill_loop_double pg (sp_memberId sp)
                (12 - (sp_monthIndex sp + 1)) (sp_monthIndex sp + 1)
                (rem1, before))
      as (rem & after & later & -> & Hafter & Hlater); [lia |].
    exists rem, after, later. cbn [snd app].
    split_and!; [reflexivity | reflexivity | done | done | done | done].
Qed.

(** The doubles of the decimals used below, as JavaScript holds them. *)
Example double_of_cents_values :
  double_of_cents 423 = 0x1.0eb851eb851ecp+2%float
  ∧ double_of_cents 4577 = 0x1.6e28f5c28f5c3p+5%float
  ∧ double_of_cents 5000 = 50%float
  ∧ double_of_cents 1010 = 0x1.4333333333333p+3%float
  ∧ double_of_cents 3030 = 0x1.e4ccccccccccdp+4%float.
Proof. split_and!; vm_compute; reflexivity. Qed.

(** The click on the empty August of member m1, July holding 4.23, at a
    fee of 50.00. *)
Lemma ex_well_selected_423 :
  well_selected (ex_page_cents 5000 ex_ledger_423 1)
    (ex_selected ex_ledger_423 1).
Proof.
  unfold well_selected. split_and!.
  - simpl. lia.
  - reflexivity.
  - vm_compute. reflexivity.
Qed.

(** C1. The plan the page computes is not always that of the three
    passes: on doubles a remainder that is zero in decimals can be a
    residue of rounding, and the loops go on where the passes stop.
    At a fee of 50.00, with July holding 4.23, a payment of 45.77 on the
    empty August is what July owes: the passes top July up and plan
    nothing else. The page tops July up to 50 and plans an entry for
    August of 2^-47 (7.1e-15). At a fee of 10.10 and an empty ledger, a
    payment of 30.30 on July is three fees: the passes plan July to
    September; the page plans July to October, October with 2^-48
    (3.6e-15). *)
Theorem distribute_double_residue_slot :
  distribute_double (ex_page_cents 5000 ex_ledger_423 1)
    (ex_selected ex_ledger_423 1) (double_of_cents 4577)
  = Some (0%float,
          [ {| ud_key := "m1-7-2025"; ud_month := 7; ud_year := 2025;
               ud_newAmt := double_of_cents 5000;
               ud_existing := Some (ex_entry "p1" 7 2025 423 ty_regular) |};
            {| ud_key := "m1-8-2025"; ud_month := 8; ud_year := 2025;
               ud_newAmt := 0x1p-47; ud_existing := None |} ])
  ∧ allocation_plan (ex_page_cents 5000 ex_ledger_423 1) "m1" 1 4577
    = (0, [ {| u_key := "m1-7-2025"; u_month := 7; u_year := 2025;
               u_newAmt := 5000;
               u_existing := Some (ex_entry "p1" 7 2025 423 ty_regular) |} ])
  ∧ distribute_double (ex_page_cents 1010 ∅ 0) (ex_selected ∅ 0)
      (double_of_cents 3030)
    = Some (0%float,
            [ {| ud_key := "m1-7-2025"; ud_month := 7; ud_year := 2025;
                 ud_newAmt := double_of_cents 1010; ud_existing := None |};
              {| ud_key := "m1-8-2025"; ud_month := 8; ud_year := 2025;
                 ud_newAmt := double_of_cents 1010; ud_existing := None |};
              {| ud_key := "m1-9-2025"; ud_month := 9; ud_year := 2025;
                 ud_newAmt := double_of_cents 1010; ud_existing := None |};
              {| ud_key := "m1-10-2025"; ud_month := 10; ud_year := 2025;
                 ud_newAmt := 0x1p-48; ud_existing := None |} ])
  ∧ allocation_plan (ex_page_cents 1010 ∅ 0) "m1" 0 3030
    = (0, [ {| u_key := "m1-7-2025"; u_month := 7; u_year := 2025;
               u_newAmt := 1010; u_existing := None |};
            {| u_key := "m1-8-2025"; u_month := 8; u_year := 2025;
               u_newAmt := 1010; u_existing := None |};
            {| u_key := "m1-9-2025"; u_month := 9; u_year := 2025;
               u_newAmt := 1010; u_existing := None |} ]).
Proof. split_and!; vm_compute; reflexivity. Qed.


(** X4. Oldest month first, on the doubles the page computes with, for
    every ledger and every lump sum, NaN included. For a selection left
    by a click on an empty cell the distribution returns a plan. Its
    slots are months of the fiscal year in fiscal order, each planned at
    most once: months before the clicked one, the clicked one, months
    after it. Every slot carries the entry the ledger holds for its
    month, and a benefit month or a month that holds the fee or more is
    never in the plan. *)
Theorem distribute_double_oldest_first pg sp (lumpSum : float) :
  well_selected pg sp →
  sp_payment sp = None →
  ∃ rem plan months,
    distribute_double pg sp lumpSum = Some (rem, plan)
    ∧ Forall2 (planned_slot_double pg (sp_memberId sp)) months plan
    ∧ months `sublist_of` seq 0 12.
Proof.
  intros Hsel Hempty.
  destruct (distribute_double_steps pg sp lumpSum Hsel)
    as (rem1 & before & earlier & rem & after & later & _ & Hrun & Hbefore
        & Hearlier & Hafter & Hlater).
  destruct Hsel as (Hidx & Hmy & Hentry).
  exists rem, (before
               ++ (if (0 <? rem1)%float then [clicked_slot_double pg sp rem1]
                   else [])
               ++ after),
    (earlier ++ (if (0 <? rem1)%float then [sp_monthIndex sp] else [])
             ++ later).
  split_and!.
  - exact Hrun.
  - apply Forall2_app; [exact Hbefore |].
    apply Forall2_app; [| exact Hafter].
    destruct (0 <? rem1)%float; [| constructor].
    constructor; [| constructor].
    unfold planned_slot_double, clicked_slot_double.
    cbn [ud_key ud_month ud_year ud_existing].
    rewrite <- Hentry, Hempty.
    split_and!; [reflexivity | exact Hmy | reflexivity | reflexivity |].
    intros p Hp. discriminate Hp.
  - rewrite (seq_split_at (sp_monthIndex sp)) by done.
    apply sublist_app; [exact Hearlier |].
    change (sp_monthIndex sp
            :: seq (sp_monthIndex sp + 1) (12 - (sp_monthIndex sp + 1)))
      with ([sp_monthIndex sp]
            ++ seq (sp_monthIndex sp + 1) (12 - (sp_monthIndex sp + 1))).
    apply sublist_app; [| exact Hlater].
    destruct (0 <? rem1)%float; [reflexivity | apply sublist_nil_l].
Qed.

Lemma distribute_double_oldest_first_witness :
  ∃ rem plan months,
    distribute_double (ex_page_cents 5000 ex_ledger_423 1)
      (ex_selected ex_ledger_423 1) (double_of_cents 4577)
    = Some (rem, plan)
    ∧ Forall2 (planned_slot_double (ex_page_cents 5000 ex_ledger_423 1) "m1")
        months plan
    ∧ months `sublist_of` seq 0 12.
Proof.
  apply (distribute_double_oldest_first (ex_page_cents 5000 ex_ledger_423 1)
           (ex_selected ex_ledger_423 1) (double_of_cents 4577)).
  - exact ex_well_selected_423.
  - vm_compute. reflexivity.
Defined.



(** A month that is topped up need not end at the fee. At a fee of
    10.10, 20.00 paid on August: July holding 0.54 ends at
    10.099999999999998, below the fee; July holding 0.71 ends at
    10.100000000000001, above it. *)
Example distribute_double_topped_up :
  (∃ rem july rest,
     distribute_double
       (ex_page_cents 1010
          {[ "m1-7-2025" := ex_entry "p1" 7 2025 54 ty_regular ]} 1)
       (ex_selected {[ "m1-7-2025" := ex_entry "p1" 7 2025 54 ty_regular ]} 1)
       (double_of_cents 2000)
     = Some (rem, july :: rest)
     ∧ ud_month july = 7
     ∧ (ud_newAmt july <? double_of_cents 1010)%float = true)
  ∧ (∃ rem july rest,
       distribute_double
         (ex_page_cents 1010
            {[ "m1-7-2025" := ex_entry "p1" 7 2025 71 ty_regular ]} 1)
         (ex_selected {[ "m1-7-2025" := ex_entry "p1" 7 2025 71 ty_regular ]}
            1)
         (double_of_cents 2000)
       = Some (rem, july :: rest)
       ∧ ud_month july = 7
       ∧ (double_of_cents 1010 <? ud_newAmt july)%float = true).
Proof.
  split; do 3 eexists; (split_and!; [vm_compute; reflexivity | reflexivity |]);
    vm_compute; reflexivity.
Qed.

(** ** A new payment against any store *)




Lemma upload_step w (file : option File) folder (otherwise : option string) :
  match file with
  | Some f => uploadReceipt w f folder
  | None => ret otherwise
  end
  = (upload_calls file folder,
     match file with
     | Some f => match w_upload w f folder with
                 | Some url => inr (Some url)
                 | None => inl "Error al subir comprobante"
                 end
     | None => inr otherwise
     end).
Proof.
  destruct file as [f|]; [| reflexivity].
  unfold uploadReceipt. by destruct (w_upload w f folder).
Qed.

Lemma upload_calls_quiet (file : option File) folder :
  ledger_calls (upload_calls file folder) = []
  ∧ snapshots (upload_calls file folder) = []
  ∧ toasts (upload_calls file folder) = []
  ∧ pending_receipts (upload_calls file folder) = []
  ∧ CLoadData ∉ upload_calls file folder.
Proof.
  destruct file as [f|]; (split_and!; [done | done | done | done |]).
  - intros Hin. apply list_elem_of_singleton in Hin. done.
  - apply not_elem_of_nil.
Qed.






(** ** Handlers end in order *)

Lemma try_catch_finally_result body handler fin :
  (∀ e, (handler e).2 = inr tt) → fin.2 = inr tt →
  (try_catch_finally body handler fin).2 = inr tt.
Proof.
  intros Hh Hf. unfold try_catch_finally.
  destruct body as [l [e|[]]].
  - specialize (Hh e). destruct (handler e) as [l' r], fin as [l'' r'].
    simpl in *. by subst.
  - destruct fin as [l'' r']. simpl in *. by subst.
Qed.

Lemma try_catch_finally_last body handler fin c :
  fin.1 = [c] → last (try_catch_finally body handler fin).1 = Some c.
Proof.
  intros Hf. rewrite try_catch_finally_log, Hf, !app_assoc.
  apply last_snoc.
Qed.

(** X8. No error escapes the three handlers, whatever the storage and
    the store answer: each ends normally. A handler that raised its busy
    flag lowers it as its last act; with nothing selected, or no dialog
    open, a handler does nothing at all. *)
Theorem handlers_end_in_order w pg data :
  (handleSavePayment w pg).2 = inr tt
  ∧ (handleQuickPay w pg).2 = inr tt
  ∧ (handleAdvancePayment w pg data).2 = inr tt
  ∧ (∀ c, c ∈ (handleSavePayment w pg).1 →
       head (handleSavePayment w pg).1 = Some (CSetFlag "uploading" true)
       ∧ last (handleSavePayment w pg).1 = Some (CSetFlag "uploading" false))
  ∧ (CSetFlag "processingQuickPay" true ∈ (handleQuickPay w pg).1 →
       last (handleQuickPay w pg).1
       = Some (CSetFlag "processingQuickPay" false))
  ∧ (∀ c, c ∈ (handleAdvancePayment w pg data).1 →
       head (handleAdvancePayment w pg data).1
       = Some (CSetFlag "processingAdvancePayment" true)
       ∧ last (handleAdvancePayment w pg data).1
         = Some (CSetFlag "processingAdvancePayment" false))
  ∧ (selectedPayment pg = None → handleSavePayment w pg = ([], inr tt))
  ∧ (showQuickPay pg = None → handleQuickPay w pg = ([], inr tt))
  ∧ (showAdvancePayment pg = None →
       handleAdvancePayment w pg data = ([], inr tt)).
Proof.
  assert (Hsave : ∀ sp, selectedPayment pg = Some sp →
    (handleSavePayment w pg).2 = inr tt
    ∧ head (handleSavePayment w pg).1 = Some (CSetFlag "uploading" true)
    ∧ last (handleSavePayment w pg).1 = Some (CSetFlag "uploading" false)).
  { intros sp Hsp. unfold handleSavePayment. rewrite Hsp, bind_call.
    cbn [fst snd]. split_and!.
    - apply try_catch_finally_result; [| done].
      intros e. by rewrite !bind_call.
    - reflexivity.
    - rewrite last_cons, try_catch_finally_last with (c := CSetFlag "uploading" false);
        done. }
  assert (Hadv : ∀ ap, showAdvancePayment pg = Some ap →
    (handleAdvancePayment w pg data).2 = inr tt
    ∧ head (handleAdvancePayment w pg data).1
      = Some (CSetFlag "processingAdvancePayment" true)
    ∧ last (handleAdvancePayment w pg data).1
      = Some (CSetFlag "processingAdvancePayment" false)).
  { intros ap Hap. unfold handleAdvancePayment. rewrite Hap, bind_call.
    cbn [fst snd]. split_and!.
    - by apply try_catch_finally_result.
    - reflexivity.
    - rewrite last_cons,
        try_catch_finally_last
          with (c := CSetFlag "processingAdvancePayment" false); done. }
  assert (Hquick :
    (handleQuickPay w pg).2 = inr tt
    ∧ (CSetFlag "processingQuickPay" true ∈ (handleQuickPay w pg).1 →
       last (handleQuickPay w pg).1
       = Some (CSetFlag "processingQuickPay" false))).
  { unfold handleQuickPay.
    destruct (showQuickPay pg) as [qp|];
      [| split; [done | by intros Hin%elem_of_nil]].
    assert (Hone : ∀ t, CSetFlag "processingQuickPay" true ∉ [CToast t]).
    { intros t Hin%list_elem_of_singleton. done. }
    destruct (quickPayAmount pg) as [parsedAmount|];
      [| split; [done | by intros Hin%Hone]].
    destruct (bool_decide (parsedAmount = 0) || (parsedAmount <=? 0));
      [split; [done | by intros Hin%Hone] |].
    destruct (negb (truthy (quickPayDate pg)));
      [split; [done | by intros Hin%Hone] |].
    rewrite bind_call. cbn [fst snd]. split.
    - by apply try_catch_finally_result.
    - intros _.
      rewrite last_cons,
        try_catch_finally_last
          with (c := CSetFlag "processingQuickPay" false); done. }
  split_and!.
  - destruct (selectedPayment pg) as [sp|] eqn:Hsp; [by apply (Hsave sp) |].
    unfold handleSavePayment. by rewrite Hsp.
  - apply Hquick.
  - destruct (showAdvancePayment pg) as [ap|] eqn:Hap; [by apply (Hadv ap) |].
    unfold handleAdvancePayment. by rewrite Hap.
  - intros c Hc. destruct (selectedPayment pg) as [sp|] eqn:Hsp.
    + by destruct (Hsave sp eq_refl) as (_ & ? & ?).
    + unfold handleSavePayment in Hc. rewrite Hsp in Hc.
      by apply elem_of_nil in Hc.
  - apply Hquick.
  - intros c Hc. destruct (showAdvancePayment pg) as [ap|] eqn:Hap.
    + by destruct (Hadv ap eq_refl) as (_ & ? & ?).
    + unfold handleAdvancePayment in Hc. rewrite Hap in Hc.
      by apply elem_of_nil in Hc.
  - intros Hsp. unfold handleSavePayment. by rewrite Hsp.
  - intros Hqp. unfold handleQuickPay. by rewrite Hqp.
  - intros Hap. unfold handleAdvancePayment. by rewrite Hap.
Qed.

(** ** Quick-pay: validation, receipt and coverage *)

(** X9. The validations of quick-pay, in their order: an amount that is
    missing, zero or negative is refused with "El monto debe ser mayor a
    0", whatever the date; a positive amount without a date is refused
    with "Debe seleccionar una fecha de pago". A refusal is one message
    and nothing else: no busy flag, no upload, no call on the ledger. *)
Theorem handleQuickPay_validation w pg qp :
  showQuickPay pg = Some qp →
  ((∀ parsedAmount, quickPayAmount pg = Some parsedAmount → parsedAmount ≤ 0) →
   handleQuickPay w pg = ([CToast toast_amount_required], inr tt))
  ∧ (∀ parsedAmount,
       quickPayAmount pg = Some parsedAmount → 0 < parsedAmount →
       quickPayDate pg = "" →
       handleQuickPay w pg = ([CToast toast_date_required], inr tt))
  ∧ (∀ parsedAmount,
       quickPayAmount pg = Some parsedAmount → 0 < parsedAmount →
       quickPayDate pg ≠ "" →
       head (handleQuickPay w pg).1
       = Some (CSetFlag "processingQuickPay" true)).
Proof.
  intros Hqp. unfold handleQuickPay. rewrite Hqp. split_and!.
  - intros Hamt.
    destruct (quickPayAmount pg) as [parsedAmount|]; [| reflexivity].
    rewrite amount_test. specialize (Hamt parsedAmount eq_refl).
    by assert ((parsedAmount <=? 0) = true) as -> by lia.
  - intros parsedAmount -> Hpos ->. rewrite amount_test.
    by assert ((parsedAmount <=? 0) = false) as -> by lia.
  - intros parsedAmount -> Hpos Hdate.
    rewrite amount_test, truthy_nonempty by done.
    assert ((parsedAmount <=? 0) = false) as -> by lia.
    cbn [negb]. by rewrite bind_call.
Qed.

Lemma handleQuickPay_validation_witness :
  handleQuickPay ex_world (ex_page ex_ledger_three None None (Some (-40)))
  = ([CToast toast_amount_required], inr tt).
Proof.
  destruct (handleQuickPay_validation ex_world
              (ex_page ex_ledger_three None None (Some (-40)))
              {| qp_memberId := "m1"; qp_memberName := "Ana";
                 qp_defaultAmount := 50 |} eq_refl) as (Hamount & _).
  apply Hamount. intros parsedAmount [= <-]. lia.
Defined.

Lemma sum_constant {A : Type} (c : Z) (l : list A) :
  foldr Z.add 0 ((λ _, c) <$> l) = c * Z.of_nat (length l).
Proof.
  induction l as [|x l IH]; csimpl; [lia |]. rewrite IH. lia.
Qed.

Lemma cache_calls_quiet (rows : list Payment) :
  pending_receipts (CCache <$> rows) = [] ∧ toasts (CCache <$> rows) = [].
Proof.
  induction rows as [|p rows [IHr IHt]]; [done |].
  split; [exact IHr | exact IHt].
Qed.

(** The [try] block when a month is pending and the attached file is
    stored: one insert; then, if the store took it, the cache, the
    pending receipt, a message and the reload. *)
Lemma quick_pay_body_insert w pg qp parsedAmount :
  upload_accepted w (quickPayReceipt pg) "quick-pay" →
  (length (currentYearPending pg (qp_memberId qp)) =? 0)%nat = false →
  let pending := currentYearPending pg (qp_memberId qp) in
  let rows := quick_pay_rows (qp_memberId qp) parsedAmount (quickPayDate pg)
                (bulk_receipt w (quickPayReceipt pg) "quick-pay")
                (w_randomUUID w) pending in
  match w_insert w rows with
  | inl error =>
      quick_pay_body w pg qp parsedAmount
      = (upload_calls (quickPayReceipt pg) "quick-pay" ++ [CInsert rows],
         inl error)
  | inr insertedPayments =>
      ∃ t, toast_variant t = None
        ∧ quick_pay_body w pg qp parsedAmount
          = (upload_calls (quickPayReceipt pg) "quick-pay"
             ++ CInsert rows
                :: (CCache <$> match insertedPayments with
                               | Some l => l
                               | None => []
                               end)
                ++ [CSetPendingReceipt "quickPay"
                      (quick_pay_receipt pg qp
                         (parsedAmount
                          * Z.of_nat (length (monthsToPay pending))));
                    CToast t; CLoadData],
             inr tt)
  end.
Proof.
  intros Hup Hn pending rows. unfold quick_pay_body.
  rewrite upload_step.
  assert (Hurl :
    match quickPayReceipt pg with
    | Some f => match w_upload w f "quick-pay" with
                | Some url => inr (Some url)
                | None => inl "Error al subir comprobante"
                end
    | None => inr None
    end = inr (bulk_receipt w (quickPayReceipt pg) "quick-pay")
            :> (string + option string)).
  { unfold bulk_receipt. destruct (quickPayReceipt pg) as [f|]; [| done].
    by destruct (Hup f eq_refl) as [url ->]. }
  rewrite Hurl, bind_value. subst pending rows. cbv zeta. rewrite Hn.
  rewrite bind_call.
  destruct (w_insert w _) as [error|insertedPayments].
  - reflexivity.
  - eexists. split; [| rewrite cache_loop, bind_value, !bind_call;
                       cbn [fst snd call]; reflexivity].
    reflexivity.
Qed.

(** X10. Quick-pay past its validations, with a month pending and the
    attached file stored. The receipt left pending carries, as total and
    as amount paid, the amount times the number of months paid, at most
    eleven, which is the money of the rows written: the free month adds
    nothing. The receipt is left, with a message that is no error and a
    reload, only if the store took the insert; if it refused, no receipt
    is left, nothing is reloaded and the store's message is shown. *)
Theorem handleQuickPay_receipt w pg qp parsedAmount :
  showQuickPay pg = Some qp →
  quickPayAmount pg = Some parsedAmount →
  0 < parsedAmount →
  quickPayDate pg ≠ "" →
  upload_accepted w (quickPayReceipt pg) "quick-pay" →
  (1 ≤ length (empty_slots pg (qp_memberId qp)))%nat →
  let n := length (empty_slots pg (qp_memberId qp)) in
  let rows := quick_pay_rows (qp_memberId qp) parsedAmount (quickPayDate pg)
                (bulk_receipt w (quickPayReceipt pg) "quick-pay")
                (w_randomUUID w) (currentYearPending pg (qp_memberId qp)) in
  let log := (handleQuickPay w pg).1 in
  foldr Z.add 0 (nr_amount <$> rows) = parsedAmount * Z.of_nat (Nat.min n 11)
  ∧ match w_insert w rows with
    | inr _ =>
        pending_receipts log
        = [quick_pay_receipt pg qp (parsedAmount * Z.of_nat (Nat.min n 11))]
        ∧ (∃ t, toasts log = [t] ∧ toast_variant t = None)
        ∧ CLoadData ∈ log
    | inl error =>
        pending_receipts log = []
        ∧ toasts log = [toast_quick_pay_failed error]
        ∧ (CLoadData ∉ log)
    end.
Proof.
  intros Hqp Hamt Hpos Hdate Hup Hn n rows log.
  assert (Hpending : length (currentYearPending pg (qp_memberId qp)) = n).
  { by rewrite currentYearPending_empty_slots, length_fmap. }
  split.
  - unfold rows. rewrite quick_pay_rows_empty_slots.
    rewrite fmap_app, <- list_fmap_compose, foldr_app.
    assert (Hfree : foldr Z.add 0
              (nr_amount <$> match empty_slots pg (qp_memberId qp) !! 11%nat with
                             | Some i =>
                                 [quick_pay_entry pg (qp_memberId qp) 0
                                    ty_pronto_pago_benefit (quickPayDate pg)
                                    (bulk_receipt w (quickPayReceipt pg)
                                       "quick-pay")
                                    (w_randomUUID w) i]
                             | None => []
                             end) = 0).
    { by destruct (empty_slots pg (qp_memberId qp) !! 11%nat). }
    rewrite Hfree.
    etrans; [apply (sum_constant parsedAmount) |].
    rewrite length_take. fold n. f_equal. lia.
  - assert (Hnz : (length (currentYearPending pg (qp_memberId qp)) =? 0)%nat
                  = false) by (apply Nat.eqb_neq; lia).
    pose proof (quick_pay_body_insert w pg qp parsedAmount Hup Hnz) as Hbody.
    cbv zeta in Hbody. fold rows in Hbody.
    assert (Hmonths : length (monthsToPay
                                (currentYearPending pg (qp_memberId qp)))
                      = Nat.min n 11).
    { unfold monthsToPay. rewrite length_take, Hpending. lia. }
    rewrite Hmonths in Hbody.
    destruct (upload_calls_quiet (quickPayReceipt pg) "quick-pay")
      as (_ & _ & Hut & Hur & Hul).
    unfold log. rewrite (handleQuickPay_validated w pg qp parsedAmount) by done.
    rewrite bind_call. cbn [fst snd].
    rewrite try_catch_finally_log.
    destruct (w_insert w rows) as [error|insertedPayments].
    + rewrite Hbody. cbn [fst snd call]. split_and!.
      * change (pending_receipts (CSetFlag ?a ?b :: ?l))
          with (pending_receipts l).
        rewrite !pending_receipts_app, Hur. reflexivity.
      * change (toasts (CSetFlag ?a ?b :: ?l)) with (toasts l).
        rewrite !toasts_app, Hut. reflexivity.
      * rewrite not_elem_of_cons, !not_elem_of_app. split; [done |].
        split_and!; [done | | |].
        -- by intros Hin%list_elem_of_singleton.
        -- by intros Hin%list_elem_of_singleton.
        -- by intros Hin%list_elem_of_singleton.
    + destruct Hbody as (t & Ht & Hbody). rewrite Hbody.
      cbn [fst snd call]. split_and!.
      * change (pending_receipts (CSetFlag ?a ?b :: ?l))
          with (pending_receipts l).
        rewrite !pending_receipts_app, Hur. cbn [app].
        change (pending_receipts (CInsert ?r :: ?l))
          with (pending_receipts l).
        rewrite !pending_receipts_app.
        rewrite (proj1 (cache_calls_quiet _)). reflexivity.
      * exists t. split; [| done].
        change (toasts (CSetFlag ?a ?b :: ?l)) with (toasts l).
        rewrite !toasts_app, Hut. cbn [app].
        change (toasts (CInsert ?r :: ?l)) with (toasts l).
        rewrite !toasts_app.
        rewrite (proj2 (cache_calls_quiet _)). reflexivity.
      * apply list_elem_of_further, elem_of_app. left.
        apply elem_of_app. right.
        apply list_elem_of_further, elem_of_app. right.
        do 2 apply list_elem_of_further. apply list_elem_of_here.
Qed.

(** Quick-pay of 40 for member m1, whose July, August and September are
    paid: nine months are written and the receipt reads 360. *)
Lemma handleQuickPay_receipt_witness :
  pending_receipts
    (handleQuickPay ex_world (ex_page ex_ledger_three None None (Some 40))).1
  = [ {| rc_memberName := "Ana"; rc_totalAmount := 360; rc_amountPaid := 360;
         rc_paymentDate := "2025-08-15"; rc_remaining := 0 |} ].
Proof.
  destruct (handleQuickPay_receipt ex_world
              (ex_page ex_ledger_three None None (Some 40))
              {| qp_memberId := "m1"; qp_memberName := "Ana";
                 qp_defaultAmount := 50 |} 40)
    as (_ & Hreceipt & _).
  - reflexivity.
  - reflexivity.
  - lia.
  - discriminate.
  - intros f Hf. discriminate Hf.
  - vm_compute. lia.
  - etrans; [exact Hreceipt |]. vm_compute. reflexivity.
Defined.

Lemma take_11_lookup {A : Type} (l : list A) :
  (length l ≤ 12)%nat →
  take (Nat.min (length l) 11) l
  ++ match l !! 11%nat with Some x => [x] | None => [] end
  = l.
Proof.
  intros Hlen. destruct (l !! 11%nat) as [x|] eqn:Hx.
  - assert (length l = 12%nat) as Hl.
    { apply lookup_lt_Some in Hx. lia. }
    rewrite Hl. change (Nat.min 12 11) with 11%nat.
    rewrite <- (take_S_r l 11 x Hx). apply take_ge. lia.
  - apply lookup_ge_None in Hx. rewrite app_nil_r. apply take_ge. lia.
Qed.

(** X11. The rows of quick-pay go to the months of the fiscal year that
    have no entry, each of them once and in fiscal order, and all for the
    member of the dialog. So once the page shows a snapshot that holds
    what it held and the rows written, no month of that member is left
    pending: a second quick-pay finds nothing to write. *)
Theorem quick_pay_rows_cover pg memberId parsedAmount date receipt group :
  let rows := quick_pay_rows memberId parsedAmount date receipt group
                (currentYearPending pg memberId) in
  row_slot <$> rows
  = getMonthYear (currentCalendarYear pg) (nextCalendarYear pg)
      <$> empty_slots pg memberId
  ∧ Forall (λ r, nr_member_id r = memberId) rows
  ∧ NoDup (row_slot <$> rows)
  ∧ (∀ ledger,
       (∀ key, is_Some (payments pg !! key) → is_Some (ledger !! key)) →
       (∀ r, r ∈ rows →
          is_Some (ledger !! slotKey (nr_member_id r) (nr_month r)
                               (nr_year r))) →
       empty_slots (with_payments pg ledger) memberId = []
       ∧ currentYearPending (with_payments pg ledger) memberId = []).
Proof.
  intros rows.
  assert (Hslots : row_slot <$> rows
                   = getMonthYear (currentCalendarYear pg)
                       (nextCalendarYear pg) <$> empty_slots pg memberId).
  { unfold rows. rewrite quick_pay_rows_empty_slots.
    rewrite fmap_app, <- list_fmap_compose.
    rewrite <- (take_11_lookup (empty_slots pg memberId)
                  (empty_slots_length pg memberId)) at 4.
    rewrite fmap_app. f_equal.
    destruct (empty_slots pg memberId !! 11%nat) as [i|]; [| done].
    csimpl. unfold row_slot, quick_pay_entry. cbn [nr_month nr_year].
    by rewrite <- surjective_pairing. }
  assert (Hmember : Forall (λ r, nr_member_id r = memberId) rows).
  { unfold rows. rewrite quick_pay_rows_empty_slots.
    apply Forall_app. split.
    - apply Forall_fmap, Forall_forall. by intros i _.
    - destruct (empty_slots pg memberId !! 11%nat); by repeat constructor. }
  split_and!; [exact Hslots | exact Hmember | |].
  - rewrite Hslots. apply NoDup_fmap_2_strong.
    + intros i j Hi Hj Heq.
      unfold empty_slots in Hi, Hj.
      apply list_elem_of_filter in Hi as [_ Hi%elem_of_seq].
      apply list_elem_of_filter in Hj as [_ Hj%elem_of_seq].
      apply (getMonthYear_inj (currentCalendarYear pg) (nextCalendarYear pg));
        [lia | lia | by rewrite Heq].
    + unfold empty_slots. apply NoDup_filter, NoDup_seq.
  - intros ledger Hkeeps Hwritten.
    assert (Hnone : empty_slots (with_payments pg ledger) memberId = []).
    { destruct (empty_slots (with_payments pg ledger) memberId)
        as [|i rest] eqn:Hrest; [done |]. exfalso.
      assert (Hi : i ∈ empty_slots (with_payments pg ledger) memberId)
        by (rewrite Hrest; apply list_elem_of_here).
      unfold empty_slots in Hi.
      apply list_elem_of_filter in Hi as [Hempty Hi].
      assert (Hsome : is_Some (slot_entry (with_payments pg ledger)
                                 memberId i)).
      { unfold slot_entry. cbn [with_payments payments currentCalendarYear
                                 nextCalendarYear].
        destruct (slot_entry pg memberId i) as [p|] eqn:Hold.
        - apply Hkeeps. unfold slot_entry in Hold. by rewrite Hold.
        - assert (Hin : getMonthYear (currentCalendarYear pg)
                          (nextCalendarYear pg) i ∈ row_slot <$> rows).
          { rewrite Hslots. apply list_elem_of_fmap_2.
            unfold empty_slots. by apply list_elem_of_filter. }
          apply list_elem_of_fmap in Hin as (r & Hr & Hin).
          rewrite Forall_forall in Hmember.
          specialize (Hwritten r Hin). rewrite (Hmember r Hin) in Hwritten.
          rewrite getPaymentKey_slotKey, Hr. exact Hwritten. }
      rewrite Hempty in Hsome. by destruct Hsome. }
    split; [exact Hnone |].
    by rewrite currentYearPending_empty_slots, Hnone.
Qed.

(** ** The accumulated total of a table row *)

Lemma prefix_app (s other rest : string) :
  String.prefix s other = true → String.prefix s (other +:+ rest) = true.
Proof.
  revert other. induction s as [|a s IH]; intros other.
  - intros _. by destruct (other +:+ rest).
  - destruct other as [|b other]; [done |]. simpl.
    destruct (Ascii.ascii_dec a b); [apply IH | done].
Qed.

Lemma prefix_refl (s : string) : String.prefix s s = true.
Proof.
  induction s as [|a s IH]; [done |]. simpl.
  by destruct (Ascii.ascii_dec a a).
Qed.

Lemma accumulatedTotal_fresh pg member key p (ledger : gmap string Payment) :
  ledger !! key = None →
  accumulatedTotal (with_payments pg (<[key := p]> ledger)) member
  = accumulatedTotal (with_payments pg ledger) member
    + counted member key (Some p).
Proof.
  intros Hnone. rewrite !accumulatedTotal_zsum.
  cbn [with_payments payments].
  rewrite (zsum_permutation _
             ((λ kp : string * Payment, pay_amount kp.2) <$>
                filter (λ kp : string * Payment,
                          String.prefix (mem_id member) kp.1 = true
                          ∧ pay_payment_type kp.2
                            ≠ Some ty_pronto_pago_benefit)
                       ((key, p) :: map_to_list ledger))).
  2: { apply fmap_Permutation, filter_Permutation.
       by apply map_to_list_insert. }
  unfold counted.
  destruct (String.prefix (mem_id member) key) eqn:Hprefix;
    [destruct (bool_decide_reflect
                 (pay_payment_type p ≠ Some ty_pronto_pago_benefit))
       as [Htype|Htype] |].
  - rewrite filter_cons_True by done. csimpl. lia.
  - rewrite filter_cons_False by (cbn [fst snd]; tauto). cbn [andb]. lia.
  - rewrite filter_cons_False by (cbn [fst snd]; rewrite Hprefix; intros [? _]; done).
    cbn [andb]. lia.
Qed.

(** X12. The accumulated total of a table row under a change of the
    ledger: writing an entry under a key changes the total by what the
    new entry counts for less what the entry it replaces counted for. An
    entry counts its amount when its key starts with the member's id and
    it is no benefit month, and nothing otherwise. So the total is not
    limited to the fiscal year on display: an entry of the member in any
    month of any year counts; and it is not limited to the member: the
    entries of another member whose id starts with this member's id
    count as well. *)
Theorem accumulatedTotal_insert pg member key p :
  accumulatedTotal (with_payments pg (<[key := p]> (payments pg))) member
  = accumulatedTotal pg member
    - counted member key (payments pg !! key)
    + counted member key (Some p)
  ∧ (∀ other month year,
       String.prefix (mem_id member) other = true →
       counted member (slotKey other month year) (Some p)
       = if bool_decide (pay_payment_type p = Some ty_pronto_pago_benefit)
         then 0 else pay_amount p)
  ∧ (∀ month year,
       counted member (slotKey (mem_id member) month year) (Some p)
       = if bool_decide (pay_payment_type p = Some ty_pronto_pago_benefit)
         then 0 else pay_amount p).
Proof.
  assert (Hother : ∀ other month year,
            String.prefix (mem_id member) other = true →
            counted member (slotKey other month year) (Some p)
            = if bool_decide (pay_payment_type p = Some ty_pronto_pago_benefit)
              then 0 else pay_amount p).
  { intros other month year Hprefix. unfold counted, slotKey.
    rewrite (prefix_app _ _ _ Hprefix). cbn [andb].
    destruct (decide (pay_payment_type p = Some ty_pronto_pago_benefit))
      as [Hty|Hty].
    - rewrite bool_decide_eq_false_2 by tauto.
      by rewrite bool_decide_eq_true_2.
    - rewrite bool_decide_eq_true_2 by done.
      by rewrite bool_decide_eq_false_2. }
  split_and!; [| exact Hother |].
  - destruct (payments pg !! key) as [old|] eqn:Hold.
    + rewrite <- (insert_delete_eq (payments pg)).
      rewrite accumulatedTotal_fresh by apply lookup_delete_eq.
      assert (Hpg : accumulatedTotal pg member
                    = accumulatedTotal
                        (with_payments pg
                           (<[key := old]> (delete key (payments pg))))
                        member).
      { by rewrite insert_delete_id. }
      rewrite Hpg, accumulatedTotal_fresh by apply lookup_delete_eq.
      lia.
    + rewrite accumulatedTotal_fresh by done. cbn [counted].
      change (accumulatedTotal (with_payments pg (payments pg)) member)
        with (accumulatedTotal pg member).
      lia.
  - intros month year. apply Hother, prefix_refl.
Qed.

(** ** Reopening an entry *)

(** The log of an edit without an attached file: the snapshot, the
    update, and then the pending receipt and the message, or the reload
    and the store's message. *)
Lemma handleSavePayment_edit_log w pg sp old :
  selectedPayment pg = Some sp →
  sp_payment sp = Some old →
  receiptFile pg = None →
  ∃ outcome,
    (handleSavePayment w pg).1
    = CSetFlag "uploading" true
      :: CSetPayments
           (<[slotKey (sp_memberId sp) (sp_month sp) (sp_year sp)
              := edited_payment sp old (edit_fields w pg old)]> (payments pg))
      :: CUpdate (pay_id old) (edit_fields w pg old)
      :: outcome ++ [CSetFlag "uploading" false]
    ∧ match w_update w (pay_id old) (edit_fields w pg old) with
      | inl error => outcome = [CLoadData; CToast (toast_save_failed error)]
      | inr _ =>
          ∃ receipt,
            outcome
            = [CSetPendingReceipt "single" receipt;
               CToast {| toast_title := "Pago actualizado correctamente";
                         toast_description := None;
                         toast_variant := None |}]
            ∧ rc_amountPaid receipt = parsed_or_0 (amount pg)
            ∧ rc_totalAmount receipt = monthly_fee_base pg
            ∧ rc_remaining receipt
              = Z.max 0 (monthly_fee_base pg - parsed_or_0 (amount pg))
      end.
Proof.
  intros Hsp Hold Hfile. unfold handleSavePayment.
  rewrite Hsp, Hold, Hfile, bind_call. cbn [fst snd].
  unfold ret. rewrite bind_value. cbv beta.
  unfold save_edit. cbv zeta.
  assert (Hfields :
    {| uf_amount := parsed_or_0 (amount pg);
       uf_paid_at := str_or_null (paymentDate pg);
       uf_receipt_url := or_null (pay_receipt_url old);
       uf_payment_type := Some ty_regular;
       uf_notes := str_or_null (notes pg) |} = edit_fields w pg old).
  { unfold edit_fields, edit_receipt. by rewrite Hfile. }
  rewrite Hfields, !bind_call. cbn [fst snd].
  rewrite try_catch_finally_log. cbn [fst snd call].
  destruct (w_update w (pay_id old) (edit_fields w pg old)) as [e|answer].
  - cbn [throw fst snd call]. cbv beta. rewrite ?bind_call.
    cbn [fst snd call app].
    eexists [_; _]. split; [reflexivity |]. reflexivity.
  - cbv beta. rewrite ?bind_call. cbn [fst snd call app].
    eexists [_; _]. split; [reflexivity |].
    eexists. split; [reflexivity |]. cbn [rc_amountPaid rc_totalAmount
                                          rc_remaining].
    split_and!; [done | done |].
    destruct (Z.ltb_spec (parsed_or_0 (amount pg)) (monthly_fee_base pg)); lia.
Qed.

(** X13. A click on a cell that has an entry, followed by the save
    operation with the dialog left as the click filled it. No file is
    uploaded, and the one call on the ledger is an update of that entry
    which writes back its amount and its receipt reference, writes its
    note with an empty note as none, dates it today if it had no date,
    and sets its payment type to "regular", whatever the type was. The
    snapshot the page keeps changes first, and under the key of that
    cell only. If the store takes the update, the receipt left pending
    shows the entry's amount as paid and what it lacks to the fee as
    remaining; if it refuses, no receipt is left and the ledger is
    reloaded. *)
Theorem click_then_save w pg member monthIndex old :
  payments pg !! getPaymentKey (currentCalendarYear pg) (nextCalendarYear pg)
                   (mem_id member) monthIndex = Some old →
  let log := (handleSavePayment w
                (handleCellClick w pg member monthIndex)).1 in
  let date := match or_null (pay_paid_at old) with
              | Some d => d
              | None => w_today w
              end in
  let fields := {| uf_amount := pay_amount old;
                   uf_paid_at := str_or_null date;
                   uf_receipt_url := or_null (pay_receipt_url old);
                   uf_payment_type := Some ty_regular;
                   uf_notes := or_null (pay_notes old) |} in
  ledger_calls log = [CUpdate (pay_id old) fields]
  ∧ (∀ file folder, CUpload file folder ∉ log)
  ∧ (∃ new,
       snapshots log
       = [<[getPaymentKey (currentCalendarYear pg) (nextCalendarYear pg)
              (mem_id member) monthIndex := new]> (payments pg)]
       ∧ pay_id new = pay_id old
       ∧ pay_amount new = pay_amount old
       ∧ pay_receipt_url new = or_null (pay_receipt_url old)
       ∧ pay_payment_type new = Some ty_regular)
  ∧ match w_update w (pay_id old) fields with
    | inr _ =>
        ∃ receipt,
          pending_receipts log = [receipt]
          ∧ rc_amountPaid receipt = pay_amount old
          ∧ rc_remaining receipt
            = Z.max 0 (monthly_fee_base pg - pay_amount old)
    | inl error =>
        pending_receipts log = []
        ∧ CLoadData ∈ log
        ∧ toasts log = [toast_save_failed error]
    end.
Proof.
  intros Hold log date fields.
  set (sp := {| sp_memberId := mem_id member;
                sp_memberName := mem_full_name member;
                sp_monthIndex := monthIndex;
                sp_month := (getMonthYear (currentCalendarYear pg)
                               (nextCalendarYear pg) monthIndex).1;
                sp_year := (getMonthYear (currentCalendarYear pg)
                              (nextCalendarYear pg) monthIndex).2;
                sp_payment := Some old |}).
  set (pg' := handleCellClick w pg member monthIndex) in *.
  assert (Hsp : selectedPayment pg' = Some sp).
  { unfold pg', handleCellClick, sp. rewrite Hold.
    by destruct (getMonthYear _ _ monthIndex). }
  assert (Hfile : receiptFile pg' = None).
  { unfold pg', handleCellClick. by destruct (getMonthYear _ _ monthIndex). }
  assert (Hledger : payments pg' = payments pg).
  { unfold pg', handleCellClick. by destruct (getMonthYear _ _ monthIndex). }
  assert (Hfee : monthly_fee_base pg' = monthly_fee_base pg).
  { unfold pg', handleCellClick. by destruct (getMonthYear _ _ monthIndex). }
  assert (Hamount : parsed_or_0 (amount pg') = pay_amount old).
  { unfold pg', handleCellClick. rewrite Hold.
    by destruct (getMonthYear _ _ monthIndex). }
  assert (Hfields : edit_fields w pg' old = fields).
  { unfold edit_fields, edit_receipt. rewrite Hfile.
    unfold pg', handleCellClick. rewrite Hold.
    destruct (getMonthYear _ _ monthIndex). cbn. unfold fields. f_equal.
    destruct (pay_notes old) as [n|]; [| done].
    unfold str_or_null, truthy, or_null.
    destruct (bool_decide_reflect (n = "")) as [->|Hn]; [done |].
    destruct n; done. }
  destruct (handleSavePayment_edit_log w pg' sp old Hsp eq_refl Hfile)
    as (outcome & Hlog & Houtcome).
  fold log in Hlog. rewrite Hfields, Hledger in Hlog.
  rewrite Hfields, Hfee, Hamount in Houtcome.
  assert (Hshape :
    (∃ error, w_update w (pay_id old) fields = inl error
              ∧ outcome = [CLoadData; CToast (toast_save_failed error)])
    ∨ (∃ answer receipt,
         w_update w (pay_id old) fields = inr answer
         ∧ outcome
           = [CSetPendingReceipt "single" receipt;
              CToast {| toast_title := "Pago actualizado correctamente";
                        toast_description := None;
                        toast_variant := None |}]
         ∧ rc_amountPaid receipt = pay_amount old
         ∧ rc_remaining receipt
           = Z.max 0 (monthly_fee_base pg - pay_amount old))).
  { destruct (w_update w (pay_id old) fields) as [error|answer].
    - left. by exists error.
    - right. destruct Houtcome as (receipt & -> & ? & _ & ?).
      by exists answer, receipt. }
  clear Houtcome.
  split_and!.
  - rewrite Hlog.
    destruct Hshape as [(error & _ & ->)|(answer & receipt & _ & -> & _)];
      reflexivity.
  - intros file folder. rewrite Hlog.
    destruct Hshape as [(error & _ & ->)|(answer & receipt & _ & -> & _)];
      cbn [app]; rewrite !not_elem_of_cons;
      split_and!; try discriminate; apply not_elem_of_nil.
  - exists (edited_payment sp old fields). split; [| by split_and!].
    rewrite Hlog.
    destruct Hshape as [(error & _ & ->)|(answer & receipt & _ & -> & _)];
      reflexivity.
  - destruct Hshape as [(error & -> & ->)|(answer & receipt & -> & -> & ? & ?)].
    + rewrite Hlog. split_and!; [reflexivity | | reflexivity].
      do 3 apply list_elem_of_further. apply list_elem_of_here.
    + exists receipt. rewrite Hlog. by split_and!.
Qed.

(** The paid August of member m1, a quick-pay month of 40, is opened
    and saved as it is: the update sets its type to "regular". *)
Lemma click_then_save_witness :
  ledger_calls
    (handleSavePayment ex_world
       (handleCellClick ex_world (ex_page ex_ledger_three None None None)
          ex_member 1)).1
  = [CUpdate "p2"
       {| uf_amount := 40; uf_paid_at := Some "2025-07-10";
          uf_receipt_url := None; uf_payment_type := Some ty_regular;
          uf_notes := None |}].
Proof.
  destruct (click_then_save ex_world (ex_page ex_ledger_three None None None)
              ex_member 1 (ex_entry "p2" 8 2025 40 ty_pronto_pago))
    as (Hcalls & _).
  - vm_compute. reflexivity.
  - etrans; [exact Hcalls |]. vm_compute. reflexivity.
Defined.

(** ** Quick-pay as it opens *)

(** X14. The quick-pay dialog confirmed as [openQuickPay] filled it:
    amount the monthly fee, date today, no file. With a fee that is not
    positive it is refused for its amount. With a positive fee (and a
    date for today) nothing is uploaded to choose from: the one call on
    the ledger is the insert of the rows at the fee, dated today and
    without receipt, for the months of the member that have no entry, and
    no call at all when every month has one. *)
Theorem openQuickPay_then_confirm w pg member :
  let pg' := openQuickPay w pg member in
  let fee := monthly_fee_base pg in
  let rows := quick_pay_rows (mem_id member) fee (w_today w) None
                (w_randomUUID w) (currentYearPending pg (mem_id member)) in
  (fee ≤ 0 → handleQuickPay w pg' = ([CToast toast_amount_required], inr tt))
  ∧ (0 < fee → w_today w = "" →
     handleQuickPay w pg' = ([CToast toast_date_required], inr tt))
  ∧ (0 < fee → w_today w ≠ "" →
     ledger_calls (handleQuickPay w pg').1
     = match empty_slots pg (mem_id member) with
       | [] => []
       | _ :: _ => [CInsert rows]
       end
     ∧ Forall (λ r, nr_amount r = fee ∨ nr_amount r = 0) rows
     ∧ Forall (λ r, nr_paid_at r = Some (w_today w)
                    ∧ nr_receipt_url r = None) rows).
Proof.
  intros pg' fee rows.
  set (qp := {| qp_memberId := mem_id member;
                qp_memberName := mem_full_name member;
                qp_defaultAmount := monthly_fee_base pg |}).
  split_and!.
  - intros Hfee. unfold handleQuickPay, pg', openQuickPay.
    cbn [showQuickPay quickPayAmount]. rewrite amount_test.
    by assert ((monthly_fee_base pg <=? 0) = true) as -> by lia.
  - intros Hfee Hdate. unfold handleQuickPay, pg', openQuickPay.
    cbn [showQuickPay quickPayAmount quickPayDate]. rewrite amount_test, Hdate.
    by assert ((monthly_fee_base pg <=? 0) = false) as -> by lia.
  - intros Hfee Hdate. split_and!.
    + rewrite (handleQuickPay_calls w pg' qp fee) by done.
      assert (Hup : upload_accepted w (quickPayReceipt pg') "quick-pay").
      { intros f Hf. discriminate Hf. }
      destruct (quick_pay_body_calls w pg' qp fee Hup)
        as (tail & result & -> & Htail & _).
      cbn [fst upload_calls quickPayReceipt pg' openQuickPay app].
      change (currentYearPending pg' (qp_memberId qp))
        with (currentYearPending pg (mem_id member)).
      change (bulk_receipt w (quickPayReceipt pg') "quick-pay")
        with (@None string).
      change (quickPayDate pg') with (w_today w).
      rewrite (currentYearPending_empty_slots pg (mem_id member)) at 1.
      rewrite length_fmap.
      destruct (empty_slots pg (mem_id member)) as [|i rest]; [done |].
      cbn [length Nat.eqb].
      change (ledger_calls (CInsert ?r :: tail))
        with (CInsert r :: ledger_calls tail).
      by rewrite Htail.
    + unfold rows, quick_pay_rows. apply Forall_app. split.
      * apply Forall_fmap, Forall_forall. intros mp _. by left.
      * destruct (freeMonth _); [| by constructor].
        apply Forall_cons. split; [by right | by constructor].
    + unfold rows, quick_pay_rows. apply Forall_app. split.
      * apply Forall_fmap, Forall_forall. by intros mp _.
      * destruct (freeMonth _); by repeat constructor.
Qed.

(** ** The amount in words *)

Lemma string_app_assoc (s t u : string) : (s +:+ t) +:+ u = s +:+ t +:+ u.
Proof.
  induction s as [|a s IH]; [done |].
  change (String a ((s +:+ t) +:+ u) = String a (s +:+ t +:+ u)).
  by rewrite IH.
Qed.

Lemma string_app_nil_r (s : string) : s +:+ "" = s.
Proof.
  induction s as [|a s IH]; [done |].
  change (String a (s +:+ "") = String a s). by rewrite IH.
Qed.

Lemma string_app_cons (a : Ascii.ascii) (s t : string) :
  String a s +:+ t = String a (s +:+ t).
Proof. reflexivity. Qed.

Lemma trimStart_keeps (x : string) (c : Ascii.ascii) (s : string) :
  Ascii.is_space c = false →
  ∃ x', trimStart (x +:+ String c s) = x' +:+ String c s.
Proof.
  intros Hc. induction x as [|a x IH].
  - exists "". change (trimStart (String c s) = String c s).
    simpl. by rewrite Hc.
  - rewrite string_app_cons. simpl.
    destruct (Ascii.is_space a); [exact IH |].
    by exists (String a x).
Qed.

Lemma trimEnd_cons (c : Ascii.ascii) (s : string) :
  Ascii.is_space c = false → trimEnd (String c s) = String c (trimEnd s).
Proof. intros Hc. simpl. destruct (trimEnd s); by rewrite ?Hc. Qed.

Lemma trimEnd_keeps (x s : string) :
  trimEnd s ≠ "" → trimEnd (x +:+ s) = x +:+ trimEnd s.
Proof.
  intros Hs. induction x as [|a x IH]; [done |].
  rewrite !string_app_cons. simpl. rewrite IH.
  destruct (x +:+ trimEnd s) as [|b t] eqn:Ht; [| done].
  destruct x; [| discriminate Ht]. by destruct Hs.
Qed.

(** Trimming leaves in place a part of the text that starts and ends
    with something other than white space. *)
Lemma trim_keeps (x core : string) (c d : Ascii.ascii) (y : string) :
  Ascii.is_space c = false → Ascii.is_space d = false →
  ∃ x', trim (x +:+ String c (core +:+ String d y))
        = x' +:+ String c (core +:+ String d (trimEnd y)).
Proof.
  intros Hc Hd. unfold trim.
  destruct (trimStart_keeps x c (core +:+ String d y) Hc) as [x' ->].
  exists x'.
  assert (Hlast : trimEnd (String d y) = String d (trimEnd y))
    by by apply trimEnd_cons.
  change (x' +:+ String c (core +:+ String d y))
    with (x' +:+ (String c core +:+ String d y)).
  rewrite <- string_app_assoc, trimEnd_keeps by by rewrite Hlast.
  by rewrite Hlast, string_app_assoc.
Qed.

Lemma capitalize_app (s t : string) :
  s ≠ "" → capitalize (s +:+ t) = capitalize s +:+ t.
Proof. by destruct s. Qed.

(** The statements after the thousands append to [result], trim, and
    append the cents. *)
Lemma words_below_thousand_shape (result : string) (intPart decPart : Z) :
  decPart = decPart mod 100 →
  ∃ appended,
    words_below_thousand result intPart decPart
    = capitalize (trim (result +:+ appended)
                  +:+ (" con "
                       +:+ (if 0 <? decPart then pretty decPart else "00")
                       +:+ "/100")).
Proof.
  intros _. unfold words_below_thousand. cbv zeta.
  set (remainder := Z.rem intPart 1000).
  set (lastTwo := Z.rem remainder 100).
  assert (Hcents :
    ∀ r, (if 0 <? decPart then r +:+ (" con " +:+ pretty decPart +:+ "/100")
          else r +:+ " con 00/100")
         = r +:+ (" con "
                  +:+ (if 0 <? decPart then pretty decPart else "00")
                  +:+ "/100")).
  { intros r. by destruct (0 <? decPart). }
  rewrite Hcents.
  destruct (100 <=? remainder);
    destruct ((10 <=? lastTwo) && (lastTwo <=? 19));
    destruct (20 <=? lastTwo);
    destruct (negb (bool_decide (Z.rem lastTwo 10 = 0)));
    destruct (0 <? lastTwo);
    rewrite ?string_app_assoc;
    try (eexists; reflexivity);
    exists ""; by rewrite string_app_nil_r.
Qed.

Lemma log2_halved (x y : Z) : 0 < y → y ≤ x / 2 → Z.log2 y < Z.log2 x.
Proof.
  intros Hy Hle.
  assert (Hx : 2 ≤ x) by (Z.div_mod_to_equations; lia).
  pose proof (Z.log2_le_mono y (x / 2) Hle) as Hmono.
  pose proof (Z.log2_le_mono 2 x Hx) as Htwo.
  change (Z.log2 2) with 1 in Htwo.
  replace (x / 2) with (Z.shiftr x 1) in Hmono
    by (rewrite Z.shiftr_div_pow2 by lia; reflexivity).
  rewrite Z.log2_shiftr in Hmono by lia.
  lia.
Qed.

(** The bound on the depth is enough. *)
Lemma numberToWords_upto_total (depth : nat) (cents : Z) :
  Z.log2 cents < Z.of_nat depth →
  is_Some (numberToWords_upto depth cents).
Proof.
  revert cents. induction depth as [|depth IH]; intros cents Hdepth.
  - pose proof (Z.log2_nonneg cents). lia.
  - simpl.
    destruct (bool_decide (cents = 0)); [by eexists |].
    destruct (bool_decide (cents = 10000)); [by eexists |].
    destruct (Z.leb_spec 1000 (cents / 100)) as [Hbig|Hsmall];
      [| by eexists].
    destruct (bool_decide (cents / 100 / 1000 = 1)); [by eexists |].
    destruct (IH (cents / 100 / 1000 * 100)) as [inner ->]; [| by eexists].
    assert (Z.log2 (cents / 100 / 1000 * 100) < Z.log2 cents).
    { apply log2_halved; Z.div_mod_to_equations; lia. }
    lia.
Qed.

(** Away from 0 and 100, the words end with the cents. *)
Lemma numberToWords_upto_cents (depth : nat) (cents : Z) (words : string) :
  numberToWords_upto depth cents = Some words →
  cents ≠ 0 → cents ≠ 10000 →
  ∃ body, words = body +:+ cents_in_words cents.
Proof.
  intros Hwords H0 H100. destruct depth as [|depth]; [done |].
  simpl in Hwords.
  rewrite !bool_decide_eq_false_2 in Hwords by done.
  destruct (if 1000 <=? cents / 100 then _ else _) as [result|];
    [| done].
  injection Hwords as <-.
  destruct (words_below_thousand_shape result (cents / 100) (cents mod 100))
    as [appended ->].
  { by rewrite Z.mod_mod. }
  unfold cents_in_words.
  destruct (trim (result +:+ appended)) as [|a body].
  - by exists "".
  - exists (String (toUpperCase a) body). reflexivity.
Qed.

(** X15. The amount in words of a receipt, for an amount of [cents]
    cents from 0 to below 2^52, the range in which the code's doubles
    give the whole part and the cents of the decimal. The function
    returns for every such amount. Zero reads "cero" and one hundred
    reads "cien", alone of all amounts without a capital letter and
    without the cents; every other amount ends with its cents as
    " con dd/100", whole amounts with " con 00/100" and cents below ten
    with one digit. From two thousand on, the thousands are put into
    words by the function itself, so their words come with cents of
    their own: the text reads "... con 00/100 mil ...", except for one
    hundred thousand. *)
Theorem numberToWords_reads (cents : Z) :
  0 ≤ cents < 2 ^ 52 →
  ∃ words,
    numberToWords cents = Some words
    ∧ (cents = 0 → words = "cero")
    ∧ (cents = 10000 → words = "cien")
    ∧ (cents ≠ 0 → cents ≠ 10000 →
       ∃ body, words = body +:+ cents_in_words cents)
    ∧ (200000 ≤ cents → cents / 100000 ≠ 100 →
       ∃ before after,
         words = before +:+ "00/100 mil" +:+ after
                 +:+ cents_in_words cents).
Proof.
  intros _.
  destruct (numberToWords_upto_total (S (Z.to_nat (Z.log2 cents))) cents)
    as [words Hwords].
  { pose proof (Z.log2_nonneg cents). lia. }
  exists words. split_and!.
  - exact Hwords.
  - intros ->. by injection Hwords as <-.
  - intros ->. by injection Hwords as <-.
  - by apply (numberToWords_upto_cents _ _ _ Hwords).
  - intros Hbig Hthousands. unfold numberToWords in Hwords.
    simpl in Hwords.
    rewrite !bool_decide_eq_false_2 in Hwords by lia.
    assert (Hint : (1000 <=? cents / 100) = true).
    { apply Z.leb_le. Z.div_mod_to_equations. lia. }
    rewrite Hint in Hwords.
    assert (Hdiv : cents / 100 / 1000 = cents / 100000).
    { rewrite Z.div_div by lia. reflexivity. }
    rewrite bool_decide_eq_false_2 in Hwords
      by (rewrite Hdiv; Z.div_mod_to_equations; lia).
    destruct (numberToWords_upto _ (cents / 100 / 1000 * 100))
      as [inner|] eqn:Hinner; [| done].
    injection Hwords as <-.
    destruct (numberToWords_upto_cents _ _ _ Hinner) as [body ->].
    { rewrite Hdiv. Z.div_mod_to_equations. lia. }
    { rewrite Hdiv. Z.div_mod_to_equations. lia. }
    assert (Hwhole : cents_in_words (cents / 100 / 1000 * 100)
                     = " con 00/100").
    { unfold cents_in_words. by rewrite Z.mod_mul by lia. }
    rewrite Hwhole.
    destruct (words_below_thousand_shape
                ((body +:+ " con 00/100") +:+ " mil ")
                (cents / 100) (cents mod 100))
      as [appended ->].
    { by rewrite Z.mod_mod. }
    fold (cents_in_words cents).
    assert (Htext : ((body +:+ " con 00/100") +:+ " mil ") +:+ appended
                    = (body +:+ " con ")
                      +:+ String "0"%char
                            ("0/100 mi"
                             +:+ String "l"%char (" " +:+ appended))).
    { by rewrite !string_app_assoc. }
    rewrite Htext.
    destruct (trim_keeps (body +:+ " con ") "0/100 mi" "0"%char "l"%char
                (" " +:+ appended))
      as [before ->]; [done | done |].
    exists (capitalize before), (trimEnd (" " +:+ appended)).
    rewrite string_app_assoc.
    destruct before as [|a before]; [reflexivity |].
    rewrite !string_app_cons. cbn [capitalize].
    by rewrite !string_app_cons.
Qed.

(** Two thousand: the words end with the cents and hold the cents of
    the thousands before "mil". *)
Lemma numberToWords_reads_witness :
  ∃ words,
    numberToWords 200000 = Some words
    ∧ ∃ before after,
        words = before +:+ "00/100 mil" +:+ after
                +:+ cents_in_words 200000.
Proof.
  destruct (numberToWords_reads 200000)
    as (words & Hwords & _ & _ & _ & Hthousands).
  - split; [lia | reflexivity].
  - exists words. split; [exact Hwords |].
    apply Hthousands; [lia | vm_compute; discriminate].
Defined.

(** Two thousand reads with the cents of its thousands in the middle. *)
Example numberToWords_two_thousand :
  numberToWords 200000 = Some "Dos con 00/100 mil con 00/100"
  ∧ numberToWords 155050 = Some "Mil quinientos cincuenta con 50/100"
  ∧ numberToWords 5005 = Some "Cincuenta con 5/100"
  ∧ numberToWords 50 = Some " con 50/100".
Proof. split_and!; vm_compute; reflexivity. Qed.
